(** * Workbench mini-games: simulation cores

    A shallow embedding of the game-state logic of the two browser games of
    the repository, and properties of it: those that the specification
    states, and further ones that the code shows.

    - [Runner]: the Phaser scene [RunnerScene] (endless runner with barrels,
      boxes and dragons), and [PhaserGame], the component that mounts it;
    - [Light]: the traffic-light cycle shared, with the same text, by both
      driving games;
    - [Kinematic]: the driving game with hand-written arcade physics;
    - [RigidBody]: the driving game that delegates the motion of the car to
      a rigid-body engine ([TrafficGame.tsx]).

    Numbers.  JavaScript numbers are IEEE doubles.  The runner only adds,
    subtracts, multiplies, divides and floors, and is embedded over the
    rationals [Q] (exact, executable) extended with the infinities and
    [NaN]; the driving games take square roots, sines and cosines and are
    embedded over the reals [R].  Rounding error of the arithmetic is
    therefore not part of the model: every statement below is about the
    exact arithmetic the code writes down.  Where the runner turns text
    into a number and a number into text ([parseInt], [String]) the double
    is modelled: the integer read is rounded to the nearest double, and the
    text written is the one of the nearest double. *)

From Stdlib Require Import ZArith QArith Qround Reals Lra Lia Bool.
From Stdlib Require Import String Ascii List.
From Stdlib Require Lqa.
From stdpp Require Import base option list gmap strings pretty.
Import ListNotations.

(** ** JavaScript numbers: rationals, the infinities and [NaN] *)

Inductive jsnum : Type :=
| Num (q : Q)
| Inf (negative : bool)
| NaN.

Definition Qltb (a b : Q) : bool := (Qnum a * QDen b <? Qnum b * QDen a)%Z.
Definition Qleb (a b : Q) : bool := (Qnum a * QDen b <=? Qnum b * QDen a)%Z.

(** [a - b], [a * b], [a <= b], [a > b] and [Math.max(a, b)] on numbers:
    an operand that is [NaN] makes the result [NaN], and every comparison
    with [NaN] false. *)
Definition js_sub (a b : jsnum) : jsnum :=
  match a, b with
  | Num p, Num q => Num (p - q)
  | Inf n, Num _ => Inf n
  | Num _, Inf m => Inf (negb m)
  | Inf n, Inf m => if Bool.eqb n m then NaN else Inf n
  | _, _ => NaN
  end.

Definition js_mul (a b : jsnum) : jsnum :=
  match a, b with
  | Num p, Num q => Num (p * q)
  | Inf n, Num q | Num q, Inf n =>
      if Qeq_bool q 0 then NaN else Inf (xorb n (Qltb q 0))
  | Inf n, Inf m => Inf (xorb n m)
  | _, _ => NaN
  end.

Definition js_le (a b : jsnum) : bool :=
  match a, b with
  | Num p, Num q => Qleb p q
  | Inf n, Num _ => n
  | Num _, Inf m => negb m
  | Inf n, Inf m => n || negb m
  | _, _ => false
  end.

Definition js_gt (a b : jsnum) : bool :=
  match a, b with
  | Num p, Num q => Qltb q p
  | Inf n, Num _ => negb n
  | Num _, Inf m => m
  | Inf n, Inf m => negb n && m
  | _, _ => false
  end.

Definition js_max (a b : jsnum) : jsnum :=
  match a, b with
  | NaN, _ | _, NaN => NaN
  | Inf false, _ | _, Inf false => Inf false
  | Inf true, x | x, Inf true => x
  | Num p, Num q => Num (if Qltb p q then q else p)
  end.

(** A property read off an object: [None] is [undefined].  [ToNumber] of
    [undefined] is [NaN]; [undefined], [0] and [NaN] are falsy. *)
Definition to_number (v : option jsnum) : jsnum :=
  match v with Some n => n | None => NaN end.

Definition truthy (v : option jsnum) : bool :=
  match v with
  | Some (Num q) => negb (Qeq_bool q 0)
  | Some (Inf _) => true
  | Some NaN | None => false
  end.

(** ** Integers as doubles

    [to_double n] is the double nearest to the natural number [n], ties
    going to the even mantissa; a result of 2^1024 or more stands for
    [Infinity].  Up to [MAX_SAFE_INTEGER], 2^53 - 1, every natural number
    is a double. *)
Definition MAX_SAFE_INTEGER : Z := 9007199254740991.

Definition to_double (n : Z) : Z :=
  let bits := (Z.log2 n + 1)%Z in
  if (bits <=? 53)%Z then n
  else
    let ulp := (2 ^ (bits - 53))%Z in
    let q := (n / ulp)%Z in
    let r := (n mod ulp)%Z in
    let q' :=
      if (2 * r <? ulp)%Z then q
      else if (ulp <? 2 * r)%Z then (q + 1)%Z
      else if Z.even q then q else (q + 1)%Z in
    (q' * ulp)%Z.

Definition overflows (v : Z) : bool := (2 ^ 1024 <=? v)%Z.

(** ** [parseInt] and [String] on integers

    A JavaScript string is held as its UTF-8 text, the way a string literal
    of this file is read.  Signs, digits and the letter x are ASCII; the
    white space that [parseInt] skips is not.

    [parseInt(s)] without a radix, after ECMAScript: leading white space and
    line terminators are skipped, then an optional sign, then an optional
    [0x]/[0X] prefix selecting radix 16; the longest prefix of digits of
    the radix is the value, as a double, and [NaN] when it is empty. *)

Definition code (c : ascii) : Z := Z.of_nat (nat_of_ascii c).

(** White space and line terminators of one, two and three bytes: TAB, LF,
    VT, FF, CR, SP; U+00A0; U+1680, U+2000 to U+200A, U+2028, U+2029,
    U+202F, U+205F, U+3000 and U+FEFF. *)
Definition is_space (c : ascii) : bool :=
  match nat_of_ascii c with
  | 9%nat | 10%nat | 11%nat | 12%nat | 13%nat | 32%nat => true
  | _ => false
  end.

Definition is_space2 (a b : ascii) : bool :=
  ((code a =? 194) && (code b =? 160))%Z.

Definition is_space3 (a b c : ascii) : bool :=
  ((code a =? 225) && (code b =? 154) && (code c =? 128)
   || (code a =? 226) && (code b =? 128)
      && ((128 <=? code c) && (code c <=? 138)
          || (code c =? 168) || (code c =? 169) || (code c =? 175))
   || (code a =? 226) && (code b =? 129) && (code c =? 159)
   || (code a =? 227) && (code b =? 128) && (code c =? 128)
   || (code a =? 239) && (code b =? 187) && (code c =? 191))%Z.

Fixpoint trim_start (s : string) : string :=
  match s with
  | String a r =>
      if is_space a then trim_start r
      else
        match r with
        | String b r2 =>
            if is_space2 a b then trim_start r2
            else
              match r2 with
              | String c r3 => if is_space3 a b c then trim_start r3 else s
              | EmptyString => s
              end
        | EmptyString => s
        end
  | EmptyString => s
  end.

Definition digit_of (c : ascii) : option Z :=
  let n := Z.of_nat (nat_of_ascii c) in
  if ((48 <=? n) && (n <=? 57))%Z then Some (n - 48)%Z
  else if ((97 <=? n) && (n <=? 122))%Z then Some (n - 87)%Z
  else if ((65 <=? n) && (n <=? 90))%Z then Some (n - 55)%Z
  else None.

Fixpoint digits (radix : Z) (s : string) (acc : option Z) : option Z :=
  match s with
  | String c r =>
      match digit_of c with
      | Some d =>
          if (d <? radix)%Z
          then digits radix r
                 (Some (match acc with Some a => a * radix + d | None => d end)%Z)
          else acc
      | None => acc
      end
  | EmptyString => acc
  end.

Definition is_x (c : ascii) : bool :=
  match nat_of_ascii c with 120%nat | 88%nat => true | _ => false end.

Definition parseInt (s : string) : jsnum :=
  let s1 := trim_start s in
  let '(sign, s2) :=
    match s1 with
    | String c r =>
        if Ascii.eqb c "-" then ((-1)%Z, r)
        else if Ascii.eqb c "+" then (1%Z, r) else (1%Z, s1)
    | EmptyString => (1%Z, s1)
    end in
  let '(radix, s3) :=
    match s2 with
    | String c0 (String c1 r) =>
        if Ascii.eqb c0 "0" && is_x c1 then (16%Z, r) else (10%Z, s2)
    | _ => (10%Z, s2)
    end in
  match digits radix s3 None with
  | Some n =>
      let v := to_double n in
      if overflows v then Inf (sign <? 0)%Z else Num (inject_Z (sign * v))
  | None => NaN
  end.

(** [String(n)] for an integer-valued number, after ECMAScript
    ([Number::toString]).  The number is the double nearest to [n].  The
    text is made of the fewest significant digits that read back as the
    same double ([shortest]; of two such numbers the nearer one): written
    out in full, with zeros after them, below 10^21, and in exponent form
    from there on.  For an integer up to 2^53 - 1 this is its plain decimal
    text. *)
Definition decimal_length (n : Z) : Z := Z.of_nat (String.length (pretty n)).

(** The number of [k] significant digits that reads back as the double
    [v], if there is one: it is one of the two next to [v]. *)
Definition nearest (v k : Z) : option Z :=
  let scale := (10 ^ (decimal_length v - k))%Z in
  let lo := (v / scale * scale)%Z in
  let hi := (lo + scale)%Z in
  match (to_double lo =? v)%Z, (to_double hi =? v)%Z with
  | true, true =>
      Some (if (v - lo <? hi - v)%Z then lo
            else if (hi - v <? v - lo)%Z then hi
            else if Z.even (v / scale) then lo else hi)
  | true, false => Some lo
  | false, true => Some hi
  | false, false => None
  end.

Fixpoint shortest_from (v k : Z) (fuel : nat) : Z :=
  match fuel with
  | O => v
  | S fuel' =>
      match nearest v k with
      | Some c => c
      | None => shortest_from v (k + 1) fuel'
      end
  end.

(** Seventeen significant digits tell any two doubles apart. *)
Definition shortest (v : Z) : Z := shortest_from v 1 17.

(** The digits of [c] without the zeros at its end. *)
Fixpoint significand (c : Z) (fuel : nat) : Z :=
  match fuel with
  | O => c
  | S fuel' => if (c mod 10 =? 0)%Z then significand (c / 10) fuel' else c
  end.

Definition exponential (c : Z) : string :=
  let e := (decimal_length c - 1)%Z in
  match pretty (significand c (Z.to_nat e)) with
  | String d EmptyString => String d ("e+" ++ pretty e)
  | String d rest => String d ("." ++ rest ++ "e+" ++ pretty e)
  | EmptyString => EmptyString
  end.

Definition String_of_int (n : Z) : string :=
  let v := to_double (Z.abs n) in
  let sign := if (n <? 0)%Z then "-"%string else ""%string in
  if overflows v then sign ++ "Infinity"
  else
    let c := shortest v in
    sign ++ (if (c <? 10 ^ 21)%Z then pretty c else exponential c).

(** Texts made of decimal digits only. *)
Definition is_decimal (c : ascii) : bool :=
  let n := Z.of_nat (nat_of_ascii c) in ((48 <=? n) && (n <=? 57))%Z.

Fixpoint all_decimal (s : string) : bool :=
  match s with
  | String c r => is_decimal c && all_decimal r
  | EmptyString => true
  end.

(** ** The browser's [localStorage] *)

Abbreviation localStorage := (gmap string string).

Definition getItem (k : string) (ls : localStorage) : option string := ls !! k.
Definition setItem (k v : string) (ls : localStorage) : localStorage := <[k:=v]> ls.

(** [a || b] on a string-or-null: [null] and the empty string are falsy. *)
Definition or_default (a : option string) (b : string) : string :=
  match a with
  | Some s => if String.eqb s "" then b else s
  | None => b
  end.

(** * The runner: [RunnerScene] *)

Module Runner.

Local Open Scope Q_scope.

(** The canvas of the game configuration ([width: 900, height: 500]). *)
Definition width : Q := 900.
Definition height : Q := 500.

Definition highscoreKey : string := "barrelJumpHighscore".

(** ** Data model *)

(** The data manager of a sprite ([setData]/[getData]).  The scene writes
    four keys, each always with a value of one kind, so the manager is a
    record of optional fields; an absent field is a key never set.  The
    manager is a store of its own: [setData "life" v] does not create a
    property [life] on the sprite object. *)
Record SpriteData : Type := {
  d_type : option string;
  d_health : option Q;
  d_fireTimer : option Q;
  d_life : option Q
}.

(** A sprite of one of the four groups.  [spr_id] is the identity of the
    object (closures and collision callbacks hold sprites by reference);
    [spr_life] is the JavaScript property [life] of the object itself, which
    the update loop reads and writes.  The velocity given to particles is
    consumed by the arcade physics engine only and is not modelled. *)
Record Sprite : Type := {
  spr_id : nat;
  spr_x : Q;
  spr_y : Q;
  spr_alpha : jsnum;
  spr_data : SpriteData;
  spr_life : option jsnum
}.

Definition set_x (v : Q) (o : Sprite) : Sprite :=
  {| spr_id := spr_id o; spr_x := v; spr_y := spr_y o; spr_alpha := spr_alpha o;
     spr_data := spr_data o; spr_life := spr_life o |}.

Definition set_life_alpha (l a : jsnum) (o : Sprite) : Sprite :=
  {| spr_id := spr_id o; spr_x := spr_x o; spr_y := spr_y o; spr_alpha := a;
     spr_data := spr_data o; spr_life := Some l |}.

Definition set_health (h : Q) (o : Sprite) : Sprite :=
  {| spr_id := spr_id o; spr_x := spr_x o; spr_y := spr_y o; spr_alpha := spr_alpha o;
     spr_data := {| d_type := d_type (spr_data o); d_health := Some h;
                    d_fireTimer := d_fireTimer (spr_data o);
                    d_life := d_life (spr_data o) |};
     spr_life := spr_life o |}.

(** The player's arcade body, as far as the scene reads and writes it:
    [vy] is [body.velocity.y] (positive is downward on the screen). *)
Record Player : Type := {
  p_x : Q;
  p_y : Q;
  vy : Q;
  blocked_down : bool;
  touching_down : bool
}.

Inductive Callback : Type := CbSpawnObstacle | CbSpawnDragon.

(** A timer event of the scene's clock.  [te_live] is false once the event
    was removed ([remove]) or the clock was shut down; the field of the scene
    that holds the event keeps holding it. *)
Record TimerEvent : Type := {
  te_delay : Q;
  te_loop : bool;
  te_callback : Callback;
  te_live : bool
}.

Definition remove (t : TimerEvent) : TimerEvent :=
  {| te_delay := te_delay t; te_loop := te_loop t; te_callback := te_callback t;
     te_live := false |}.

(** A [setInterval] of [scheduleFireBreath]: the dragon its closure holds
    and the closure's [fireCounter]. *)
Record FireInterval : Type := { iv_dragon : nat; iv_counter : Z }.

(** The scene instance: its fields as the class declares them, the three
    HUD texts (the number each shows), and what Phaser and the browser keep
    for the scene: whether physics is paused, whether a once-listener for
    the R key is registered, the next fresh object identity and the running
    fire-breath intervals. *)
Record RunnerScene : Type := {
  player : Player;
  obstacles : list Sprite;
  dragons : list Sprite;
  fireParticles : list Sprite;
  particles : list Sprite;
  scoreText : Z;
  levelText : Z;
  highscoreText : jsnum;
  score : Q;
  level : Z;
  spawnTimer : option TimerEvent;
  dragonSpawnTimer : option TimerEvent;
  dragonFireTimer : option TimerEvent;
  baseSpawnDelay : Q;
  gameActive : bool;
  dragonHealth : Q;
  physicsPaused : bool;
  restartListener : bool;
  nextId : nat;
  intervals : list FireInterval
}.

Definition set_player (v : Player) (s : RunnerScene) : RunnerScene :=
  {| player := v; obstacles := obstacles s; dragons := dragons s; fireParticles :=
     fireParticles s; particles := particles s; scoreText := scoreText s; levelText :=
     levelText s; highscoreText := highscoreText s; score := score s; level := level s;
     spawnTimer := spawnTimer s; dragonSpawnTimer := dragonSpawnTimer s; dragonFireTimer
     := dragonFireTimer s; baseSpawnDelay := baseSpawnDelay s; gameActive := gameActive
     s; dragonHealth := dragonHealth s; physicsPaused := physicsPaused s;
     restartListener := restartListener s; nextId := nextId s; intervals := intervals s
     |}.

Definition set_obstacles (v : list Sprite) (s : RunnerScene) : RunnerScene :=
  {| player := player s; obstacles := v; dragons := dragons s; fireParticles :=
     fireParticles s; particles := particles s; scoreText := scoreText s; levelText :=
     levelText s; highscoreText := highscoreText s; score := score s; level := level s;
     spawnTimer := spawnTimer s; dragonSpawnTimer := dragonSpawnTimer s; dragonFireTimer
     := dragonFireTimer s; baseSpawnDelay := baseSpawnDelay s; gameActive := gameActive
     s; dragonHealth := dragonHealth s; physicsPaused := physicsPaused s;
     restartListener := restartListener s; nextId := nextId s; intervals := intervals s
     |}.

Definition set_dragons (v : list Sprite) (s : RunnerScene) : RunnerScene :=
  {| player := player s; obstacles := obstacles s; dragons := v; fireParticles :=
     fireParticles s; particles := particles s; scoreText := scoreText s; levelText :=
     levelText s; highscoreText := highscoreText s; score := score s; level := level s;
     spawnTimer := spawnTimer s; dragonSpawnTimer := dragonSpawnTimer s; dragonFireTimer
     := dragonFireTimer s; baseSpawnDelay := baseSpawnDelay s; gameActive := gameActive
     s; dragonHealth := dragonHealth s; physicsPaused := physicsPaused s;
     restartListener := restartListener s; nextId := nextId s; intervals := intervals s
     |}.

Definition set_fireParticles (v : list Sprite) (s : RunnerScene) : RunnerScene :=
  {| player := player s; obstacles := obstacles s; dragons := dragons s; fireParticles
     := v; particles := particles s; scoreText := scoreText s; levelText := levelText s;
     highscoreText := highscoreText s; score := score s; level := level s; spawnTimer :=
     spawnTimer s; dragonSpawnTimer := dragonSpawnTimer s; dragonFireTimer :=
     dragonFireTimer s; baseSpawnDelay := baseSpawnDelay s; gameActive := gameActive s;
     dragonHealth := dragonHealth s; physicsPaused := physicsPaused s; restartListener
     := restartListener s; nextId := nextId s; intervals := intervals s |}.

Definition set_particles (v : list Sprite) (s : RunnerScene) : RunnerScene :=
  {| player := player s; obstacles := obstacles s; dragons := dragons s; fireParticles
     := fireParticles s; particles := v; scoreText := scoreText s; levelText :=
     levelText s; highscoreText := highscoreText s; score := score s; level := level s;
     spawnTimer := spawnTimer s; dragonSpawnTimer := dragonSpawnTimer s; dragonFireTimer
     := dragonFireTimer s; baseSpawnDelay := baseSpawnDelay s; gameActive := gameActive
     s; dragonHealth := dragonHealth s; physicsPaused := physicsPaused s;
     restartListener := restartListener s; nextId := nextId s; intervals := intervals s
     |}.

Definition set_scoreText (v : Z) (s : RunnerScene) : RunnerScene :=
  {| player := player s; obstacles := obstacles s; dragons := dragons s; fireParticles
     := fireParticles s; particles := particles s; scoreText := v; levelText :=
     levelText s; highscoreText := highscoreText s; score := score s; level := level s;
     spawnTimer := spawnTimer s; dragonSpawnTimer := dragonSpawnTimer s; dragonFireTimer
     := dragonFireTimer s; baseSpawnDelay := baseSpawnDelay s; gameActive := gameActive
     s; dragonHealth := dragonHealth s; physicsPaused := physicsPaused s;
     restartListener := restartListener s; nextId := nextId s; intervals := intervals s
     |}.

Definition set_levelText (v : Z) (s : RunnerScene) : RunnerScene :=
  {| player := player s; obstacles := obstacles s; dragons := dragons s; fireParticles
     := fireParticles s; particles := particles s; scoreText := scoreText s; levelText
     := v; highscoreText := highscoreText s; score := score s; level := level s;
     spawnTimer := spawnTimer s; dragonSpawnTimer := dragonSpawnTimer s; dragonFireTimer
     := dragonFireTimer s; baseSpawnDelay := baseSpawnDelay s; gameActive := gameActive
     s; dragonHealth := dragonHealth s; physicsPaused := physicsPaused s;
     restartListener := restartListener s; nextId := nextId s; intervals := intervals s
     |}.

Definition set_score (v : Q) (s : RunnerScene) : RunnerScene :=
  {| player := player s; obstacles := obstacles s; dragons := dragons s; fireParticles
     := fireParticles s; particles := particles s; scoreText := scoreText s; levelText
     := levelText s; highscoreText := highscoreText s; score := v; level := level s;
     spawnTimer := spawnTimer s; dragonSpawnTimer := dragonSpawnTimer s; dragonFireTimer
     := dragonFireTimer s; baseSpawnDelay := baseSpawnDelay s; gameActive := gameActive
     s; dragonHealth := dragonHealth s; physicsPaused := physicsPaused s;
     restartListener := restartListener s; nextId := nextId s; intervals := intervals s
     |}.

Definition set_level (v : Z) (s : RunnerScene) : RunnerScene :=
  {| player := player s; obstacles := obstacles s; dragons := dragons s; fireParticles
     := fireParticles s; particles := particles s; scoreText := scoreText s; levelText
     := levelText s; highscoreText := highscoreText s; score := score s; level := v;
     spawnTimer := spawnTimer s; dragonSpawnTimer := dragonSpawnTimer s; dragonFireTimer
     := dragonFireTimer s; baseSpawnDelay := baseSpawnDelay s; gameActive := gameActive
     s; dragonHealth := dragonHealth s; physicsPaused := physicsPaused s;
     restartListener := restartListener s; nextId := nextId s; intervals := intervals s
     |}.

Definition set_spawnTimer (v : option TimerEvent) (s : RunnerScene) : RunnerScene :=
  {| player := player s; obstacles := obstacles s; dragons := dragons s; fireParticles
     := fireParticles s; particles := particles s; scoreText := scoreText s; levelText
     := levelText s; highscoreText := highscoreText s; score := score s; level := level
     s; spawnTimer := v; dragonSpawnTimer := dragonSpawnTimer s; dragonFireTimer :=
     dragonFireTimer s; baseSpawnDelay := baseSpawnDelay s; gameActive := gameActive s;
     dragonHealth := dragonHealth s; physicsPaused := physicsPaused s; restartListener
     := restartListener s; nextId := nextId s; intervals := intervals s |}.

Definition set_dragonSpawnTimer (v : option TimerEvent) (s : RunnerScene) : RunnerScene :=
  {| player := player s; obstacles := obstacles s; dragons := dragons s; fireParticles
     := fireParticles s; particles := particles s; scoreText := scoreText s; levelText
     := levelText s; highscoreText := highscoreText s; score := score s; level := level
     s; spawnTimer := spawnTimer s; dragonSpawnTimer := v; dragonFireTimer :=
     dragonFireTimer s; baseSpawnDelay := baseSpawnDelay s; gameActive := gameActive s;
     dragonHealth := dragonHealth s; physicsPaused := physicsPaused s; restartListener
     := restartListener s; nextId := nextId s; intervals := intervals s |}.

Definition set_gameActive (v : bool) (s : RunnerScene) : RunnerScene :=
  {| player := player s; obstacles := obstacles s; dragons := dragons s; fireParticles
     := fireParticles s; particles := particles s; scoreText := scoreText s; levelText
     := levelText s; highscoreText := highscoreText s; score := score s; level := level
     s; spawnTimer := spawnTimer s; dragonSpawnTimer := dragonSpawnTimer s;
     dragonFireTimer := dragonFireTimer s; baseSpawnDelay := baseSpawnDelay s;
     gameActive := v; dragonHealth := dragonHealth s; physicsPaused := physicsPaused s;
     restartListener := restartListener s; nextId := nextId s; intervals := intervals s
     |}.

Definition set_physicsPaused (v : bool) (s : RunnerScene) : RunnerScene :=
  {| player := player s; obstacles := obstacles s; dragons := dragons s; fireParticles
     := fireParticles s; particles := particles s; scoreText := scoreText s; levelText
     := levelText s; highscoreText := highscoreText s; score := score s; level := level
     s; spawnTimer := spawnTimer s; dragonSpawnTimer := dragonSpawnTimer s;
     dragonFireTimer := dragonFireTimer s; baseSpawnDelay := baseSpawnDelay s;
     gameActive := gameActive s; dragonHealth := dragonHealth s; physicsPaused := v;
     restartListener := restartListener s; nextId := nextId s; intervals := intervals s
     |}.

Definition set_restartListener (v : bool) (s : RunnerScene) : RunnerScene :=
  {| player := player s; obstacles := obstacles s; dragons := dragons s; fireParticles
     := fireParticles s; particles := particles s; scoreText := scoreText s; levelText
     := levelText s; highscoreText := highscoreText s; score := score s; level := level
     s; spawnTimer := spawnTimer s; dragonSpawnTimer := dragonSpawnTimer s;
     dragonFireTimer := dragonFireTimer s; baseSpawnDelay := baseSpawnDelay s;
     gameActive := gameActive s; dragonHealth := dragonHealth s; physicsPaused :=
     physicsPaused s; restartListener := v; nextId := nextId s; intervals := intervals s
     |}.

Definition set_nextId (v : nat) (s : RunnerScene) : RunnerScene :=
  {| player := player s; obstacles := obstacles s; dragons := dragons s; fireParticles
     := fireParticles s; particles := particles s; scoreText := scoreText s; levelText
     := levelText s; highscoreText := highscoreText s; score := score s; level := level
     s; spawnTimer := spawnTimer s; dragonSpawnTimer := dragonSpawnTimer s;
     dragonFireTimer := dragonFireTimer s; baseSpawnDelay := baseSpawnDelay s;
     gameActive := gameActive s; dragonHealth := dragonHealth s; physicsPaused :=
     physicsPaused s; restartListener := restartListener s; nextId := v; intervals :=
     intervals s |}.

Definition set_intervals (v : list FireInterval) (s : RunnerScene) : RunnerScene :=
  {| player := player s; obstacles := obstacles s; dragons := dragons s; fireParticles
     := fireParticles s; particles := particles s; scoreText := scoreText s; levelText
     := levelText s; highscoreText := highscoreText s; score := score s; level := level
     s; spawnTimer := spawnTimer s; dragonSpawnTimer := dragonSpawnTimer s;
     dragonFireTimer := dragonFireTimer s; baseSpawnDelay := baseSpawnDelay s;
     gameActive := gameActive s; dragonHealth := dragonHealth s; physicsPaused :=
     physicsPaused s; restartListener := restartListener s; nextId := nextId s;
     intervals := v |}.

(** ** The scene's code *)

(** [createDustParticles(x, y)]: six sprites at [(x, y)], each with the data
    key ["life"] set to 0.6, added to [particles]. *)
Definition dust (i : nat) (x y : Q) : Sprite :=
  {| spr_id := i; spr_x := x; spr_y := y; spr_alpha := Num 1;
     spr_data := {| d_type := None; d_health := None; d_fireTimer := None;
                    d_life := Some 0.6 |};
     spr_life := None |}.

(** One burst of dust: the six sprites of the loop, [n] the first fresh
    identity. *)
Definition burst (n : nat) (x y : Q) : list Sprite :=
  map (fun i => dust (n + i)%nat x y) (seq 0 6).

Definition createDustParticles (x y : Q) (s : RunnerScene) : RunnerScene :=
  let n := nextId s in
  set_nextId (n + 6)%nat (set_particles (particles s ++ burst n x y) s).

(** [spawnFire(dragon)]: eight sprites at the dragon's mouth, data key
    ["life"] set to 0.8, added to [fireParticles]. *)
Definition fire (i : nat) (x y : Q) : Sprite :=
  {| spr_id := i; spr_x := x; spr_y := y; spr_alpha := Num 1;
     spr_data := {| d_type := None; d_health := None; d_fireTimer := None;
                    d_life := Some 0.8 |};
     spr_life := None |}.

Definition spawnFire (dragon : Sprite) (s : RunnerScene) : RunnerScene :=
  let n := nextId s in
  set_nextId (n + 8)%nat
    (set_fireParticles
       (fireParticles s ++
        map (fun i => fire (n + i)%nat (spr_x dragon - 40) (spr_y dragon + 30)) (seq 0 8))
       s).

(** [scheduleFireBreath(dragon)]: a 300 ms [setInterval] whose closure holds
    the dragon and a counter. *)
Definition scheduleFireBreath (dragon : nat) (s : RunnerScene) : RunnerScene :=
  set_intervals (intervals s ++ [{| iv_dragon := dragon; iv_counter := 0 |}]) s.

Definition new_dragon (i : nat) : Sprite :=
  {| spr_id := i; spr_x := width + 150; spr_y := height - 40 - 80; spr_alpha := Num 1;
     spr_data := {| d_type := Some "dragon"%string; d_health := Some 3;
                    d_fireTimer := Some 0; d_life := None |};
     spr_life := None |}.

Definition spawnDragon (s : RunnerScene) : RunnerScene :=
  let n := nextId s in
  scheduleFireBreath n (set_nextId (S n) (set_dragons (dragons s ++ [new_dragon n]) s)).

Definition new_obstacle (i : nat) (type : string) (y : Q) : Sprite :=
  {| spr_id := i; spr_x := width + 80; spr_y := y; spr_alpha := Num 1;
     spr_data := {| d_type := Some type; d_health := None; d_fireTimer := None;
                    d_life := None |};
     spr_life := None |}.

Definition spawnBarrel (s : RunnerScene) : RunnerScene :=
  let n := nextId s in
  set_nextId (S n)
    (set_obstacles (obstacles s ++ [new_obstacle n "barrel" (height - 40 - 22)]) s).

Definition spawnBox (s : RunnerScene) : RunnerScene :=
  let n := nextId s in
  set_nextId (S n)
    (set_obstacles (obstacles s ++ [new_obstacle n "box" (height - 40 - 24)]) s).

(** [spawnObstacle()], the callback of [spawnTimer]; [pick] is the index
    that [RND.pick] draws from [[0, 0, 0, 1]]. *)
Definition spawnObstacle (pick : nat) (s : RunnerScene) : RunnerScene :=
  if (2 <=? level s)%Z && (0 <? length (dragons s))%nat then s
  else if (nth pick [0; 0; 0; 1] 0 =? 0)%nat then spawnBarrel s else spawnBox s.

(** The callback of [children.iterate] over obstacles and over dragons:
    [o.x -= speed * (delta / 1000)], then [destroy] when [o.x < bound];
    [None] is the destroyed sprite, which leaves its group. *)
Definition move_left (speed delta bound : Q) (o : Sprite) : option Sprite :=
  let o' := set_x (spr_x o - speed * (delta / 1000)) o in
  if Qltb (spr_x o') bound then None else Some o'.

(** The body of the iteration over [particles]: guarded by the truthiness
    of the property [life]. *)
Definition update_particle (delta : Q) (p : Sprite) : option Sprite :=
  if truthy (spr_life p) then
    let l := js_sub (to_number (spr_life p)) (Num (delta / 1000)) in
    if js_le l (Num 0) then None
    else Some (set_life_alpha l (js_max (Num 0) l) p)
  else Some p.

(** The body of the iteration over [fireParticles]: not guarded. *)
Definition update_fire (delta : Q) (f : Sprite) : option Sprite :=
  let l := js_sub (to_number (spr_life f)) (Num (delta / 1000)) in
  if js_le l (Num 0) then None
  else Some (set_life_alpha l (js_max (Num 0) (js_mul l (Num 0.7))) f).

Definition dragonTimer : TimerEvent :=
  {| te_delay := 6000; te_loop := true; te_callback := CbSpawnDragon; te_live := true |}.

(** [update(_time, delta)], [delta] in milliseconds, in the three blocks
    of its body: the score and the level (with the first dragon and the
    dragon timer at level 2), the score text, and the four iterations over
    the groups. *)
Definition tick_level (delta : Q) (s : RunnerScene) : RunnerScene :=
  let s := set_score (score s + delta * 0.01) s in
  let lvl := (Qfloor (score s / 250) + 1)%Z in
  if negb (lvl =? level s)%Z then
    let s := set_levelText lvl (set_level lvl s) in
    if (level s =? 2)%Z && negb (bool_decide (is_Some (dragonSpawnTimer s)))
    then set_dragonSpawnTimer (Some dragonTimer) (spawnDragon s)
    else s
  else s.

Definition tick_text (s : RunnerScene) : RunnerScene :=
  set_scoreText (Qfloor (score s)) s.

(** [group.children.iterate(callback)].  Phaser walks the live array of
    the group's children by index, up to the length the array had when the
    walk began.  [destroy()] takes the sprite out of its group at once, so
    the sprites behind it move one place forward: the next index then holds
    the sprite after the next one, and the last indices hold [undefined],
    which the callbacks skip ([if (!child) return true]).  [body] is the
    callback on a sprite: the sprite as the callback leaves it, or [None]
    when the callback destroys it; every callback returns [true], so the
    walk never stops early.  [len] counts the indices still to visit. *)
Fixpoint iterate_from (body : Sprite -> option Sprite) (len i : nat)
    (entries : list Sprite) : list Sprite :=
  match len with
  | O => entries
  | S len' =>
      match entries !! i with
      | None => iterate_from body len' (S i) entries
      | Some child =>
          iterate_from body len' (S i)
            (match body child with
             | Some child' => <[i := child']> entries
             | None => delete i entries
             end)
      end
  end.

Definition iterate (body : Sprite -> option Sprite) (entries : list Sprite)
  : list Sprite :=
  iterate_from body (length entries) 0 entries.

(** What such a walk comes to, on the list of the group: the sprite that
    follows a destroyed one is not visited; it stays in the group as it
    is. *)
Fixpoint sweep (body : Sprite -> option Sprite) (l : list Sprite) : list Sprite :=
  match l with
  | [] => []
  | child :: rest =>
      match body child with
      | Some child' => child' :: sweep body rest
      | None =>
          match rest with
          | [] => []
          | skipped :: rest' => skipped :: sweep body rest'
          end
      end
  end.

Definition tick_groups (delta : Q) (s : RunnerScene) : RunnerScene :=
  let s :=
    set_obstacles
      (iterate (move_left (300 + inject_Z (level s - 1) * 30) delta (-100)) (obstacles s))
      s in
  let s :=
    set_dragons
      (iterate (move_left (250 + inject_Z (level s - 1) * 20) delta (-150)) (dragons s))
      s in
  let s := set_particles (iterate (update_particle delta) (particles s)) s in
  set_fireParticles (iterate (update_fire delta) (fireParticles s)) s.

Definition update (delta : Q) (s : RunnerScene) : RunnerScene :=
  if negb (gameActive s) then s
  else tick_groups delta (tick_text (tick_level delta s)).

(** The dragons that [update] moves: those of the group, and the one it
    spawns itself on the tick that reaches level 2 for the first time. *)
Definition dragons_to_move (delta : Q) (s : RunnerScene) : list Sprite :=
  let lvl := (Qfloor ((score s + delta * 0.01) / 250) + 1)%Z in
  if negb (lvl =? level s)%Z && (lvl =? 2)%Z
     && negb (bool_decide (is_Some (dragonSpawnTimer s)))
  then dragons s ++ [new_dragon (nextId s)]
  else dragons s.

(** [damageDragon(dragon)], the overlap callback of the player with the
    group [dragons]; [dragon] is the identity of the overlapped dragon and
    [rnd 0], [rnd 1], [rnd 2] are the values the three calls of
    [Math.random()] return. *)
Definition health_of (d : Sprite) : Q :=
  match d_health (spr_data d) with
  | Some h => if Qeq_bool h 0 then 3 else h
  | None => 3
  end.

Definition is_dragon (dragon : nat) (d : Sprite) : bool := (spr_id d =? dragon)%nat.

Definition damageDragon (dragon : nat) (rnd : nat -> Q) (s : RunnerScene) : RunnerScene :=
  match find (is_dragon dragon) (dragons s) with
  | None => s
  | Some d =>
      if Qleb (vy (player s)) 0 then s
      else
        let health := health_of d in
        let newHealth := health - 1 in
        if Qleb newHealth 0 then
          let s := createDustParticles (spr_x d) (spr_y d) s in
          let s :=
            fold_left
              (fun s i => createDustParticles (spr_x d + (rnd i - 0.5) * 40) (spr_y d - 20) s)
              (seq 0 3) s in
          let s := set_score (score s + 50) s in
          set_dragons (List.filter (fun d' => negb (is_dragon dragon d')) (dragons s)) s
        else
          let s := createDustParticles (spr_x d) (spr_y d) s in
          set_dragons
            (map (fun d' =>
                    if is_dragon dragon d'
                    then set_x (spr_x d' - 30) (set_health newHealth d')
                    else d')
               (dragons s))
            s
  end.

(** The callback of a fire-breath interval, [k] its position among the
    running intervals. *)
Definition fireBreathTick (k : nat) (s : RunnerScene) : RunnerScene :=
  match intervals s !! k with
  | None => s
  | Some iv =>
      match find (is_dragon (iv_dragon iv)) (dragons s) with
      | None => set_intervals (delete k (intervals s)) s
      | Some d =>
          let c := (iv_counter iv + 1)%Z in
          let c := if (3 <=? c)%Z then 0%Z else c in
          let s := spawnFire d s in
          set_intervals
            (<[k := {| iv_dragon := iv_dragon iv; iv_counter := c |}]> (intervals s)) s
      end
  end.

(** The jump handler (space key, pointer). *)
Definition jump (s : RunnerScene) : RunnerScene :=
  if negb (gameActive s) then s
  else if blocked_down (player s) || touching_down (player s) then
    let p := player s in
    createDustParticles (p_x p) (p_y p + 32)
      (set_player {| p_x := p_x p; p_y := p_y p; vy := -520;
                     blocked_down := blocked_down p;
                     touching_down := touching_down p |} s)
  else s.

(** The stored highscore as [create] and [gameOver] read it:
    [parseInt(localStorage.getItem(key) || "0")]. *)
Definition read_highscore (ls : localStorage) : jsnum :=
  parseInt (or_default (getItem highscoreKey ls) "0").

(** [gameOver()].  The overlay texts it adds are presentation only. *)
Definition gameOver (w : RunnerScene * localStorage) : RunnerScene * localStorage :=
  let '(s, ls) := w in
  let s := set_gameActive false s in
  let s := set_spawnTimer (remove <$> spawnTimer s) s in
  let s := set_physicsPaused true s in
  let currentScore := Qfloor (score s) in
  let highscore := read_highscore ls in
  let isNewHighscore := js_gt (Num (inject_Z currentScore)) highscore in
  let ls :=
    if isNewHighscore then setItem highscoreKey (String_of_int currentScore) ls else ls in
  (set_restartListener true s, ls).

(** ** The life cycle of the scene

    Phaser constructs the scene class once.  The field initialisers of the
    class run then, and only then. *)
Definition new_RunnerScene : RunnerScene :=
  {| player := {| p_x := 0; p_y := 0; vy := 0; blocked_down := false;
                  touching_down := false |};
     obstacles := []; dragons := []; fireParticles := []; particles := [];
     scoreText := 0; levelText := 1; highscoreText := Num 0;
     score := 0; level := 1;
     spawnTimer := None; dragonSpawnTimer := None; dragonFireTimer := None;
     baseSpawnDelay := 1200; gameActive := true; dragonHealth := 0;
     physicsPaused := false; restartListener := false; nextId := 0%nat;
     intervals := [] |}.

(** [create()]: the fields it assigns are the player, the four groups, the
    three texts and [spawnTimer]; every other field keeps its value. *)
Definition create (ls : localStorage) (s : RunnerScene) : RunnerScene :=
  {| player := {| p_x := 120; p_y := height - 120; vy := 0; blocked_down := false;
                  touching_down := false |};
     obstacles := []; dragons := []; fireParticles := []; particles := [];
     scoreText := 0; levelText := 1; highscoreText := read_highscore ls;
     score := score s; level := level s;
     spawnTimer :=
       Some {| te_delay := baseSpawnDelay s; te_loop := true;
               te_callback := CbSpawnObstacle; te_live := true |};
     dragonSpawnTimer := dragonSpawnTimer s; dragonFireTimer := dragonFireTimer s;
     baseSpawnDelay := baseSpawnDelay s; gameActive := gameActive s;
     dragonHealth := dragonHealth s;
     physicsPaused := physicsPaused s; restartListener := restartListener s;
     nextId := nextId s; intervals := intervals s |}.

(** What Phaser does to a scene it shuts down: the game objects are
    destroyed, the clock drops its timer events, the keyboard listeners are
    removed and the physics world is discarded (the next one starts
    running).  The fields of the instance are not touched, and the browser's
    intervals keep running. *)
Definition shutdown (s : RunnerScene) : RunnerScene :=
  {| player := player s;
     obstacles := []; dragons := []; fireParticles := []; particles := [];
     scoreText := scoreText s; levelText := levelText s;
     highscoreText := highscoreText s;
     score := score s; level := level s;
     spawnTimer := remove <$> spawnTimer s;
     dragonSpawnTimer := remove <$> dragonSpawnTimer s;
     dragonFireTimer := remove <$> dragonFireTimer s;
     baseSpawnDelay := baseSpawnDelay s; gameActive := gameActive s;
     dragonHealth := dragonHealth s;
     physicsPaused := false; restartListener := false;
     nextId := nextId s; intervals := intervals s |}.

(** The first start of the game, and [this.scene.restart()]: shutdown, then
    [create()] again on the same instance. *)
Definition start (ls : localStorage) : RunnerScene := create ls new_RunnerScene.

Definition restart (ls : localStorage) (s : RunnerScene) : RunnerScene :=
  create ls (shutdown s).

(** The R key: the once-listener that [gameOver] registered, if any. *)
Definition keydown_R (ls : localStorage) (s : RunnerScene) : RunnerScene :=
  if restartListener s then restart ls s else s.

(** ** The running scene as a transition system

    The scene and the browser's store, and what Phaser and the browser call
    on them: [update] on every frame; the callback of a timer event of the
    scene's clock, as long as the event has not been removed; the callback
    of a fire-breath interval; the jump handler; the three overlap
    callbacks; the R key.  The arcade physics engine moves the player
    between frames: a step of it replaces the player's body by an arbitrary
    one.  Which sprites overlap is decided by the engine too, so an overlap
    callback is taken to be callable in every state. *)

Inductive Event : Type :=
| Update (delta : Q)
| PhysicsStep (body : Player)
| SpawnTimerFires (pick : nat)
| DragonTimerFires
| FireIntervalFires (k : nat)
| JumpPressed
| ObstacleOverlap
| DragonOverlap (dragon : nat) (rnd : nat -> Q)
| FireOverlap
| KeyR.

Definition fires (t : option TimerEvent) : bool :=
  match t with Some t => te_live t | None => false end.

Definition step (e : Event) (w : RunnerScene * localStorage)
  : RunnerScene * localStorage :=
  match e with
  | Update delta => (update delta (fst w), snd w)
  | PhysicsStep body => (set_player body (fst w), snd w)
  | SpawnTimerFires pick =>
      if fires (spawnTimer (fst w)) then (spawnObstacle pick (fst w), snd w) else w
  | DragonTimerFires =>
      if fires (dragonSpawnTimer (fst w)) then (spawnDragon (fst w), snd w) else w
  | FireIntervalFires k => (fireBreathTick k (fst w), snd w)
  | JumpPressed => (jump (fst w), snd w)
  | ObstacleOverlap => gameOver w
  | DragonOverlap dragon rnd => (damageDragon dragon rnd (fst w), snd w)
  | FireOverlap => gameOver w
  | KeyR => (keydown_R (snd w) (fst w), snd w)
  end.

Definition run (tr : list Event) (w : RunnerScene * localStorage)
  : RunnerScene * localStorage :=
  fold_left (fun w e => step e w) tr w.

(** The game as the page loads it over the store [ls]. *)
Definition boot (ls : localStorage) : RunnerScene * localStorage := (start ls, ls).

(** Frames whose [delta] is not negative, and the events other than the R
    key. *)
Definition forward (e : Event) : bool :=
  match e with Update delta => Qleb 0 delta | _ => true end.

Definition keeps_scene (e : Event) : bool :=
  match e with KeyR => false | _ => true end.

(** The updates of a run of frames, one after the other. *)
Definition updates (deltas : list Q) (s : RunnerScene) : RunnerScene :=
  fold_left (fun s delta => update delta s) deltas s.

(** Two properties of the scenes of a run.  [unlit]: no dust particle has
    the property [life], and a fire particle has none or has [NaN] in it.
    [on_track]: the score is not negative, the level is at least 1, every
    obstacle lies between the left bound and the spawn position, and every
    dragon lies no further right than its spawn position and has 1, 2 or 3
    as its health. *)
Definition unlit (s : RunnerScene) : Prop :=
  Forall (fun p => spr_life p = None) (particles s) /\
  Forall (fun f => spr_life f = None \/ spr_life f = Some NaN) (fireParticles s).

Definition sound_health (d : Sprite) : Prop :=
  exists h, d_health (spr_data d) = Some h /\ (h == 1 \/ h == 2 \/ h == 3).

Definition on_track (s : RunnerScene) : Prop :=
  0 <= score s /\ (1 <= level s)%Z /\
  Forall (fun o => -100 <= spr_x o /\ spr_x o <= 980) (obstacles s) /\
  Forall (fun d => spr_x d <= 1050 /\ sound_health d) (dragons s).

(** A scene whose score, floored, is a safe integer, one that a double
    holds exactly: at most 2^53 - 1 in absolute value. *)
Definition safe (s : RunnerScene) : Prop :=
  (Z.abs (Qfloor (score s)) <= MAX_SAFE_INTEGER)%Z.

(** A group that has only grown: [l'] is [l] with sprites appended, each
    satisfying [P]. *)
Definition grows (P : Sprite -> Prop) (l l' : list Sprite) : Prop :=
  exists k, l' = l ++ k /\ Forall P k.

End Runner.

(** * The component [PhaserGame]

    The effect of the component creates the Phaser game, unless the
    container is missing or a game exists already, and its cleanup calls
    [destroy(true)] on the game and clears the ref.  [destroy] only flags
    the game: Phaser destroys a flagged game at the next step of its
    loop. *)

Module PhaserGame.

(** A Phaser game that exists, named by the order of its creation, and
    whether [destroy] was called on it. *)
Record Game : Type := { game_id : nat; pendingDestroy : bool }.

(** [containerRef] (whether the element is attached), [gameRef], and the
    Phaser games that exist. *)
Record Component : Type := {
  containerRef : bool;
  gameRef : option nat;
  games : list Game;
  created : nat
}.

(** [game.destroy(true)]. *)
Definition destroy (g : nat) (l : list Game) : list Game :=
  map (fun x => if (game_id x =? g)%nat
                then {| game_id := game_id x; pendingDestroy := true |} else x) l.

(** The body of the effect. *)
Definition effect (c : Component) : Component :=
  if negb (containerRef c) then c
  else
    match gameRef c with
    | Some _ => c
    | None =>
        {| containerRef := containerRef c; gameRef := Some (created c);
           games := games c ++ [{| game_id := created c; pendingDestroy := false |}];
           created := S (created c) |}
    end.

(** The cleanup the effect returns: [gameRef.current?.destroy(true)], then
    [gameRef.current = null]. *)
Definition cleanup (c : Component) : Component :=
  {| containerRef := containerRef c; gameRef := None;
     games := match gameRef c with
              | Some g => destroy g (games c)
              | None => games c
              end;
     created := created c |}.

(** A step of the loop of game [g]: a flagged game is destroyed. *)
Definition gameStep (g : nat) (c : Component) : Component :=
  {| containerRef := containerRef c; gameRef := gameRef c;
     games := List.filter (fun x => negb ((game_id x =? g)%nat && pendingDestroy x))
                (games c);
     created := created c |}.

(** React runs the effect and its cleanup (in development, the effect,
    the cleanup and the effect again), and each game steps on its own. *)
Inductive Event : Type := Effect | Cleanup | GameStep (g : nat).

Definition step (e : Event) (c : Component) : Component :=
  match e with
  | Effect => effect c
  | Cleanup => cleanup c
  | GameStep g => gameStep g c
  end.

Definition run (tr : list Event) (c : Component) : Component :=
  fold_left (fun c e => step e c) tr c.

(** The component before its first effect. *)
Definition rendered (container : bool) : Component :=
  {| containerRef := container; gameRef := None; games := []; created := 0%nat |}.

(** The games on which [destroy] was not called. *)
Definition running (c : Component) : list Game :=
  List.filter (fun x => negb (pendingDestroy x)) (games c).

(** What holds of the games in every state: each was created by the
    component, no two are the same game, and the game [gameRef] holds exists
    and is the only one on which [destroy] was not called. *)
Definition tidy (c : Component) : Prop :=
  NoDup (map game_id (games c)) /\
  Forall (fun x => (game_id x < created c)%nat) (games c) /\
  Forall (fun x => pendingDestroy x = false <-> gameRef c = Some (game_id x)) (games c) /\
  (forall g, gameRef c = Some g -> In g (map game_id (games c))).

End PhaserGame.

(** * The traffic-light cycle

    Both driving games carry the same text: the constant [LIGHT_DURATIONS],
    [setLight], the effect that runs the asynchronous [cycle] and the 100 ms
    poll of the time left.  Times are [Date.now()] readings in milliseconds. *)

Module Light.

Local Open Scope Z_scope.

Inductive LightState : Type := green | yellow | red.

#[global] Instance LightState_eq_dec : EqDecision LightState.
Proof. solve_decision. Defined.

Definition LIGHT_DURATIONS (st : LightState) : Z :=
  match st with green => 6000 | yellow => 1500 | red => 5000 end.

(** The light as the component holds it.  [awaiting] is the suspended
    [cycle]: the time at which the timeout it awaits is due, and the state
    it set before suspending; [None] once the loop has been left. *)
Record LightCycle : Type := {
  lightState : LightState;
  lightStart : Z;
  lightDuration : Z;
  lightTimeLeft : Z;
  mounted : bool;
  awaiting : option (Z * LightState)
}.

(** [setLight(state)] at time [now]. *)
Definition setLight (now : Z) (st : LightState) (c : LightCycle) : LightCycle :=
  {| lightState := st; lightStart := now; lightDuration := LIGHT_DURATIONS st;
     lightTimeLeft := lightTimeLeft c; mounted := mounted c; awaiting := awaiting c |}.

(** [await new Promise(r => setTimeout(r, LIGHT_DURATIONS[st]))]. *)
Definition await (now : Z) (st : LightState) (c : LightCycle) : LightCycle :=
  {| lightState := lightState c; lightStart := lightStart c;
     lightDuration := lightDuration c; lightTimeLeft := lightTimeLeft c;
     mounted := mounted c; awaiting := Some (now + LIGHT_DURATIONS st, st) |}.

(** One arm of the loop: [setLight(st)] followed by the await. *)
Definition enter (now : Z) (st : LightState) (c : LightCycle) : LightCycle :=
  await now st (setLight now st c).

(** The state the loop sets after the one it has just waited for. *)
Definition next (st : LightState) : LightState :=
  match st with green => yellow | yellow => red | red => green end.

(** The component at mount: the initial values of the hooks, then the
    effect calls [cycle()], which runs up to its first await. *)
Definition mount (now : Z) : LightCycle :=
  enter now green
    {| lightState := green; lightStart := now; lightDuration := LIGHT_DURATIONS green;
       lightTimeLeft := LIGHT_DURATIONS green; mounted := true; awaiting := None |}.

(** The awaited timeout fires at time [now] (never before it is due) and the
    loop goes on: it leaves when [mounted] is false ([if (!mounted) break],
    [while (mounted)]), and otherwise sets the next state and waits again. *)
Definition resume (now : Z) (c : LightCycle) : LightCycle :=
  match awaiting c with
  | Some (due, st) =>
      if now <? due then c
      else if mounted c then enter now (next st) c
      else {| lightState := lightState c; lightStart := lightStart c;
              lightDuration := lightDuration c; lightTimeLeft := lightTimeLeft c;
              mounted := mounted c; awaiting := None |}
  | None => c
  end.

(** The 100 ms interval, cleared at unmount. *)
Definition poll (now : Z) (c : LightCycle) : LightCycle :=
  if mounted c then
    {| lightState := lightState c; lightStart := lightStart c;
       lightDuration := lightDuration c;
       lightTimeLeft := Z.max 0 (lightDuration c - (now - lightStart c));
       mounted := mounted c; awaiting := awaiting c |}
  else c.

(** The cleanup of the two effects. *)
Definition unmount (c : LightCycle) : LightCycle :=
  {| lightState := lightState c; lightStart := lightStart c;
     lightDuration := lightDuration c; lightTimeLeft := lightTimeLeft c;
     mounted := false; awaiting := awaiting c |}.

(** The cycle under a punctual timer: each timeout fires exactly when due. *)
Definition punctual (c : LightCycle) : LightCycle :=
  match awaiting c with
  | Some (due, _) => resume due c
  | None => c
  end.

(** The [n]-th state of the sequence green, yellow, red, green, ... and the
    time from the start of the cycle to the start of its [n]-th state. *)
Definition phase (n : nat) : LightState :=
  match (n mod 3)%nat with
  | 0%nat => green
  | 1%nat => yellow
  | _ => red
  end.

Fixpoint elapsed (n : nat) : Z :=
  match n with
  | O => 0
  | S k => elapsed k + LIGHT_DURATIONS (phase k)
  end.

(** A running cycle: mounted, showing a state with its own duration, and
    suspended on the timeout that ends that state's dwell. *)
Definition running (c : LightCycle) : Prop :=
  mounted c = true /\
  lightDuration c = LIGHT_DURATIONS (lightState c) /\
  awaiting c = Some (lightStart c + LIGHT_DURATIONS (lightState c), lightState c).


(** The progress bar of the HUD:
    [Math.min(1, (lightDurationRef.current - lightTimeLeft) / lightDurationRef.current)].
    The duration is one of the three constants, never zero. *)
Definition lightProgress (c : LightCycle) : Q :=
  let p := (inject_Z (lightDuration c - lightTimeLeft c) / inject_Z (lightDuration c))%Q in
  if Qltb p 1 then p else 1%Q.

(** The cycle under a timer that fires the awaited timeout [late]
    milliseconds after it is due. *)
Definition delayed (late : Z) (c : LightCycle) : LightCycle :=
  match awaiting c with
  | Some (due, _) => resume (due + late) c
  | None => c
  end.

(** A timer event of the light after the component is gone: the awaited
    timeout ([true]) or a tick of the poll ([false]), at a time. *)
Definition timer (c : LightCycle) (e : Z * bool) : LightCycle :=
  if snd e then resume (fst e) c else poll (fst e) c.

End Light.

(** [a < b] on the numbers of the driving games. *)
Definition Rltb (a b : R) : bool := if Rlt_dec a b then true else false.

(** [Math.round(x)]: the integer nearest to [x], a half rounded up. *)
Definition Math_round (x : R) : Z := Zfloor (x + 0.5).

(** The status of a round, shared by both driving games. *)
Inductive Status : Type := playing | passed | failed.

#[global] Instance Status_eq_dec : EqDecision Status.
Proof. solve_decision. Defined.

Definition terminal (st : Status) : bool :=
  match st with playing => false | passed | failed => true end.

(** The keys held down ([window._trafficKeys]). *)
Record Keys : Type := {
  ArrowUp : bool;
  ArrowDown : bool;
  ArrowLeft : bool;
  ArrowRight : bool
}.

Definition no_keys : Keys :=
  {| ArrowUp := false; ArrowDown := false; ArrowLeft := false; ArrowRight := false |}.

Definition is_arrow (key : string) : bool :=
  bool_decide (key ∈ ["ArrowUp"; "ArrowDown"; "ArrowLeft"; "ArrowRight"]%string).

(** [keys[key] = v] for one of the four arrow keys. *)
Definition set_key (key : string) (v : bool) (k : Keys) : Keys :=
  {| ArrowUp := if String.eqb key "ArrowUp" then v else ArrowUp k;
     ArrowDown := if String.eqb key "ArrowDown" then v else ArrowDown k;
     ArrowLeft := if String.eqb key "ArrowLeft" then v else ArrowLeft k;
     ArrowRight := if String.eqb key "ArrowRight" then v else ArrowRight k |}.

(** [e.key.toLowerCase() === "p"]. *)
Definition is_p (key : string) : bool :=
  String.eqb key "p" || String.eqb key "P".

(** * The driving game with kinematic physics *)

Module Kinematic.

Import Light.
Local Open Scope R_scope.

(** The car's [THREE.Group]: position, rotation, and the property
    [__physics] that [reset] looks for on it. *)
Record Physics : Type := { vx : R; vz : R; angle : R }.

Record Group : Type := {
  pos_x : R; pos_y : R; pos_z : R;
  rot_x : R; rot_y : R; rot_z : R;
  __physics : option Physics
}.

(** The component [TrafficGame] and its child [Car]: [carRef], the [physics]
    ref of [Car], [stoppedRef.current.crossed], the light, the state hooks,
    the held keys, and the time at which the pending timeout of the
    auto-reset effect is due, if one is pending.  The score counts
    crossings and is an integer. *)
Record Game : Type := {
  carRef : option Group;
  physics : Physics;
  crossed : bool;
  light : LightCycle;
  status : Status;
  score : Z;
  showInstructions : bool;
  speed : R;
  paused : bool;
  keys : Keys;
  resetTimer : option Z
}.

Definition set_carRef (v : option Group) (g : Game) : Game :=
  {| carRef := v; physics := physics g; crossed := crossed g; light := light g;
     status := status g; score := score g; showInstructions := showInstructions g;
     speed := speed g; paused := paused g; keys := keys g; resetTimer := resetTimer g |}.

Definition set_physics (v : Physics) (g : Game) : Game :=
  {| carRef := carRef g; physics := v; crossed := crossed g; light := light g;
     status := status g; score := score g; showInstructions := showInstructions g;
     speed := speed g; paused := paused g; keys := keys g; resetTimer := resetTimer g |}.

Definition set_crossed (v : bool) (g : Game) : Game :=
  {| carRef := carRef g; physics := physics g; crossed := v; light := light g;
     status := status g; score := score g; showInstructions := showInstructions g;
     speed := speed g; paused := paused g; keys := keys g; resetTimer := resetTimer g |}.

Definition set_light (v : LightCycle) (g : Game) : Game :=
  {| carRef := carRef g; physics := physics g; crossed := crossed g; light := v;
     status := status g; score := score g; showInstructions := showInstructions g;
     speed := speed g; paused := paused g; keys := keys g; resetTimer := resetTimer g |}.

Definition setScore (f : Z -> Z) (g : Game) : Game :=
  {| carRef := carRef g; physics := physics g; crossed := crossed g; light := light g;
     status := status g; score := f (score g); showInstructions := showInstructions g;
     speed := speed g; paused := paused g; keys := keys g; resetTimer := resetTimer g |}.

Definition setShowInstructions (v : bool) (g : Game) : Game :=
  {| carRef := carRef g; physics := physics g; crossed := crossed g; light := light g;
     status := status g; score := score g; showInstructions := v;
     speed := speed g; paused := paused g; keys := keys g; resetTimer := resetTimer g |}.

Definition setSpeed (v : R) (g : Game) : Game :=
  {| carRef := carRef g; physics := physics g; crossed := crossed g; light := light g;
     status := status g; score := score g; showInstructions := showInstructions g;
     speed := v; paused := paused g; keys := keys g; resetTimer := resetTimer g |}.

Definition setPaused (f : bool -> bool) (g : Game) : Game :=
  {| carRef := carRef g; physics := physics g; crossed := crossed g; light := light g;
     status := status g; score := score g; showInstructions := showInstructions g;
     speed := speed g; paused := f (paused g); keys := keys g;
     resetTimer := resetTimer g |}.

Definition set_keys (v : Keys) (g : Game) : Game :=
  {| carRef := carRef g; physics := physics g; crossed := crossed g; light := light g;
     status := status g; score := score g; showInstructions := showInstructions g;
     speed := speed g; paused := paused g; keys := v; resetTimer := resetTimer g |}.

(** [setStatus(st)] at time [now], together with the effect that depends on
    [status]: setting the value the state already has changes nothing;
    a change runs the cleanup of the effect (the pending timeout, if any,
    is cleared) and then the effect, which sets a timeout of 4000 ms when
    the new status is [passed] or [failed]. *)
Definition setStatus (now : Z) (st : Status) (g : Game) : Game :=
  if decide (st = status g) then g
  else
    {| carRef := carRef g; physics := physics g; crossed := crossed g; light := light g;
       status := st; score := score g; showInstructions := showInstructions g;
       speed := speed g; paused := paused g; keys := keys g;
       resetTimer := if terminal st then Some (now + 4000)%Z else None |}.

(** ** Game logic *)

Definition onCrossStopLine (now : Z) (g : Game) : Game :=
  if decide (lightState (light g) = red) then setStatus now failed g
  else setStatus now passed (setScore (fun s => (s + 1)%Z) g).

Definition onBarrierHit (now : Z) (g : Game) : Game :=
  if decide (status g = playing) then setStatus now failed g else g.

Definition spawn (m : Group) : Group :=
  {| pos_x := 0; pos_y := 0.3; pos_z := 18; rot_x := 0; rot_y := 0; rot_z := 0;
     __physics := __physics m |}.

Definition zero : Physics := {| vx := 0; vz := 0; angle := 0 |}.

(** [reset()].  Its last statement zeroes [el.__physics], a property of the
    group; the velocity that [Car] integrates is the [physics] ref. *)
Definition reset (now : Z) (g : Game) : Game :=
  let g := set_crossed false g in
  let g := setStatus now playing g in
  let g := match carRef g with
           | Some m => set_carRef (Some (spawn m)) g
           | None => g
           end in
  match carRef g with
  | Some m =>
      match __physics m with
      | Some _ =>
          set_carRef
            (Some {| pos_x := pos_x m; pos_y := pos_y m; pos_z := pos_z m;
                     rot_x := rot_x m; rot_y := rot_y m; rot_z := rot_z m;
                     __physics := Some zero |}) g
      | None => g
      end
  | None => g
  end.

(** The group after [reset]: at the spawn pose, and its [__physics], had it
    one, zeroed. *)
Definition respawn (m : Group) : Group :=
  {| pos_x := 0; pos_y := 0.3; pos_z := 18; rot_x := 0; rot_y := 0; rot_z := 0;
     __physics := (fun _ => zero) <$> __physics m |}.

(** ** The frame callback of [Car] *)

Definition b2r (b : bool) : R := if b then 1 else 0.

(** Steering: [p.angle] after the first block. *)
Definition steer (k : Keys) (d : R) (p : Physics) : R :=
  let speed := sqrt (vx p * vx p + vz p * vz p) in
  if Rltb 0.2 speed
  then angle p + (b2r (ArrowLeft k) - b2r (ArrowRight k)) * Rmin (speed * 0.4) 1.4 * d
  else angle p.

(** Throttle, brake or coast: [(p.vx, p.vz)] after the second block, for
    the heading [a]. *)
Definition drive (k : Keys) (d a : R) (p : Physics) : R * R :=
  let fx := - sin a in
  let fz := - cos a in
  if ArrowUp k then (vx p + fx * 18 * d, vz p + fz * 18 * d)
  else if ArrowDown k then (vx p * Rmax 0 (1 - 12 * d), vz p * Rmax 0 (1 - 12 * d))
  else (vx p * Rmax 0 (1 - 3 * d), vz p * Rmax 0 (1 - 3 * d)).

(** The speed cap. *)
Definition cap (v : R * R) : R * R :=
  let spd := sqrt (fst v * fst v + snd v * snd v) in
  if Rltb 14 spd then (fst v / spd * 14, snd v / spd * 14) else v.

Definition place (nx nz a : R) (m : Group) : Group :=
  {| pos_x := nx; pos_y := pos_y m; pos_z := nz;
     rot_x := rot_x m; rot_y := a; rot_z := rot_z m; __physics := __physics m |}.

Definition useFrame (now : Z) (delta : R) (g : Game) : Game :=
  match carRef g with
  | None => g
  | Some mesh =>
      if paused g then g
      else
        let p := physics g in
        let d := Rmin delta 0.05 in
        let a := steer (keys g) d p in
        let v1 := drive (keys g) d a p in
        let spd := sqrt (fst v1 * fst v1 + snd v1 * snd v1) in
        let v := cap v1 in
        let nx := pos_x mesh + fst v * d in
        let nz := pos_z mesh + snd v * d in
        if Rltb 4.5 (Rabs nx) then
          set_physics {| vx := 0; vz := 0; angle := a |} (onBarrierHit now g)
        else
          let g := set_physics {| vx := fst v; vz := snd v; angle := a |} g in
          let g := set_carRef (Some (place nx nz a mesh)) g in
          let g := setSpeed spd g in
          if negb (crossed g) && Rltb nz 0
          then onCrossStopLine now (set_crossed true g)
          else g
  end.

(** The values a frame computes before it looks at the barrier: the capped
    [delta], the heading, the velocity and the position it would move to. *)
Definition frame_d (delta : R) : R := Rmin delta 0.05.

Definition frame_angle (delta : R) (g : Game) : R :=
  steer (keys g) (frame_d delta) (physics g).

Definition frame_v (delta : R) (g : Game) : R * R :=
  cap (drive (keys g) (frame_d delta) (frame_angle delta g) (physics g)).

Definition frame_nx (delta : R) (g : Game) (mesh : Group) : R :=
  pos_x mesh + fst (frame_v delta g) * frame_d delta.

Definition frame_nz (delta : R) (g : Game) (mesh : Group) : R :=
  pos_z mesh + snd (frame_v delta g) * frame_d delta.

(** The scalar speed of a velocity. *)
Definition magnitude (v : R * R) : R := sqrt (fst v * fst v + snd v * snd v).

(** ** The mounted component as a transition system *)

Inductive Event : Type :=
| Frame (delta : R)
| KeyDown (key : string)
| KeyUp (key : string)
| ClickReset
| LightTimeout
| ProgressPoll
| AutoResetTimeout.

Definition keydown (key : string) (g : Game) : Game :=
  if is_arrow key then setShowInstructions false (set_keys (set_key key true (keys g)) g)
  else if is_p key then setPaused negb g
  else g.

Definition keyup (key : string) (g : Game) : Game :=
  if is_arrow key then set_keys (set_key key false (keys g)) g else g.

(** The timeout of the auto-reset effect calls [reset()]; it cannot fire
    before it is due, nor once cleared. *)
Definition autoReset (now : Z) (g : Game) : Game :=
  match resetTimer g with
  | Some due => if (now <? due)%Z then g else reset now g
  | None => g
  end.

(** The handling of event [e] at time [now]. *)
Definition step (now : Z) (e : Event) (g : Game) : Game :=
  match e with
  | Frame delta => useFrame now delta g
  | KeyDown key => keydown key g
  | KeyUp key => keyup key g
  | ClickReset => reset now g
  | LightTimeout => set_light (resume now (light g)) g
  | ProgressPoll => set_light (poll now (light g)) g
  | AutoResetTimeout => autoReset now g
  end.

Definition run (tr : list (Z * Event)) (g : Game) : Game :=
  fold_left (fun g te => step (fst te) (snd te) g) tr g.

(** What an event does to the light, and the events that toggle pause. *)
Definition light_step (now : Z) (e : Event) (c : LightCycle) : LightCycle :=
  match e with
  | LightTimeout => resume now c
  | ProgressPoll => poll now c
  | _ => c
  end.

Definition toggles_pause (e : Event) : bool :=
  match e with
  | KeyDown key => negb (is_arrow key) && is_p key
  | _ => false
  end.

Definition without_pause (tr : list (Z * Event)) : list (Z * Event) :=
  List.filter (fun te => negb (toggles_pause (snd te))) tr.

(** The events that call [reset()]. *)
Definition resets (e : Event) : bool :=
  match e with
  | ClickReset | AutoResetTimeout => true
  | _ => false
  end.

(** The game as mounted at time [now]. *)
Definition init (now : Z) : Game :=
  {| carRef := Some {| pos_x := 0; pos_y := 0.3; pos_z := 18;
                       rot_x := 0; rot_y := 0; rot_z := 0; __physics := None |};
     physics := zero; crossed := false; light := mount now;
     status := playing; score := 0%Z; showInstructions := true; speed := 0;
     paused := false; keys := no_keys; resetTimer := None |}.

(** Four properties of the states of a mounted game: the car is within the
    barriers; a car beyond the stop line has been flagged; a flagged round
    is no longer [playing]; and the auto-reset timeout is pending exactly
    when the round is [passed] or [failed]. *)
Definition within_barriers (g : Game) : Prop :=
  forall m, carRef g = Some m -> Rabs (pos_x m) <= 4.5.

Definition flagged (g : Game) : Prop :=
  forall m, carRef g = Some m -> pos_z m < 0 -> crossed g = true.

Definition resolved (g : Game) : Prop :=
  crossed g = true -> status g <> playing.

Definition timer_matches_status (g : Game) : Prop :=
  resetTimer g = None <-> status g = playing.

(** States for examples.  [drifting]: the car 0.1 short of the right
    barrier and 0.04 short of the stop line, sliding sideways at 10 units/s
    with no key held, in a game mounted at time 0 (the light is green).
    [stopped]: the same car after the frame that runs it into the barrier.
    [restarting]: the driver then holds the throttle. *)
Definition drifting_mesh : Group :=
  {| pos_x := 4.4; pos_y := 0.3; pos_z := 0.04;
     rot_x := 0; rot_y := 0; rot_z := 0; __physics := None |}.

Definition drifting : Game :=
  set_physics {| vx := 10; vz := 0; angle := 0 |}
    (set_carRef (Some drifting_mesh) (init 0)).

Definition stopped : Game :=
  {| carRef := Some drifting_mesh; physics := zero; crossed := false;
     light := mount 0; status := failed; score := 0%Z; showInstructions := true;
     speed := 0; paused := false; keys := no_keys; resetTimer := Some 4000%Z |}.

Definition restarting : Game :=
  {| carRef := Some drifting_mesh; physics := zero; crossed := false;
     light := mount 0; status := failed; score := 0%Z; showInstructions := false;
     speed := 0; paused := false;
     keys := {| ArrowUp := true; ArrowDown := false; ArrowLeft := false;
                ArrowRight := false |};
     resetTimer := Some 4000%Z |}.

(** [over_the_line]: the car of [restarting] after the frame that takes it
    over the stop line on green, 20 ms after the mount.  [sliding_on]: a
    car that has passed the line on green and slides on towards the
    barrier as [drifting] does. *)
Definition over_the_line : Game :=
  {| carRef := Some (place 4.4 (-0.005) 0 drifting_mesh);
     physics := {| vx := 0; vz := -0.9; angle := 0 |}; crossed := true;
     light := mount 0; status := passed; score := 1%Z; showInstructions := false;
     speed := 0.9; paused := false;
     keys := {| ArrowUp := true; ArrowDown := false; ArrowLeft := false;
                ArrowRight := false |};
     resetTimer := Some 4020%Z |}.

Definition sliding_on : Game :=
  {| carRef := Some drifting_mesh; physics := {| vx := 10; vz := 0; angle := 0 |};
     crossed := true; light := mount 0; status := passed; score := 1%Z;
     showInstructions := true; speed := 0; paused := false; keys := no_keys;
     resetTimer := Some 4000%Z |}.


(** ** The HUD *)

(** [speedKmh], the number the speedometer shows. *)
Definition speedKmh (g : Game) : Z := Math_round (speed g * 3.6 * 4).

(** ** The follow camera

    [ThirdPersonCamera]: on every frame the camera's position moves a tenth
    of the way to the point 8 behind the car and 3.5 above it.  [lookAt]
    then turns the camera towards the car; the orientation of the camera is
    not part of the model. *)

Record Vector3 : Type := { vec_x : R; vec_y : R; vec_z : R }.

Definition add (a v : Vector3) : Vector3 :=
  {| vec_x := vec_x a + vec_x v; vec_y := vec_y a + vec_y v; vec_z := vec_z a + vec_z v |}.

(** [a.lerp(v, alpha)]. *)
Definition lerp (a v : Vector3) (alpha : R) : Vector3 :=
  {| vec_x := vec_x a + (vec_x v - vec_x a) * alpha;
     vec_y := vec_y a + (vec_y v - vec_y a) * alpha;
     vec_z := vec_z a + (vec_z v - vec_z a) * alpha |}.

(** The point the camera is drawn to. *)
Definition desired (m : Group) : Vector3 :=
  let pos := {| vec_x := pos_x m; vec_y := pos_y m; vec_z := pos_z m |} in
  let angle := rot_y m in
  let offset := {| vec_x := sin angle * 8; vec_y := 3.5; vec_z := cos angle * 8 |} in
  add pos offset.

(** The frame callback of [ThirdPersonCamera], on the camera's position. *)
Definition ThirdPersonCamera (car : option Group) (camera : Vector3) : Vector3 :=
  match car with
  | None => camera
  | Some m => lerp camera (desired m) 0.1
  end.

(** ** Runs *)

(** Frames whose [delta] is not negative; the key that opens the
    throttle. *)
Definition forward (e : Event) : Prop :=
  match e with Frame delta => 0 <= delta | _ => True end.

Definition throttle (e : Event) : bool :=
  match e with KeyDown key => String.eqb key "ArrowUp" | _ => false end.

(** The state of a car that has not been driven yet. *)
Definition parked (g : Game) : Prop :=
  carRef g = Some {| pos_x := 0; pos_y := 0.3; pos_z := 18;
                     rot_x := 0; rot_y := 0; rot_z := 0; __physics := None |} /\
  physics g = zero /\ speed g = 0 /\ ArrowUp (keys g) = false /\
  status g = playing /\ score g = 0%Z /\ crossed g = false /\ resetTimer g = None.

End Kinematic.

(** * The driving game with a rigid-body engine ([TrafficGame.tsx])

    The car is a dynamic rigid body of the physics engine.  How the engine
    moves the body is not part of the repository, so the body changing
    between two frames is an event that replaces the state of the body by an
    arbitrary one.  The effect of [Car] that moves the body to its
    [position] prop when that prop changes is such a change of the body
    too. *)

Module RigidBody.

Import Light.
Local Open Scope R_scope.

Record Vec3 : Type := { v_x : R; v_y : R; v_z : R }.

Definition origin : Vec3 := {| v_x := 0; v_y := 0; v_z := 0 |}.

Record Quat : Type := { q_x : R; q_y : R; q_z : R; q_w : R }.

(** The rigid body behind [carBodyRef]. *)
Record Body : Type := {
  translation : Vec3;
  rotation : Quat;
  linvel : Vec3;
  angvel : Vec3
}.

Definition setTranslation (v : Vec3) (b : Body) : Body :=
  {| translation := v; rotation := rotation b; linvel := linvel b; angvel := angvel b |}.

Definition setLinvel (v : Vec3) (b : Body) : Body :=
  {| translation := translation b; rotation := rotation b; linvel := v;
     angvel := angvel b |}.

Definition setAngvel (v : Vec3) (b : Body) : Body :=
  {| translation := translation b; rotation := rotation b; linvel := linvel b;
     angvel := v |}.

(** A hit effect: where and when a barrier was hit. *)
Record Hit : Type := { hit_id : Z; hit_pos : Vec3; hit_t : Z }.

Record Game : Type := {
  carBodyRef : option Body;
  crossed : bool;
  light : LightCycle;
  status : Status;
  score : Z;
  showInstructions : bool;
  speed : R;
  paused : bool;
  hits : list Hit;
  savedVelRef : option (Vec3 * Vec3);
  keys : Keys;
  resetTimer : option Z
}.

Definition set_carBodyRef (v : option Body) (g : Game) : Game :=
  {| carBodyRef := v; crossed := crossed g; light := light g; status := status g;
     score := score g; showInstructions := showInstructions g; speed := speed g;
     paused := paused g; hits := hits g; savedVelRef := savedVelRef g; keys := keys g;
     resetTimer := resetTimer g |}.

Definition set_crossed (v : bool) (g : Game) : Game :=
  {| carBodyRef := carBodyRef g; crossed := v; light := light g; status := status g;
     score := score g; showInstructions := showInstructions g; speed := speed g;
     paused := paused g; hits := hits g; savedVelRef := savedVelRef g; keys := keys g;
     resetTimer := resetTimer g |}.

Definition set_light (v : LightCycle) (g : Game) : Game :=
  {| carBodyRef := carBodyRef g; crossed := crossed g; light := v; status := status g;
     score := score g; showInstructions := showInstructions g; speed := speed g;
     paused := paused g; hits := hits g; savedVelRef := savedVelRef g; keys := keys g;
     resetTimer := resetTimer g |}.

Definition setScore (f : Z -> Z) (g : Game) : Game :=
  {| carBodyRef := carBodyRef g; crossed := crossed g; light := light g;
     status := status g; score := f (score g); showInstructions := showInstructions g;
     speed := speed g; paused := paused g; hits := hits g;
     savedVelRef := savedVelRef g; keys := keys g; resetTimer := resetTimer g |}.

Definition setShowInstructions (v : bool) (g : Game) : Game :=
  {| carBodyRef := carBodyRef g; crossed := crossed g; light := light g;
     status := status g; score := score g; showInstructions := v; speed := speed g;
     paused := paused g; hits := hits g; savedVelRef := savedVelRef g; keys := keys g;
     resetTimer := resetTimer g |}.

Definition setSpeed (v : R) (g : Game) : Game :=
  {| carBodyRef := carBodyRef g; crossed := crossed g; light := light g;
     status := status g; score := score g; showInstructions := showInstructions g;
     speed := v; paused := paused g; hits := hits g; savedVelRef := savedVelRef g;
     keys := keys g; resetTimer := resetTimer g |}.

Definition set_paused (v : bool) (g : Game) : Game :=
  {| carBodyRef := carBodyRef g; crossed := crossed g; light := light g;
     status := status g; score := score g; showInstructions := showInstructions g;
     speed := speed g; paused := v; hits := hits g; savedVelRef := savedVelRef g;
     keys := keys g; resetTimer := resetTimer g |}.

Definition setHits (f : list Hit -> list Hit) (g : Game) : Game :=
  {| carBodyRef := carBodyRef g; crossed := crossed g; light := light g;
     status := status g; score := score g; showInstructions := showInstructions g;
     speed := speed g; paused := paused g; hits := f (hits g);
     savedVelRef := savedVelRef g; keys := keys g; resetTimer := resetTimer g |}.

Definition set_savedVelRef (v : option (Vec3 * Vec3)) (g : Game) : Game :=
  {| carBodyRef := carBodyRef g; crossed := crossed g; light := light g;
     status := status g; score := score g; showInstructions := showInstructions g;
     speed := speed g; paused := paused g; hits := hits g; savedVelRef := v;
     keys := keys g; resetTimer := resetTimer g |}.

Definition set_keys (v : Keys) (g : Game) : Game :=
  {| carBodyRef := carBodyRef g; crossed := crossed g; light := light g;
     status := status g; score := score g; showInstructions := showInstructions g;
     speed := speed g; paused := paused g; hits := hits g;
     savedVelRef := savedVelRef g; keys := v; resetTimer := resetTimer g |}.

(** [setStatus(st)] at time [now] with the auto-reset effect, as in the
    kinematic game. *)
Definition setStatus (now : Z) (st : Status) (g : Game) : Game :=
  if decide (st = status g) then g
  else
    {| carBodyRef := carBodyRef g; crossed := crossed g; light := light g;
       status := st; score := score g; showInstructions := showInstructions g;
       speed := speed g; paused := paused g; hits := hits g;
       savedVelRef := savedVelRef g; keys := keys g;
       resetTimer := if terminal st then Some (now + 4000)%Z else None |}.

(** ** Game logic *)

Definition onCrossStopLine (now : Z) (g : Game) : Game :=
  if decide (lightState (light g) = red) then setStatus now failed g
  else setStatus now passed (setScore (fun s => (s + 1)%Z) g).

(** [addHit(pos)]; [rnd] is [Math.floor(Math.random() * 1000)]. *)
Definition addHit (now rnd : Z) (pos : Vec3) (g : Game) : Game :=
  setHits (fun h => h ++ [{| hit_id := (now + rnd)%Z; hit_pos := pos; hit_t := now |}]) g.

(** [onBarrierHit()], the [onCollisionEnter] of both barriers.  Playing the
    collision sound is presentation only. *)
Definition onBarrierHit (now rnd : Z) (g : Game) : Game :=
  let g := setStatus now failed g in
  let p := match carBodyRef g with Some b => translation b | None => origin end in
  addHit now rnd p g.

Definition reset (now : Z) (g : Game) : Game :=
  let g := set_crossed false g in
  let g := setStatus now playing g in
  match carBodyRef g with
  | Some b =>
      set_carBodyRef
        (Some (setAngvel origin
                 (setLinvel origin
                    (setTranslation {| v_x := 0; v_y := 0.4; v_z := 18 |} b)))) g
  | None => g
  end.

(** ** The frame callback of [Car]

    A computation of the callback reads and writes the game, and returns
    or throws; what it wrote before it threw stays written. *)

Inductive Exn : Type := TypeError.

Definition Callback (A : Type) : Type := Game -> (A + Exn) * Game.

Definition ret {A : Type} (a : A) : Callback A := fun g => (inl a, g).

Definition bind {A B : Type} (m : Callback A) (k : A -> Callback B) : Callback B :=
  fun g =>
    match m g with
    | (inl a, g') => k a g'
    | (inr e, g') => (inr e, g')
    end.

Definition throw {A : Type} (e : Exn) : Callback A := fun g => (inr e, g).

Definition gets {A : Type} (f : Game -> A) : Callback A := fun g => (inl (f g), g).

Definition modify (f : Game -> Game) : Callback unit := fun g => (inl tt, f g).

Declare Scope callback_scope.
Delimit Scope callback_scope with callback.

Notation "x ← y ; z" := (bind y (fun x => z))
  (at level 20, y at level 100, z at level 200, only parsing) : callback_scope.
Notation "x ;; z" := (bind x (fun _ => z))
  (at level 100, z at level 200, only parsing, right associativity) : callback_scope.

(** The methods of the rigid body that [RigidBody] of [@react-three/rapier]
    puts into [bodyRef].  The game calls [translation], [rotation],
    [linvel], [angvel], [setTranslation], [setLinvel] and [setAngvel],
    which the body has, and [applyForce] and [applyTorque], which it has
    not: the body takes a force by [addForce] and a torque by [addTorque].
    The call of a method that an object does not have throws a
    [TypeError], after its arguments were evaluated. *)
Definition applyForce (force : Vec3) : Callback unit := throw TypeError.

Definition applyTorque (torque : Vec3) : Callback unit := throw TypeError.

(** [v.applyQuaternion(q)] and [v.normalize()] of three.js. *)
Definition applyQuaternion (q : Quat) (v : Vec3) : Vec3 :=
  let tx := 2 * (q_y q * v_z v - q_z q * v_y v) in
  let ty := 2 * (q_z q * v_x v - q_x q * v_z v) in
  let tz := 2 * (q_x q * v_y v - q_y q * v_x v) in
  {| v_x := v_x v + q_w q * tx + q_y q * tz - q_z q * ty;
     v_y := v_y v + q_w q * ty + q_z q * tx - q_x q * tz;
     v_z := v_z v + q_w q * tz + q_x q * ty - q_y q * tx |}.

Definition normalize (v : Vec3) : Vec3 :=
  let len := sqrt (v_x v * v_x v + v_y v * v_y v + v_z v * v_z v) in
  let d := if Req_dec_T len 0 then 1 else len in
  {| v_x := v_x v / d; v_y := v_y v / d; v_z := v_z v / d |}.

Definition engineForce : R := 6000.
Definition brakeForce : R := 18000.
Definition maxSteer : R := 1.6.

(** [key ? 1 : 0]. *)
Definition pressed (key : bool) : R := if key then 1 else 0.

(** The callback that [Car] gives to [useFrame]. *)
Definition carFrame (now : Z) : Callback unit :=
  (k ← gets keys;
   let throttle := ArrowUp k in
   let brake := ArrowDown k in
   let steerLeft := pressed (ArrowLeft k) in
   let steerRight := pressed (ArrowRight k) in
   body ← gets carBodyRef;
   p ← gets paused;
   match body with
   | None => ret tt
   | Some b =>
       if p then ret tt
       else
         let forward :=
           normalize (applyQuaternion (rotation b) {| v_x := 0; v_y := 0; v_z := 1 |}) in
         (if throttle then
            applyForce {| v_x := v_x forward * - engineForce; v_y := 0;
                          v_z := v_z forward * - engineForce |}
          else if brake then
            let lin := linvel b in
            applyForce {| v_x := - v_x lin * Rmin brakeForce (Rabs (v_x lin) * 200);
                          v_y := 0;
                          v_z := - v_z lin * Rmin brakeForce (Rabs (v_z lin) * 200) |}
          else
            let lin := linvel b in
            applyForce {| v_x := - v_x lin * 120; v_y := 0; v_z := - v_z lin * 120 |});;
         let steer := steerLeft - steerRight in
         (if Req_dec_T steer 0 then ret tt
          else applyTorque {| v_x := 0; v_y := steer * maxSteer * 80; v_z := 0 |});;
         let vel := linvel b in
         modify (setSpeed (sqrt (v_x vel * v_x vel + v_y vel * v_y vel + v_z vel * v_z vel)));;
         let pos := translation b in
         x ← gets crossed;
         if negb x && Rltb (v_z pos) 0
         then modify (set_crossed true);; modify (onCrossStopLine now)
         else ret tt
   end)%callback.

(** The game after a frame: as the callback left it, whether it returned
    or threw. *)
Definition useFrame (now : Z) (g : Game) : Game := snd (carFrame now g).

(** ** The mounted component as a transition system *)

Inductive Event : Type :=
| Frame
| PhysicsStep (b : Body)
| BarrierCollision (rnd : Z)
| KeyDown (key : string)
| KeyUp (key : string)
| ClickReset
| LightTimeout
| ProgressPoll
| AutoResetTimeout
| PruneHits.

(** [setPaused(v => !v)] and the effect that depends on [paused]. *)
Definition togglePause (g : Game) : Game :=
  let g := set_paused (negb (paused g)) g in
  if paused g then
    match carBodyRef g with
    | Some b =>
        set_carBodyRef (Some (setAngvel origin (setLinvel origin b)))
          (set_savedVelRef (Some (linvel b, angvel b)) g)
    | None => g
    end
  else
    let g' :=
      match carBodyRef g, savedVelRef g with
      | Some b, Some (lin, ang) => set_carBodyRef (Some (setAngvel ang (setLinvel lin b))) g
      | _, _ => g
      end in
    set_savedVelRef None g'.

Definition keydown (key : string) (g : Game) : Game :=
  if is_arrow key then setShowInstructions false (set_keys (set_key key true (keys g)) g)
  else if is_p key then togglePause g
  else g.

Definition keyup (key : string) (g : Game) : Game :=
  if is_arrow key then set_keys (set_key key false (keys g)) g else g.

Definition autoReset (now : Z) (g : Game) : Game :=
  match resetTimer g with
  | Some due => if (now <? due)%Z then g else reset now g
  | None => g
  end.

(** The 250 ms interval that drops hits older than 1000 ms. *)
Definition pruneHits (now : Z) (g : Game) : Game :=
  setHits (List.filter (fun h => (now - 1000 <=? hit_t h)%Z)) g.

Definition step (now : Z) (e : Event) (g : Game) : Game :=
  match e with
  | Frame => useFrame now g
  | PhysicsStep b =>
      match carBodyRef g with
      | Some _ => set_carBodyRef (Some b) g
      | None => g
      end
  | BarrierCollision rnd => onBarrierHit now rnd g
  | KeyDown key => keydown key g
  | KeyUp key => keyup key g
  | ClickReset => reset now g
  | LightTimeout => set_light (resume now (light g)) g
  | ProgressPoll => set_light (poll now (light g)) g
  | AutoResetTimeout => autoReset now g
  | PruneHits => pruneHits now g
  end.

Definition run (tr : list (Z * Event)) (g : Game) : Game :=
  fold_left (fun g te => step (fst te) (snd te) g) tr g.

(** What an event does to the light, and the events that toggle pause. *)
Definition light_step (now : Z) (e : Event) (c : LightCycle) : LightCycle :=
  match e with
  | LightTimeout => resume now c
  | ProgressPoll => poll now c
  | _ => c
  end.

Definition toggles_pause (e : Event) : bool :=
  match e with
  | KeyDown key => negb (is_arrow key) && is_p key
  | _ => false
  end.

Definition without_pause (tr : list (Z * Event)) : list (Z * Event) :=
  List.filter (fun te => negb (toggles_pause (snd te))) tr.

(** The events that call [reset()]. *)
Definition resets (e : Event) : bool :=
  match e with
  | ClickReset | AutoResetTimeout => true
  | _ => false
  end.

(** The game as mounted at time [now], the car at the position the [Car]
    element is given. *)
Definition init (now : Z) : Game :=
  {| carBodyRef :=
       Some {| translation := {| v_x := 0; v_y := 0.4; v_z := 18 |};
               rotation := {| q_x := 0; q_y := 0; q_z := 0; q_w := 1 |};
               linvel := origin; angvel := origin |};
     crossed := false; light := mount now; status := playing; score := 0%Z;
     showInstructions := true; speed := 0; paused := false; hits := [];
     savedVelRef := None; keys := no_keys; resetTimer := None |}.


(** [across]: the game mounted at time 0 whose car the engine has carried
    over the stop line, to z = -1, by the time 16 ms (the light is green,
    no key is held). *)
Definition across_body : Body :=
  {| translation := {| v_x := 0; v_y := 0.4; v_z := -1 |};
     rotation := {| q_x := 0; q_y := 0; q_z := 0; q_w := 1 |};
     linvel := {| v_x := 0; v_y := 0; v_z := -5 |}; angvel := origin |}.

Definition across : Game := step 16 (PhysicsStep across_body) (init 0).

(** A round in which no crossing has been seen. *)
Definition unflagged (g : Game) : Prop :=
  crossed g = false /\ status g <> passed /\ score g = 0%Z.

(** ** The HUD *)

Definition speedKmh (g : Game) : Z := Math_round (speed g * 3.6).

(** ** Hit flashes

    [HitEffects] at a render at time [now]: one entry for each hit, [None]
    (nothing is drawn) when the hit is older than 900 ms, and otherwise
    the sphere drawn, with its key, position, scale and opacity. *)

Record Flash : Type := {
  fl_key : Z;
  fl_position : Vec3;
  fl_scale : R;
  fl_opacity : R
}.

Definition flash (now : Z) (h : Hit) : option Flash :=
  let age := (now - hit_t h)%Z in
  let duration := 900%Z in
  if (duration <? age)%Z then None
  else
    let life := IZR age / IZR duration in
    Some {| fl_key := hit_id h;
            fl_position := {| v_x := v_x (hit_pos h); v_y := v_y (hit_pos h) + 0.6;
                              v_z := v_z (hit_pos h) |};
            fl_scale := 1 + life * 3;
            fl_opacity := 1 - life |}.

Definition HitEffects (now : Z) (hits : list Hit) : list (option Flash) :=
  map (flash now) hits.

(** The spheres that [HitEffects] draws. *)
Definition drawn (now : Z) (hits : list Hit) : list Flash :=
  omap (fun f => f) (HitEffects now hits).


(** ** The sound of the engine

    The effect that depends on [speed]: it sets the playback rate and the
    volume of the engine loop, when the audio element exists, and the
    frequency and gain of the fallback oscillator, when that one is in
    use. *)

Record Audio : Type := { playbackRate : R; volume : R }.

Record Oscillator : Type := { frequency : R; gain : R }.

Record Sound : Type := {
  audioRef : option Audio;
  engineOsc : option Oscillator
}.

Definition engineSound (speed : R) (s : Sound) : Sound :=
  match audioRef s with
  | None => s
  | Some _ =>
      let rate := 1 + Rmin 1.3 (speed / 12) in
      {| audioRef := Some {| playbackRate := rate;
                             volume := 0.06 + Rmin 0.8 (speed / 20) |};
         engineOsc :=
           (fun _ => {| frequency := 80 + speed * 20;
                        gain := 0.02 + Rmin 0.18 (speed / 60) |}) <$> engineOsc s |}
  end.

(** A game paused with the velocities [lin] and [ang] saved for a car that
    exists. *)
Definition held (lin ang : Vec3) (g : Game) : Prop :=
  paused g = true /\ savedVelRef g = Some (lin, ang) /\ is_Some (carBodyRef g).


(** The samples that [playNoiseBurst] writes into its buffer of [len]
    frames: [rnd i] is what the [i]-th call of [Math.random()] returns. *)
Definition noiseBurst (rnd : nat -> R) (len : nat) : list R :=
  map (fun i => (rnd i * 2 - 1) * (1 - INR i / INR len) * 0.6) (seq 0 len).

End RigidBody.

(** * Facts about the runner *)

Module RunnerFacts.

Import Runner.
Local Open Scope Q_scope.

(** ** Comparisons *)

Lemma Qleb_le (a b : Q) : Qleb a b = true <-> a <= b.
Proof. unfold Qleb, Qle. apply Z.leb_le. Qed.

Lemma Qleb_gt (a b : Q) : Qleb a b = false <-> b < a.
Proof. unfold Qleb, Qlt. rewrite Z.leb_gt. reflexivity. Qed.

Lemma Qltb_lt (a b : Q) : Qltb a b = true <-> a < b.
Proof. unfold Qltb, Qlt. apply Z.ltb_lt. Qed.

Lemma Qltb_ge (a b : Q) : Qltb a b = false <-> b <= a.
Proof. unfold Qltb, Qle. rewrite Z.ltb_ge. reflexivity. Qed.

(** The dragon a collision callback is handed stays findable, updated,
    when the group is mapped by a function that changes only that dragon
    and keeps its identity. *)
Lemma find_map_dragon (k : nat) (f : Sprite -> Sprite) (l : list Sprite) :
  (forall d, spr_id (f d) = spr_id d) ->
  find (is_dragon k) (map (fun d => if is_dragon k d then f d else d) l)
  = f <$> find (is_dragon k) l.
Proof.
  intros Hid. induction l as [|d l IH]; [reflexivity|].
  cbn [map find]. destruct (is_dragon k d) eqn:E.
  - unfold is_dragon at 1. rewrite Hid. fold (is_dragon k d). rewrite E. reflexivity.
  - rewrite E. exact IH.
Qed.

Lemma find_filter_dragon (k : nat) (l : list Sprite) :
  find (is_dragon k) (List.filter (fun d => negb (is_dragon k d)) l) = None.
Proof.
  induction l as [|d l IH]; [reflexivity|].
  cbn [List.filter]. destruct (is_dragon k d) eqn:E; cbn [negb]; [exact IH|].
  cbn [find]. rewrite E. exact IH.
Qed.

Lemma health_of_set (h x : Q) (d : Sprite) :
  0 < h -> health_of (set_x x (set_health h d)) = h.
Proof.
  intros Hh. unfold health_of. cbn.
  destruct (Qeq_bool h 0) eqn:E; [|reflexivity].
  apply Qeq_bool_iff in E. rewrite E in Hh. inversion Hh.
Qed.

Lemma damageDragon_not_downward dragon rnd s :
  vy (player s) <= 0 -> damageDragon dragon rnd s = s.
Proof.
  intros H. unfold damageDragon. destruct (find _ _); [|reflexivity].
  apply Qleb_le in H. rewrite H. reflexivity.
Qed.

Lemma damageDragon_lethal dragon rnd s d :
  find (is_dragon dragon) (dragons s) = Some d ->
  0 < vy (player s) -> health_of d - 1 <= 0 ->
  let s' := damageDragon dragon rnd s in
  find (is_dragon dragon) (dragons s') = None /\
  score s' = score s + 50 /\
  length (particles s') = (length (particles s) + 4 * 6)%nat /\
  obstacles s' = obstacles s /\ gameActive s' = gameActive s.
Proof.
  intros Hf Hv Hh. unfold damageDragon. rewrite Hf.
  apply Qleb_gt in Hv. rewrite Hv. apply Qleb_le in Hh. rewrite Hh.
  cbn. split; [apply find_filter_dragon|]. split; [reflexivity|].
  split; [|split; reflexivity].
  rewrite !length_app. cbn. lia.
Qed.

(** One call of [createDustParticles]: six fresh sprites at the place
    given, with the data key ["life"] at 0.6 and no property [life]. *)
Lemma burst_shape (n : nat) (x y : Q) :
  length (burst n x y) = 6%nat /\
  map spr_id (burst n x y) = seq n 6 /\
  Forall (fun p => spr_x p = x /\ spr_y p = y /\
                   d_life (spr_data p) = Some 0.6 /\ spr_life p = None) (burst n x y).
Proof.
  split; [reflexivity|]. split.
  - unfold burst. rewrite map_map. cbn [spr_id dust].
    change (Nat.add n <$> seq 0 6 = seq n 6).
    rewrite fmap_add_seq, Nat.add_0_r. reflexivity.
  - unfold burst. apply List.Forall_map, List.Forall_forall. intros i _. repeat split.
Qed.

Lemma damageDragon_hurt dragon rnd s d :
  find (is_dragon dragon) (dragons s) = Some d ->
  0 < vy (player s) -> 0 < health_of d - 1 ->
  let s' := damageDragon dragon rnd s in
  let d' := set_x (spr_x d - 30) (set_health (health_of d - 1) d) in
  find (is_dragon dragon) (dragons s') = Some d' /\
  health_of d' = health_of d - 1 /\
  score s' = score s /\
  particles s' = particles s ++ burst (nextId s) (spr_x d) (spr_y d) /\
  player s' = player s.
Proof.
  intros Hf Hv Hh s' d'.
  assert (Hd : health_of d' = health_of d - 1) by (apply health_of_set, Hh).
  subst s' d'. unfold damageDragon. rewrite Hf.
  apply Qleb_gt in Hv. rewrite Hv. apply Qleb_gt in Hh. rewrite Hh.
  split; [|split; [exact Hd|repeat split]].
  cbn [dragons set_dragons createDustParticles set_nextId set_particles].
  rewrite (find_map_dragon dragon
             (fun d' => set_x (spr_x d' - 30) (set_health (health_of d - 1) d'))).
  - rewrite Hf. reflexivity.
  - reflexivity.
Qed.

Lemma damageDragon_gone dragon rnd s :
  find (is_dragon dragon) (dragons s) = None -> damageDragon dragon rnd s = s.
Proof. intros H. unfold damageDragon. rewrite H. reflexivity. Qed.

Lemma health_of_3 (d : Sprite) : d_health (spr_data d) = Some 3 -> health_of d = 3.
Proof. intros H. unfold health_of. rewrite H. reflexivity. Qed.

(** C3.  The overlap callback [damageDragon] for a dragon [d] of the group:
    it changes nothing unless the player's vertical velocity is downward
    (positive); on a downward stomp that takes the health to 0 the dragon
    leaves the group, the score grows by exactly 50 and twenty-four
    particles of dust (four bursts) are added; on any other downward stomp
    the dragon stays with its health one lower, 30 units further left, the
    score as it was, and exactly one burst of dust added: six fresh
    particles where the dragon was hit, each with its lifetime 0.6 in the
    data key; a dragon that is gone is not damaged (or scored) again.  A
    dragon of health 3 survives two downward stomps without any score and
    is destroyed by the third, for a total bonus of 50. *)
Theorem C3_damageDragon_stomp (s : RunnerScene) (dragon : nat) (d : Sprite)
    (rnd rnd2 rnd3 : nat -> Q) :
  let s1 := damageDragon dragon rnd s in
  let s2 := damageDragon dragon rnd2 s1 in
  let s3 := damageDragon dragon rnd3 s2 in
  (vy (player s) <= 0 -> s1 = s) /\
  (find (is_dragon dragon) (dragons s) = None -> s1 = s) /\
  (find (is_dragon dragon) (dragons s) = Some d -> 0 < vy (player s) ->
   health_of d - 1 <= 0 ->
   find (is_dragon dragon) (dragons s1) = None /\ score s1 = score s + 50 /\
   length (particles s1) = (length (particles s) + 24)%nat) /\
  (find (is_dragon dragon) (dragons s) = Some d -> 0 < vy (player s) ->
   0 < health_of d - 1 ->
   exists d',
     find (is_dragon dragon) (dragons s1) = Some d' /\
     health_of d' = health_of d - 1 /\
     spr_x d' = spr_x d - 30 /\
     score s1 = score s /\
     exists new,
       particles s1 = particles s ++ new /\ length new = 6%nat /\
       map spr_id new = seq (nextId s) 6 /\
       Forall (fun p => spr_x p = spr_x d /\ spr_y p = spr_y d /\
                        d_life (spr_data p) = Some 0.6 /\ spr_life p = None) new) /\
  (find (is_dragon dragon) (dragons s) = Some d -> 0 < vy (player s) ->
   d_health (spr_data d) = Some 3 ->
   is_Some (find (is_dragon dragon) (dragons s1)) /\ score s1 = score s /\
   is_Some (find (is_dragon dragon) (dragons s2)) /\ score s2 = score s /\
   find (is_dragon dragon) (dragons s3) = None /\ score s3 = score s + 50 /\
   damageDragon dragon rnd s3 = s3).
Proof.
  intros s1 s2 s3.
  split; [apply damageDragon_not_downward|].
  split; [apply damageDragon_gone|].
  split.
  { intros Hf Hv Hh.
    destruct (damageDragon_lethal dragon rnd s d Hf Hv Hh) as (H1 & H2 & H3 & _).
    split; [exact H1|]. split; [exact H2|exact H3]. }
  split.
  { intros Hf Hv Hh.
    destruct (damageDragon_hurt dragon rnd s d Hf Hv Hh) as (H1 & H2 & H3 & H4 & _).
    destruct (burst_shape (nextId s) (spr_x d) (spr_y d)) as (B1 & B2 & B3).
    eexists. split; [exact H1|]. split; [exact H2|]. split; [reflexivity|].
    split; [exact H3|].
    exists (burst (nextId s) (spr_x d) (spr_y d)).
    split; [exact H4|]. split; [exact B1|]. split; [exact B2|exact B3]. }
  intros Hf Hv H3.
  pose proof (health_of_3 d H3) as Hd.
  assert (Hh1 : 0 < health_of d - 1) by (rewrite Hd; reflexivity).
  destruct (damageDragon_hurt dragon rnd s d Hf Hv Hh1) as (F1 & D1 & S1 & _ & P1).
  fold s1 in F1, S1, P1.
  set (d1 := set_x (spr_x d - 30) (set_health (health_of d - 1) d)) in *.
  assert (Hv1 : 0 < vy (player s1)) by (rewrite P1; exact Hv).
  assert (Hh2 : 0 < health_of d1 - 1) by (rewrite D1, Hd; reflexivity).
  destruct (damageDragon_hurt dragon rnd2 s1 d1 F1 Hv1 Hh2) as (F2 & D2 & S2 & _ & P2).
  fold s2 in F2, S2, P2.
  set (d2 := set_x (spr_x d1 - 30) (set_health (health_of d1 - 1) d1)) in *.
  assert (Hv2 : 0 < vy (player s2)) by (rewrite P2; exact Hv1).
  assert (Hh3 : health_of d2 - 1 <= 0).
  { rewrite D2, D1, Hd. apply Qle_bool_iff. reflexivity. }
  destruct (damageDragon_lethal dragon rnd3 s2 d2 F2 Hv2 Hh3) as (F3 & S3 & _).
  fold s3 in F3, S3.
  split; [rewrite F1; eexists; reflexivity|].
  split; [exact S1|].
  split; [rewrite F2; eexists; reflexivity|].
  split; [rewrite S2; exact S1|].
  split; [exact F3|].
  split; [rewrite S3, S2, S1; reflexivity|].
  apply damageDragon_gone, F3.
Qed.

(** A dragon as [spawnDragon] makes it, stomped three times by a falling
    player: six particles of dust after the first stomp, and the dragon
    gone with a bonus of 50 after the third. *)
Lemma C3_witness :
  let s := set_player {| p_x := 120; p_y := 300; vy := 200; blocked_down := false;
                         touching_down := false |} (spawnDragon (start ∅)) in
  let s1 := damageDragon 0 (fun _ => 0.5) s in
  let s3 := damageDragon 0 (fun _ => 0.5) (damageDragon 0 (fun _ => 0.5) s1) in
  length (particles s1) = 6%nat /\
  find (is_dragon 0) (dragons s3) = None /\ score s3 = score s + 50.
Proof.
  intros s s1 s3.
  destruct (C3_damageDragon_stomp s 0 (new_dragon 0)
              (fun _ => 0.5) (fun _ => 0.5) (fun _ => 0.5))
    as (_ & _ & _ & H4 & H5).
  destruct H4 as (d' & _ & _ & _ & _ & new & E & L & _); [reflexivity|reflexivity|reflexivity|].
  destruct H5 as (_ & _ & _ & _ & F & S & _); [reflexivity|reflexivity|reflexivity|].
  split; [|split; [exact F|exact S]].
  fold s1 in E. rewrite E, length_app, L. reflexivity.
Defined.

(** ** The update loop *)

Lemma update_inactive (delta : Q) (s : RunnerScene) :
  gameActive s = false -> update delta s = s.
Proof. intros H. unfold update. rewrite H. reflexivity. Qed.

(** The scene after the first half of [update]: score and level. *)
(** An active tick is its three parts in sequence. *)
Lemma update_active (delta : Q) (s : RunnerScene) :
  gameActive s = true ->
  update delta s = tick_groups delta (tick_text (tick_level delta s)).
Proof. intros H. unfold update. rewrite H. reflexivity. Qed.

Lemma tick_level_score (delta : Q) (s : RunnerScene) :
  score (tick_level delta s) = score s + delta * 0.01.
Proof.
  unfold tick_level. cbv zeta. cbn [score set_score].
  destruct (negb _); [|reflexivity].
  destruct (_ && _); reflexivity.
Qed.

Lemma tick_level_level (delta : Q) (s : RunnerScene) :
  level (tick_level delta s) = (Qfloor ((score s + delta * 0.01) / 250) + 1)%Z.
Proof.
  unfold tick_level. cbv zeta. cbn [score set_score level].
  destruct (Z.eqb_spec (Qfloor ((score s + delta * 0.01) / 250) + 1) (level s)) as [E|E];
    cbn [negb].
  - symmetry. exact E.
  - destruct (_ && _); reflexivity.
Qed.

Lemma tick_level_gameActive (delta : Q) (s : RunnerScene) :
  gameActive (tick_level delta s) = gameActive s.
Proof.
  unfold tick_level. cbv zeta.
  destruct (negb _); [|reflexivity].
  destruct (_ && _); reflexivity.
Qed.

Lemma tick_level_groups (delta : Q) (s : RunnerScene) :
  obstacles (tick_level delta s) = obstacles s /\
  dragons (tick_level delta s) = dragons_to_move delta s /\
  particles (tick_level delta s) = particles s /\
  fireParticles (tick_level delta s) = fireParticles s.
Proof.
  unfold tick_level, dragons_to_move. cbv zeta.
  cbn [score set_score level dragonSpawnTimer set_level set_levelText].
  destruct (negb _); cbn [andb]; [|repeat split].
  destruct (_ =? 2)%Z; cbn [andb]; [|repeat split].
  destruct (negb (bool_decide _)); repeat split.
Qed.

Lemma update_score (delta : Q) (s : RunnerScene) :
  gameActive s = true -> score (update delta s) = score s + delta * 0.01.
Proof. intros H. rewrite update_active by exact H. apply tick_level_score. Qed.

Lemma update_level (delta : Q) (s : RunnerScene) :
  gameActive s = true ->
  level (update delta s) = (Qfloor (score (update delta s) / 250) + 1)%Z.
Proof.
  intros H. rewrite update_score by exact H. rewrite update_active by exact H.
  apply tick_level_level.
Qed.

Lemma update_gameActive (delta : Q) (s : RunnerScene) :
  gameActive (update delta s) = gameActive s.
Proof.
  destruct (gameActive s) eqn:H.
  - rewrite update_active by exact H.
    change (gameActive (tick_level delta s) = true).
    rewrite tick_level_gameActive. exact H.
  - rewrite update_inactive by exact H. exact H.
Qed.

(** ** The walk over a group

    The walk by index over the live array is [sweep]. *)

Lemma iterate_from_end (body : Sprite -> option Sprite) (len i : nat) (l : list Sprite) :
  (length l <= i)%nat -> iterate_from body len i l = l.
Proof.
  revert i. induction len as [|len IH]; intros i H; [reflexivity|].
  cbn [iterate_from]. rewrite (lookup_ge_None_2 l i) by exact H.
  apply IH. lia.
Qed.

Lemma iterate_from_sweep (body : Sprite -> option Sprite) (len : nat)
    (done rest : list Sprite) :
  (length rest <= len)%nat ->
  iterate_from body len (length done) (done ++ rest) = done ++ sweep body rest.
Proof.
  revert done rest. induction len as [|len IH]; intros done rest H.
  - destruct rest; [reflexivity|cbn [length] in H; lia].
  - cbn [iterate_from]. destruct rest as [|child rest].
    + cbn [sweep]. rewrite app_nil_r, (lookup_ge_None_2 done (length done)) by lia.
      apply iterate_from_end. lia.
    + cbn [length] in H.
      rewrite (list_lookup_middle done rest child (length done) eq_refl).
      cbn [sweep]. destruct (body child) as [child'|].
      * assert (E : <[length done := child']> (done ++ child :: rest)
                    = (done ++ [child']) ++ rest).
        { rewrite (insert_app_r_alt done (child :: rest) (length done)) by lia.
          rewrite Nat.sub_diag, <- app_assoc. reflexivity. }
        rewrite E.
        replace (S (length done)) with (length (done ++ [child']))
          by (rewrite length_app; cbn [length]; lia).
        rewrite IH by lia. rewrite <- app_assoc. reflexivity.
      * rewrite (delete_middle done rest child).
        destruct rest as [|skipped rest].
        { cbn [sweep]. rewrite app_nil_r. apply iterate_from_end. lia. }
        cbn [length] in H.
        assert (E : done ++ skipped :: rest = (done ++ [skipped]) ++ rest)
          by (rewrite <- app_assoc; reflexivity).
        rewrite E.
        replace (S (length done)) with (length (done ++ [skipped]))
          by (rewrite length_app; cbn [length]; lia).
        rewrite IH by lia. rewrite <- app_assoc. reflexivity.
Qed.

Lemma iterate_sweep (body : Sprite -> option Sprite) (l : list Sprite) :
  iterate body l = sweep body l.
Proof. apply (iterate_from_sweep body (length l) [] l). reflexivity. Qed.

(** Induction along a walk: the three ways it goes on from a sprite. *)
Lemma sweep_walk (body : Sprite -> option Sprite) (P : list Sprite -> list Sprite -> Prop) :
  P [] [] ->
  (forall child child' rest,
     body child = Some child' -> P rest (sweep body rest) ->
     P (child :: rest) (child' :: sweep body rest)) ->
  (forall child, body child = None -> P [child] []) ->
  (forall child skipped rest,
     body child = None -> P rest (sweep body rest) ->
     P (child :: skipped :: rest) (skipped :: sweep body rest)) ->
  forall l, P l (sweep body l).
Proof.
  intros Hnil Hkeep Hlast Hskip l.
  assert (H : forall n l, (length l <= n)%nat -> P l (sweep body l)).
  { clear l. induction n as [|n IH]; intros l Hl.
    - destruct l; [exact Hnil|cbn [length] in Hl; lia].
    - destruct l as [|child rest]; [exact Hnil|]. cbn [length] in Hl. cbn [sweep].
      destruct (body child) as [child'|] eqn:E.
      + apply Hkeep; [exact E|]. apply IH. lia.
      + destruct rest as [|skipped rest]; [apply Hlast, E|].
        cbn [length] in Hl. apply Hskip; [exact E|]. apply IH. lia. }
  apply (H (length l)). reflexivity.
Qed.

(** A walk whose callback destroys nothing visits every sprite. *)
Lemma sweep_map (body : Sprite -> option Sprite) (f : Sprite -> Sprite) (l : list Sprite) :
  Forall (fun child => body child = Some (f child)) l -> sweep body l = map f l.
Proof.
  induction 1 as [|child l H _ IH]; [reflexivity|].
  cbn [sweep map]. rewrite H, IH. reflexivity.
Qed.

Lemma length_sweep_le (body : Sprite -> option Sprite) (l : list Sprite) :
  (length (sweep body l) <= length l)%nat.
Proof.
  apply (sweep_walk body (fun l l' => (length l' <= length l)%nat));
    intros; cbn [length]; lia.
Qed.

(** The level after the tick decides both speeds. *)
Lemma update_obstacles (delta : Q) (s : RunnerScene) :
  gameActive s = true ->
  obstacles (update delta s)
  = sweep (move_left (300 + inject_Z (level (update delta s) - 1) * 30) delta (-100))
      (obstacles s).
Proof.
  intros H. rewrite update_active by exact H.
  destruct (tick_level_groups delta s) as (E & _).
  change (iterate (move_left (300 + inject_Z (level (tick_level delta s) - 1) * 30)
                     delta (-100)) (obstacles (tick_level delta s)) = 
          sweep (move_left (300 + inject_Z (level (tick_level delta s) - 1) * 30)
                   delta (-100)) (obstacles s)).
  rewrite E. apply iterate_sweep.
Qed.

(** The dragons it walks over are those of the group and the one it spawns
    itself on the tick that reaches level 2 for the first time. *)
Lemma update_dragons (delta : Q) (s : RunnerScene) :
  gameActive s = true ->
  dragons (update delta s)
  = sweep (move_left (250 + inject_Z (level (update delta s) - 1) * 20) delta (-150))
      (dragons_to_move delta s).
Proof.
  intros H. rewrite update_active by exact H.
  destruct (tick_level_groups delta s) as (_ & E & _).
  change (iterate (move_left (250 + inject_Z (level (tick_level delta s) - 1) * 20)
                     delta (-150)) (dragons (tick_level delta s)) = 
          sweep (move_left (250 + inject_Z (level (tick_level delta s) - 1) * 20)
                   delta (-150)) (dragons_to_move delta s)).
  rewrite E. apply iterate_sweep.
Qed.

(** A visited sprite is destroyed exactly when its new x is left of the
    bound, and one that stays is the same sprite, moved. *)
Lemma move_left_destroys (speed delta bound : Q) (o : Sprite) :
  move_left speed delta bound o = None <-> spr_x o - speed * (delta / 1000) < bound.
Proof.
  unfold move_left. cbv zeta. cbn [spr_x set_x]. rewrite <- Qltb_lt.
  destruct (Qltb _ bound); split; intros; congruence.
Qed.

Lemma move_left_keeps (speed delta bound : Q) (o o' : Sprite) :
  move_left speed delta bound o = Some o' ->
  o' = set_x (spr_x o - speed * (delta / 1000)) o /\ bound <= spr_x o'.
Proof.
  unfold move_left. cbv zeta. cbn [spr_x set_x].
  destruct (Qltb _ bound) eqn:E; [discriminate|].
  intros [= <-]. split; [reflexivity|]. apply Qltb_ge in E. exact E.
Qed.

Lemma update_iter_gameActive (delta : Q) (n : nat) (s : RunnerScene) :
  gameActive (Nat.iter n (update delta) s) = gameActive s.
Proof.
  induction n as [|n IH]; [reflexivity|].
  rewrite Nat.iter_succ, update_gameActive. exact IH.
Qed.

(** With nothing touched, [n] ticks of [delta] add [n * (delta * 0.01)],
    and the level follows the score. *)
Lemma update_iter_score (delta : Q) (n : nat) (s : RunnerScene) :
  gameActive s = true ->
  score (Nat.iter n (update delta) s) == score s + inject_Z (Z.of_nat n) * (delta * 0.01).
Proof.
  intros H. induction n as [|n IH].
  - cbn. ring.
  - rewrite Nat.iter_succ.
    rewrite update_score by (rewrite update_iter_gameActive; exact H).
    rewrite IH, Nat2Z.inj_succ. unfold Z.succ. rewrite inject_Z_plus. ring.
Qed.

Lemma update_iter_level (delta : Q) (n : nat) (s : RunnerScene) :
  gameActive s = true ->
  level (Nat.iter (S n) (update delta) s)
  = (Qfloor ((score s + inject_Z (Z.of_nat (S n)) * (delta * 0.01)) / 250) + 1)%Z.
Proof.
  intros H. rewrite Nat.iter_succ.
  rewrite update_level by (rewrite update_iter_gameActive; exact H).
  rewrite <- Nat.iter_succ. f_equal. apply Qfloor_comp.
  rewrite update_iter_score by exact H. reflexivity.
Qed.

(** The scenario of the specification: from score 0, 25 ticks of 1000 ms
    give score 250; the level is 1 after the 24th tick and 2 after the
    25th. *)
Lemma runner_25_ticks (s : RunnerScene) :
  gameActive s = true -> score s == 0 ->
  score (Nat.iter 25 (update 1000) s) == 250 /\
  level (Nat.iter 24 (update 1000) s) = 1%Z /\
  level (Nat.iter 25 (update 1000) s) = 2%Z.
Proof.
  intros H H0. split; [|split].
  - rewrite update_iter_score, H0 by exact H. reflexivity.
  - rewrite (update_iter_level 1000 23 s H).
    erewrite Qfloor_comp; [|rewrite H0; reflexivity]. reflexivity.
  - rewrite (update_iter_level 1000 24 s H).
    erewrite Qfloor_comp; [|rewrite H0; reflexivity]. reflexivity.
Qed.

(** ** Particles and their lifetime

    The spawners store the lifetime under the data key ["life"]; the update
    loop reads the property [life] of the sprite, which nothing sets. *)

Lemma update_particle_dust (delta : Q) (i : nat) (x y : Q) :
  update_particle delta (dust i x y) = Some (dust i x y).
Proof. reflexivity. Qed.

Lemma update_fire_fire (delta : Q) (i : nat) (x y : Q) :
  update_fire delta (fire i x y) = Some (set_life_alpha NaN NaN (fire i x y)) /\
  update_fire delta (set_life_alpha NaN NaN (fire i x y))
  = Some (set_life_alpha NaN NaN (fire i x y)).
Proof. split; reflexivity. Qed.

(** A particle whose property [life] is undefined is left as it is, and
    every particle the scene creates is one. *)
Lemma update_particle_undefined (delta : Q) (p : Sprite) :
  spr_life p = None -> update_particle delta p = Some p.
Proof. intros H. unfold update_particle. rewrite H. reflexivity. Qed.

Lemma sweep_update_particle (delta : Q) (l : list Sprite) :
  Forall (fun p => spr_life p = None) l -> sweep (update_particle delta) l = l.
Proof.
  intros H. rewrite (sweep_map _ (fun p => p)); [apply map_id|].
  eapply Forall_impl; [exact H|]. intros p Hp. apply update_particle_undefined, Hp.
Qed.

Lemma update_particles_undefined (delta : Q) (s : RunnerScene) :
  Forall (fun p => spr_life p = None) (particles s) ->
  particles (update delta s) = particles s.
Proof.
  intros H. destruct (gameActive s) eqn:A.
  - rewrite update_active by exact A.
    destruct (tick_level_groups delta s) as (_ & _ & E & _).
    change (iterate (update_particle delta) (particles (tick_level delta s)) = particles s).
    rewrite E, iterate_sweep. apply sweep_update_particle, H.
  - rewrite update_inactive by exact A. reflexivity.
Qed.

(** C2, at the input where the code departs from it.  On a fresh game the
    player, standing on the ground, jumps (six dust particles, lifetime
    0.6 s), a dragon is spawned and its fire-breath interval fires once
    (eight fire particles, lifetime 0.8 s); then one tick of 1000 ms.  The
    tick adds [1000 * 0.01] to the score, but no dust particle is destroyed
    or changed at all, and no fire particle is destroyed: its [life]
    becomes [NaN]. *)
Theorem C2_particles_outlive_their_lifetime :
  let landed :=
    set_player {| p_x := 120; p_y := 380; vy := 0; blocked_down := true;
                  touching_down := false |} (start ∅) in
  let s := fireBreathTick 0 (spawnDragon (jump landed)) in
  let s' := update 1000 s in
  gameActive s = true /\
  score s' == score s + 10 /\
  map (fun p => d_life (spr_data p)) (particles s) = replicate 6 (Some 0.6) /\
  particles s' = particles s /\
  map (fun p => d_life (spr_data p)) (fireParticles s) = replicate 8 (Some 0.8) /\
  map spr_id (fireParticles s') = map spr_id (fireParticles s) /\
  map spr_life (fireParticles s') = replicate 8 (Some NaN).
Proof.
  vm_compute. repeat split; reflexivity.
Qed.

(** ** Game over and restart *)

(** The scene that [gameOver] leaves. *)
Definition over (s : RunnerScene) : RunnerScene :=
  set_restartListener true
    (set_physicsPaused true
       (set_spawnTimer (remove <$> spawnTimer s) (set_gameActive false s))).

Lemma gameOver_scene (s : RunnerScene) (ls : localStorage) :
  fst (gameOver (s, ls)) = over s.
Proof. reflexivity. Qed.

Lemma gameOver_freezes (s : RunnerScene) (ls : localStorage) :
  let s' := fst (gameOver (s, ls)) in
  gameActive s' = false /\
  spawnTimer s' = remove <$> spawnTimer s /\
  physicsPaused s' = true /\
  restartListener s' = true /\
  score s' = score s /\
  (forall delta, update delta s' = s').
Proof.
  intros s'. subst s'. rewrite gameOver_scene.
  assert (A : gameActive (over s) = false) by reflexivity.
  split; [exact A|]. do 4 (split; [reflexivity|]).
  intros delta. apply update_inactive, A.
Qed.

(** [restart] gives the scene a fresh player, empty groups and a fresh,
    live spawn timer; the fields that only the class's initialisers set
    keep the values the finished game left in them. *)
Lemma restart_fields (ls : localStorage) (s : RunnerScene) :
  let s' := restart ls s in
  (obstacles s' = [] /\ dragons s' = [] /\ fireParticles s' = [] /\ particles s' = []) /\
  te_live <$> spawnTimer s' = Some true /\
  score s' = score s /\
  level s' = level s /\
  gameActive s' = gameActive s /\
  dragonSpawnTimer s' = remove <$> dragonSpawnTimer s.
Proof. cbn. repeat split. Qed.

(** After a game over the R key restarts a scene that stays frozen: the
    flag is still false, so [update] and [jump] return at once. *)
Lemma restart_after_gameOver (s : RunnerScene) (ls : localStorage) :
  let s' := keydown_R (snd (gameOver (s, ls))) (fst (gameOver (s, ls))) in
  gameActive s' = false /\
  score s' = score s /\
  level s' = level s /\
  (forall delta, update delta s' = s') /\
  jump s' = s'.
Proof.
  intros s'. subst s'. rewrite gameOver_scene.
  generalize (snd (gameOver (s, ls))). intros ls'.
  change (keydown_R ls' (over s)) with (restart ls' (over s)).
  assert (A : gameActive (restart ls' (over s)) = false) by reflexivity.
  split; [exact A|]. split; [reflexivity|]. split; [reflexivity|]. split.
  - intros delta. apply update_inactive, A.
  - unfold jump. rewrite A. reflexivity.
Qed.

(** C7, at the input where the code departs from it.  A game started on an
    empty store runs 25 ticks of 1000 ms (score 250, level 2, the dragon
    timer created), ends in [gameOver], and the R key is pressed.  Game
    over did set [gameActive] to false and removed the spawn timer; the
    restart emptied the groups and made a new spawn timer; but [score],
    [level], [gameActive] and [dragonSpawnTimer] are not the initial
    [0], [1], [true] and unset: they are [250], [2], [false] and the dead
    timer of the finished game, and a further tick changes nothing. *)
Theorem C7_restart_keeps_the_finished_game :
  let played := Nat.iter 25 (update 1000) (start ∅) in
  let over := gameOver (played, ∅) in
  let again := keydown_R (snd over) (fst over) in
  (gameActive (fst over) = false /\ te_live <$> spawnTimer (fst over) = Some false) /\
  (obstacles again = [] /\ dragons again = [] /\ te_live <$> spawnTimer again = Some true) /\
  (score (start ∅) == 0 /\ score again == 250) /\
  (level (start ∅) = 1%Z /\ level again = 2%Z) /\
  (gameActive (start ∅) = true /\ gameActive again = false) /\
  (dragonSpawnTimer (start ∅) = None /\
   te_live <$> dragonSpawnTimer again = Some false) /\
  update 1000 again = again.
Proof.
  vm_compute. repeat split; reflexivity.
Qed.


(** ** [parseInt] reads back what [String] writes *)

Lemma digit_of_pretty_N_char (d : N) :
  (d < 10)%N ->
  digit_of (pretty_N_char d) = Some (Z.of_N d) /\ is_decimal (pretty_N_char d) = true.
Proof.
  intros H.
  assert (d = 0 \/ d = 1 \/ d = 2 \/ d = 3 \/ d = 4 \/ d = 5 \/ d = 6 \/ d = 7 \/
          d = 8 \/ d = 9)%N as E by lia.
  repeat (destruct E as [->|E]; [split; reflexivity|]). subst d. split; reflexivity.
Qed.

Lemma digits_pretty_N_go (x : N) (s : string) :
  (0 < x)%N ->
  digits 10 (pretty_N_go x s) None = digits 10 s (Some (Z.of_N x)).
Proof.
  revert s. induction (N.lt_wf_0 x) as [x _ IH]. intros s Hx.
  rewrite pretty_N_go_step by exact Hx.
  destruct (digit_of_pretty_N_char (x `mod` 10)%N) as (D & _);
    [apply N.mod_lt; lia|].
  assert (M : (Z.of_N (x `mod` 10)%N < 10)%Z).
  { pose proof (N.mod_lt x 10 ltac:(lia)). lia. }
  destruct (N.eq_dec (x `div` 10)%N 0%N) as [E|E].
  - rewrite E, pretty_N_go_0. cbn [digits]. rewrite D.
    apply Z.ltb_lt in M. rewrite M. do 2 f_equal.
    pose proof (N.div_mod x 10 ltac:(lia)) as Hdm.
    rewrite E, N.mul_0_r, N.add_0_l in Hdm. rewrite <- Hdm. reflexivity.
  - rewrite IH; [|apply N.div_lt; [exact Hx|reflexivity]|apply N.neq_0_lt_0, E].
    cbn [digits]. rewrite D. apply Z.ltb_lt in M. rewrite M. do 2 f_equal.
    pose proof (N.div_mod x 10 ltac:(lia)) as Hdm.
    rewrite Hdm at 3. rewrite N2Z.inj_add, N2Z.inj_mul. lia.
Qed.

Lemma pretty_N_go_decimal (x : N) (s : string) :
  (0 < x)%N -> all_decimal s = true ->
  all_decimal (pretty_N_go x s) = true /\
  exists c r, pretty_N_go x s = String c r.
Proof.
  revert s. induction (N.lt_wf_0 x) as [x _ IH]. intros s Hx Hs.
  rewrite pretty_N_go_step by exact Hx.
  destruct (digit_of_pretty_N_char (x `mod` 10)%N) as (_ & D);
    [apply N.mod_lt; lia|].
  assert (Hs' : all_decimal (String (pretty_N_char (x `mod` 10)%N) s) = true)
    by (cbn [all_decimal]; rewrite D, Hs; reflexivity).
  destruct (N.eq_dec (x `div` 10)%N 0%N) as [E|E].
  - rewrite E, pretty_N_go_0. split; [exact Hs'|]. eexists _, _. reflexivity.
  - apply IH; [apply N.div_lt; [exact Hx|reflexivity]|apply N.neq_0_lt_0, E|exact Hs'].
Qed.

Lemma is_decimal_plain (c : ascii) :
  is_decimal c = true ->
  is_space c = false /\ Ascii.eqb c "-" = false /\ Ascii.eqb c "+" = false /\
  is_x c = false /\ (code c < 194)%Z.
Proof.
  destruct c as [[] [] [] [] [] [] [] []]; vm_compute; intros H;
    try discriminate; repeat split.
Qed.

(** Nothing is trimmed off a text that starts with an ASCII character
    other than white space. *)
Lemma trim_start_plain (a : ascii) (r : string) :
  is_space a = false -> (code a < 194)%Z -> trim_start (String a r) = String a r.
Proof.
  intros Sp Lt. cbn [trim_start]. rewrite Sp.
  destruct r as [|b r2]; [reflexivity|].
  unfold is_space2. rewrite (proj2 (Z.eqb_neq (code a) 194)) by lia. cbn [andb].
  destruct r2 as [|c r3]; [reflexivity|].
  unfold is_space3.
  rewrite (proj2 (Z.eqb_neq (code a) 225)), (proj2 (Z.eqb_neq (code a) 226)),
    (proj2 (Z.eqb_neq (code a) 227)), (proj2 (Z.eqb_neq (code a) 239)) by lia.
  reflexivity.
Qed.

(** ** Safe integers

    Up to 2^53 - 1 every natural number is a double, and no other number
    reads back as it, so [String] writes it in full. *)

Section SafeIntegers.

Local Open Scope Z_scope.

Lemma to_double_safe (n : Z) :
  (0 <= n <= MAX_SAFE_INTEGER)%Z -> to_double n = n.
Proof.
  intros H. unfold to_double. cbv zeta.
  destruct (Z.leb_spec (Z.log2 n + 1) 53) as [_|L]; [reflexivity|].
  exfalso. unfold MAX_SAFE_INTEGER in H.
  destruct (Z.eq_dec n 0) as [->|N]; [cbn in L; lia|].
  assert (B : (Z.log2 n < 53)%Z).
  { apply Z.log2_lt_pow2; [lia|]. change (2 ^ 53)%Z with 9007199254740992%Z. lia. }
  lia.
Qed.

Lemma overflows_safe (n : Z) : (0 <= n <= MAX_SAFE_INTEGER)%Z -> overflows n = false.
Proof.
  intros H. apply Z.leb_gt. eapply Z.le_lt_trans; [apply H|]. reflexivity.
Qed.

Lemma to_double_beyond (n : Z) :
  (MAX_SAFE_INTEGER < n)%Z -> (MAX_SAFE_INTEGER < to_double n)%Z.
Proof.
  intros H. unfold to_double. cbv zeta. unfold MAX_SAFE_INTEGER in *.
  destruct (Z.leb_spec (Z.log2 n + 1) 53) as [_|L]; [exact H|].
  set (sh := (Z.log2 n + 1 - 53)%Z).
  assert (Hsh : (1 <= sh)%Z) by (subst sh; lia).
  destruct (Z.log2_spec n ltac:(lia)) as (Lo & _).
  assert (E : (2 ^ Z.log2 n = 2 ^ 52 * 2 ^ sh)%Z).
  { rewrite <- Z.pow_add_r by lia. f_equal. subst sh. lia. }
  assert (U : (2 <= 2 ^ sh)%Z).
  { change 2%Z with (2 ^ 1)%Z at 1. apply Z.pow_le_mono_r; lia. }
  assert (Q : (2 ^ 52 <= n / 2 ^ sh)%Z).
  { apply Z.div_le_lower_bound; [lia|]. rewrite Z.mul_comm, <- E. exact Lo. }
  change (2 ^ 52)%Z with 4503599627370496%Z in Q.
  set (q := (n / 2 ^ sh)%Z) in *. set (u := (2 ^ sh)%Z) in *.
  assert (K : forall q', (q <= q')%Z -> (9007199254740991 < q' * u)%Z) by (intros; nia).
  destruct (_ <? _)%Z; [apply K; lia|].
  destruct (_ <? _)%Z; [apply K; lia|].
  destruct (Z.even q); apply K; lia.
Qed.

Lemma to_double_only (c v : Z) :
  (0 <= c)%Z -> (0 <= v <= MAX_SAFE_INTEGER)%Z -> to_double c = v -> c = v.
Proof.
  intros Hc Hv E. destruct (Z.le_gt_cases c MAX_SAFE_INTEGER) as [L|G].
  - rewrite to_double_safe in E by lia. exact E.
  - pose proof (to_double_beyond c G). lia.
Qed.

Lemma nearest_reads_back (v k c : Z) :
  (0 <= v)%Z -> nearest v k = Some c -> (0 <= c)%Z /\ to_double c = v.
Proof.
  intros Hv. unfold nearest. cbv zeta.
  set (scale := (10 ^ (decimal_length v - k))%Z).
  assert (Hs : (0 <= scale)%Z) by (subst scale; apply Z.pow_nonneg; lia).
  assert (Hlo : (0 <= v / scale * scale)%Z).
  { destruct (Z.eq_dec scale 0) as [->|N]; [lia|].
    apply Z.mul_nonneg_nonneg; [apply Z.div_pos; lia|exact Hs]. }
  destruct (Z.eqb_spec (to_double (v / scale * scale)) v) as [E1|_];
    destruct (Z.eqb_spec (to_double (v / scale * scale + scale)) v) as [E2|_];
    intros [= <-]; try (split; [lia|assumption]).
  destruct (_ <? _)%Z; [split; [lia|assumption]|].
  destruct (_ <? _)%Z; [split; [lia|assumption]|].
  destruct (Z.even _); split; (lia || assumption).
Qed.

Lemma shortest_from_reads_back (v k : Z) (fuel : nat) :
  (0 <= v)%Z -> to_double v = v ->
  (0 <= shortest_from v k fuel)%Z /\ to_double (shortest_from v k fuel) = v.
Proof.
  intros Hv E. revert k. induction fuel as [|fuel IH]; intros k; [split; assumption|].
  cbn [shortest_from]. destruct (nearest v k) as [c|] eqn:N; [|apply IH].
  apply (nearest_reads_back v k c Hv N).
Qed.

Lemma shortest_safe (v : Z) : (0 <= v <= MAX_SAFE_INTEGER)%Z -> shortest v = v.
Proof.
  intros H.
  destruct (shortest_from_reads_back v 1 17 ltac:(lia) (to_double_safe v H)) as (P & E).
  apply to_double_only; assumption.
Qed.

Lemma String_of_int_safe (z : Z) :
  (Z.abs z <= MAX_SAFE_INTEGER)%Z -> String_of_int z = pretty z.
Proof.
  intros H. unfold String_of_int. cbv zeta.
  assert (Ha : (0 <= Z.abs z <= MAX_SAFE_INTEGER)%Z) by lia.
  rewrite (to_double_safe _ Ha), (shortest_safe _ Ha).
  pose proof (overflows_safe _ Ha) as F.
  assert (T : (Z.abs z <? 10 ^ 21)%Z = true).
  { apply Z.ltb_lt. eapply Z.le_lt_trans; [exact H|]. reflexivity. }
  rewrite F, T. destruct z as [|p|p]; reflexivity.
Qed.

End SafeIntegers.

(** A non-empty text of decimal digits is read in radix 10, whole, and
    exactly when its value is a safe integer. *)
Lemma parseInt_decimal (s : string) (n : Z) :
  (0 <= n <= MAX_SAFE_INTEGER)%Z ->
  s <> ""%string -> all_decimal s = true -> digits 10 s None = Some n ->
  parseInt s = Num (inject_Z n).
Proof.
  intros Hs Hne Hd Hn. destruct s as [|c r]; [contradiction|].
  cbn [all_decimal] in Hd. apply andb_true_iff in Hd as (Hc & Hr).
  destruct (is_decimal_plain c Hc) as (Sp & Mi & Pl & _ & Lt).
  unfold parseInt. rewrite (trim_start_plain c r Sp Lt), Mi, Pl.
  assert (P : (match String c r with
               | String c0 (String c1 r0) =>
                   if Ascii.eqb c0 "0" && is_x c1 then (16%Z, r0) else (10%Z, String c r)
               | _ => (10%Z, String c r)
               end) = (10%Z, String c r)).
  { destruct r as [|c1 r0]; [reflexivity|].
    cbn [all_decimal] in Hr. apply andb_true_iff in Hr as (Hc1 & _).
    destruct (is_decimal_plain c1 Hc1) as (_ & _ & _ & X & _).
    rewrite X, andb_false_r. reflexivity. }
  rewrite P, Hn. cbv zeta. rewrite (to_double_safe n Hs), (overflows_safe n Hs).
  do 2 f_equal; lia.
Qed.

Lemma parseInt_minus_decimal (s : string) (n : Z) :
  (0 <= n <= MAX_SAFE_INTEGER)%Z ->
  s <> ""%string -> all_decimal s = true -> digits 10 s None = Some n ->
  parseInt (String "-" s) = Num (inject_Z (- n)).
Proof.
  intros Hs Hne Hd Hn. destruct s as [|c r]; [contradiction|].
  cbn [all_decimal] in Hd. apply andb_true_iff in Hd as (Hc & Hr).
  unfold parseInt.
  rewrite (trim_start_plain "-" (String c r) eq_refl) by (vm_compute; reflexivity).
  change (Ascii.eqb "-" "-") with true. cbv beta iota zeta.
  assert (P : (match r with
               | EmptyString => (10%Z, String c r)
               | String c1 r0 =>
                   if Ascii.eqb c "0" && is_x c1 then (16%Z, r0) else (10%Z, String c r)
               end) = (10%Z, String c r)).
  { destruct r as [|c1 r0]; [reflexivity|].
    cbn [all_decimal] in Hr. apply andb_true_iff in Hr as (Hc1 & _).
    destruct (is_decimal_plain c1 Hc1) as (_ & _ & _ & X & _).
    rewrite X, andb_false_r. reflexivity. }
  rewrite P, Hn. cbv zeta. rewrite (to_double_safe n Hs), (overflows_safe n Hs).
  do 2 f_equal; lia.
Qed.

Lemma parseInt_pretty (z : Z) :
  (Z.abs z <= MAX_SAFE_INTEGER)%Z -> parseInt (pretty z) = Num (inject_Z z).
Proof.
  intros Hz. unfold pretty, pretty_Z. destruct z as [|p|p].
  - reflexivity.
  - unfold pretty, pretty_positive, pretty, pretty_N.
    destruct (decide _) as [E|_]; [discriminate|].
    destruct (pretty_N_go_decimal (N.pos p) "" eq_refl eq_refl) as (D & c & r & E).
    apply parseInt_decimal; [lia|rewrite E; discriminate|exact D|].
    rewrite digits_pretty_N_go by reflexivity. reflexivity.
  - unfold pretty, pretty_positive, pretty, pretty_N.
    destruct (decide _) as [E|_]; [discriminate|].
    destruct (pretty_N_go_decimal (N.pos p) "" eq_refl eq_refl) as (D & c & r & E).
    apply (parseInt_minus_decimal _ (Z.pos p)); [lia|rewrite E; discriminate|exact D|].
    rewrite digits_pretty_N_go by reflexivity. reflexivity.
Qed.

(** [parseInt] reads back what [String] writes for a safe integer. *)
Lemma parseInt_String_of_int (z : Z) :
  (Z.abs z <= MAX_SAFE_INTEGER)%Z -> parseInt (String_of_int z) = Num (inject_Z z).
Proof. intros H. rewrite String_of_int_safe by exact H. apply parseInt_pretty, H. Qed.

(** ** The stored highscore *)

Lemma read_highscore_missing (ls : localStorage) :
  getItem highscoreKey ls = None -> read_highscore ls = Num 0.
Proof. intros H. unfold read_highscore. rewrite H. reflexivity. Qed.

Lemma read_highscore_empty (ls : localStorage) :
  getItem highscoreKey ls = Some ""%string -> read_highscore ls = Num 0.
Proof. intros H. unfold read_highscore. rewrite H. reflexivity. Qed.

Lemma String_of_int_not_empty (z : Z) :
  (Z.abs z <= MAX_SAFE_INTEGER)%Z -> String.eqb (String_of_int z) "" = false.
Proof.
  intros Hz. pose proof (parseInt_String_of_int z Hz) as P.
  destruct (String.eqb_spec (String_of_int z) ""%string) as [E|]; [|reflexivity].
  rewrite E in P. discriminate.
Qed.

(** A store that holds the text of a safe integer (as [gameOver] writes
    it) reads as that integer, and after [gameOver] it reads as the larger
    of that integer and the floor of the score. *)
Lemma read_highscore_numeric (ls : localStorage) (h : Z) :
  (Z.abs h <= MAX_SAFE_INTEGER)%Z ->
  getItem highscoreKey ls = Some (String_of_int h) ->
  read_highscore ls = Num (inject_Z h).
Proof.
  intros Hh H. unfold read_highscore. rewrite H. unfold or_default.
  rewrite String_of_int_not_empty by exact Hh. apply parseInt_String_of_int, Hh.
Qed.

Lemma gameOver_stores_max (s : RunnerScene) (ls : localStorage) (h : Z) :
  (Z.abs h <= MAX_SAFE_INTEGER)%Z -> (Z.abs (Qfloor (score s)) <= MAX_SAFE_INTEGER)%Z ->
  getItem highscoreKey ls = Some (String_of_int h) ->
  read_highscore (snd (gameOver (s, ls))) = Num (inject_Z (Z.max (Qfloor (score s)) h)).
Proof.
  intros Hh Hs H. pose proof (read_highscore_numeric ls h Hh H) as Rd.
  cbn [gameOver snd]. cbv zeta. cbn [score set_gameActive set_spawnTimer set_physicsPaused].
  rewrite Rd. unfold js_gt, Qltb. cbn [Qnum inject_Z Qden].
  rewrite !Z.mul_1_r.
  destruct (Z.ltb_spec h (Qfloor (score s))) as [L|L]; cbn [snd].
  - rewrite (read_highscore_numeric _ (Qfloor (score s)) Hs).
    + f_equal. f_equal. lia.
    + unfold getItem, setItem. apply lookup_insert_eq.
  - rewrite Rd. do 2 f_equal. lia.
Qed.

Lemma gameOver_stores_first (s : RunnerScene) (ls : localStorage) :
  (Z.abs (Qfloor (score s)) <= MAX_SAFE_INTEGER)%Z ->
  getItem highscoreKey ls = None ->
  read_highscore (snd (gameOver (s, ls))) = Num (inject_Z (Z.max (Qfloor (score s)) 0)).
Proof.
  intros Hs H. pose proof (read_highscore_missing ls H) as Rd.
  cbn [gameOver snd]. cbv zeta. cbn [score set_gameActive set_spawnTimer set_physicsPaused].
  rewrite Rd. unfold js_gt, Qltb. cbn [Qnum inject_Z Qden].
  rewrite !Z.mul_1_r. change (0 * 1)%Z with 0%Z.
  destruct (Z.ltb_spec 0 (Qfloor (score s))) as [L|L]; cbn [snd].
  - rewrite (read_highscore_numeric _ (Qfloor (score s)) Hs).
    + f_equal. f_equal. lia.
    + unfold getItem, setItem. apply lookup_insert_eq.
  - rewrite Rd. change (Num 0) with (Num (inject_Z 0)). do 2 f_equal. lia.
Qed.

(** No comparison with [NaN] holds: a stored value that reads as [NaN] is
    never replaced. *)
Lemma gameOver_NaN (s : RunnerScene) (ls : localStorage) :
  read_highscore ls = NaN -> snd (gameOver (s, ls)) = ls.
Proof. intros H. cbn. rewrite H. reflexivity. Qed.

(** C8, at the input where the code departs from it.  The store holds the
    non-numeric text [abc] under the highscore key, and the game ends
    after one tick of 4250 ms, with score 42.5.  Reading the key gives
    [NaN], not zero, both in [create] (the text shown) and in [gameOver];
    the comparison with [NaN] fails and the store still holds [abc]
    afterwards, not the maximum 42.  With the key missing the read gives
    zero and the store ends up holding 42. *)
Theorem C8_corrupt_highscore_reads_NaN :
  let corrupt : localStorage := {[ highscoreKey := "abc"%string ]} in
  let s := update 4250 (start corrupt) in
  score s == 42.5 /\
  read_highscore corrupt = NaN /\
  highscoreText s = NaN /\
  snd (gameOver (s, corrupt)) = corrupt /\
  read_highscore ∅ = Num 0 /\
  snd (gameOver (update 4250 (start ∅), ∅)) = {[ highscoreKey := "42"%string ]}.
Proof.
  cbv zeta. repeat split; vm_compute; reflexivity.
Qed.
End RunnerFacts.

(** * Facts about the traffic-light cycle *)

Module LightFacts.

Import Light.
Local Open Scope Z_scope.

Lemma next_cycle (st : LightState) : next (next (next st)) = st.
Proof. destruct st; reflexivity. Qed.

Lemma phase_succ (n : nat) : phase (S n) = next (phase n).
Proof.
  unfold phase.
  replace (S n) with (n + 1)%nat by lia.
  rewrite Nat.Div0.add_mod.
  pose proof (Nat.mod_upper_bound n 3 ltac:(lia)) as Hb.
  destruct (n mod 3)%nat as [|[|[|k]]]; try reflexivity. lia.
Qed.

Lemma phase_period (n : nat) : phase (n + 3) = phase n.
Proof.
  replace (n + 3)%nat with (S (S (S n))) by lia.
  rewrite !phase_succ. apply next_cycle.
Qed.

Lemma elapsed_period (n : nat) : elapsed (n + 3) = elapsed n + 12500.
Proof.
  replace (n + 3)%nat with (S (S (S n))) by lia.
  cbn [elapsed]. rewrite !phase_succ.
  destruct (phase n); cbn; lia.
Qed.

(** A timeout that is not due does not fire. *)
Lemma resume_early (now due : Z) (st : LightState) (c : LightCycle) :
  awaiting c = Some (due, st) -> now < due -> resume now c = c.
Proof.
  intros H Hlt. unfold resume. rewrite H.
  apply Z.ltb_lt in Hlt. rewrite Hlt. reflexivity.
Qed.

(** A running cycle whose timeout fires, at or after the time it is due,
    moves to the next state and is running again. *)
Lemma resume_running (now : Z) (c : LightCycle) :
  running c -> lightStart c + LIGHT_DURATIONS (lightState c) <= now ->
  let c' := resume now c in
  lightState c' = next (lightState c) /\ lightStart c' = now /\ running c'.
Proof.
  intros (Hm & Hd & Ha) Hdue. unfold resume. rewrite Ha.
  apply Z.ltb_ge in Hdue. rewrite Hdue, Hm.
  cbn. repeat split. exact Hm.
Qed.

Lemma mount_running (now : Z) : running (mount now).
Proof. repeat split. Qed.

(** Firing or not, [resume] and [poll] keep a running cycle running: there
    is no state in which the cycle has stopped. *)
Lemma resume_keeps_running (now : Z) (c : LightCycle) :
  running c -> running (resume now c).
Proof.
  intros R. destruct (Z.lt_ge_cases now (lightStart c + LIGHT_DURATIONS (lightState c)))
    as [Hlt|Hge].
  - destruct R as (Hm & Hd & Ha). rewrite (resume_early _ _ _ _ Ha Hlt).
    repeat split; assumption.
  - apply (resume_running now c R Hge).
Qed.

Lemma poll_keeps_running (now : Z) (c : LightCycle) :
  running c -> running (poll now c).
Proof.
  intros (Hm & Hd & Ha). unfold poll. rewrite Hm. repeat split; assumption.
Qed.

(** The poll reads the authoritative state and writes the time left only. *)
Lemma poll_reads_only (now : Z) (c : LightCycle) :
  lightState (poll now c) = lightState c /\
  lightStart (poll now c) = lightStart c /\
  lightDuration (poll now c) = lightDuration c /\
  awaiting (poll now c) = awaiting c.
Proof. unfold poll. destruct (mounted c); repeat split. Qed.

(** Under a punctual timer the [n]-th state of a cycle mounted at [now] is
    [phase n], it starts [elapsed n] after the mount, and the cycle is
    running. *)
Lemma punctual_cycle (now : Z) (n : nat) :
  let c := Nat.iter n punctual (mount now) in
  lightState c = phase n /\ lightStart c = now + elapsed n /\ running c.
Proof.
  induction n as [|n IH].
  - cbn. repeat split. lia.
  - cbv zeta in *. rewrite Nat.iter_succ.
    destruct IH as (Hs & Ht & R).
    set (c := Nat.iter n punctual (mount now)) in *.
    pose proof R as (Hm & Hd & Ha).
    unfold punctual. rewrite Ha.
    destruct (resume_running (lightStart c + LIGHT_DURATIONS (lightState c)) c R
                ltac:(lia)) as (Hs' & Ht' & R').
    split; [rewrite Hs', Hs, phase_succ; reflexivity|].
    split; [rewrite Ht', Ht, Hs; cbn [elapsed]; lia|exact R'].
Qed.
End LightFacts.

(** * Facts about the kinematic driving game *)

Module KinematicFacts.

Import Light Kinematic.
Local Open Scope R_scope.

Lemma Rltb_lt (a b : R) : Rltb a b = true <-> a < b.
Proof.
  unfold Rltb. destruct (Rlt_dec a b); split; intros;
    (assumption || congruence || reflexivity || contradiction).
Qed.

Lemma Rltb_ge (a b : R) : Rltb a b = false <-> b <= a.
Proof.
  unfold Rltb. destruct (Rlt_dec a b); split; intros; try congruence; try reflexivity; lra.
Qed.

(** ** What the setters of the round leave alone *)

Lemma setStatus_status (now : Z) (st : Status) (g : Game) :
  status (setStatus now st g) = st.
Proof. unfold setStatus. destruct (decide _) as [E|E]; [symmetry; exact E|reflexivity]. Qed.

Lemma setStatus_frame (now : Z) (st : Status) (g : Game) :
  let g' := setStatus now st g in
  carRef g' = carRef g /\ physics g' = physics g /\ crossed g' = crossed g /\
  light g' = light g /\ score g' = score g /\ paused g' = paused g /\ keys g' = keys g.
Proof. unfold setStatus. destruct (decide _); repeat split. Qed.

(** The timeout of the auto-reset effect after [setStatus]: untouched when
    the status does not change, set 4000 ms ahead on entering [passed] or
    [failed] from another status, cleared on entering [playing]. *)
Lemma setStatus_timer (now : Z) (st : Status) (g : Game) :
  resetTimer (setStatus now st g)
  = if decide (st = status g) then resetTimer g
    else if terminal st then Some (now + 4000)%Z else None.
Proof. unfold setStatus. destruct (decide _); reflexivity. Qed.

Lemma onCrossStopLine_red (now : Z) (g : Game) :
  lightState (light g) = red ->
  status (onCrossStopLine now g) = failed /\ score (onCrossStopLine now g) = score g.
Proof.
  intros H. unfold onCrossStopLine. destruct (decide _) as [_|N]; [|contradiction].
  split; [apply setStatus_status|apply setStatus_frame].
Qed.

Lemma onCrossStopLine_not_red (now : Z) (g : Game) :
  lightState (light g) <> red ->
  status (onCrossStopLine now g) = passed /\
  score (onCrossStopLine now g) = (score g + 1)%Z.
Proof.
  intros H. unfold onCrossStopLine. destruct (decide _) as [E|_]; [contradiction|].
  split; [apply setStatus_status|].
  destruct (setStatus_frame now passed (setScore (fun s => (s + 1)%Z) g))
    as (_ & _ & _ & _ & S & _).
  rewrite S. reflexivity.
Qed.

Lemma onCrossStopLine_frame (now : Z) (g : Game) :
  let g' := onCrossStopLine now g in
  carRef g' = carRef g /\ physics g' = physics g /\ crossed g' = crossed g /\
  light g' = light g /\ paused g' = paused g /\ keys g' = keys g.
Proof.
  unfold onCrossStopLine. destruct (decide _).
  - destruct (setStatus_frame now failed g) as (A & B & C & D & _ & E & F).
    repeat split; assumption.
  - destruct (setStatus_frame now passed (setScore (fun s => (s + 1)%Z) g))
      as (A & B & C & D & _ & E & F).
    repeat split; assumption.
Qed.

Lemma onBarrierHit_status (now : Z) (g : Game) :
  status (onBarrierHit now g) = match status g with playing => failed | st => st end.
Proof.
  unfold onBarrierHit. destruct (decide _) as [E|N].
  - rewrite setStatus_status, E. reflexivity.
  - destruct (status g); [contradiction|reflexivity|reflexivity].
Qed.

Lemma onBarrierHit_frame (now : Z) (g : Game) :
  let g' := onBarrierHit now g in
  carRef g' = carRef g /\ physics g' = physics g /\ crossed g' = crossed g /\
  light g' = light g /\ score g' = score g /\ paused g' = paused g /\ keys g' = keys g.
Proof.
  unfold onBarrierHit. destruct (decide _); [apply setStatus_frame|repeat split].
Qed.

(** ** The frame callback, case by case *)

Lemma useFrame_idle (now : Z) (delta : R) (g : Game) :
  carRef g = None \/ paused g = true -> useFrame now delta g = g.
Proof.
  intros [H|H]; unfold useFrame; [rewrite H; reflexivity|].
  destruct (carRef g); [rewrite H|]; reflexivity.
Qed.

(** The frame that would take the car past a barrier. *)
Lemma useFrame_barrier (now : Z) (delta : R) (g : Game) (mesh : Group) :
  carRef g = Some mesh -> paused g = false ->
  4.5 < Rabs (frame_nx delta g mesh) ->
  useFrame now delta g
  = set_physics {| vx := 0; vz := 0; angle := frame_angle delta g |} (onBarrierHit now g).
Proof.
  intros Hc Hp Hb. unfold useFrame. rewrite Hc, Hp.
  apply Rltb_lt in Hb. unfold frame_nx, frame_v, frame_angle, frame_d in Hb.
  cbv zeta. rewrite Hb. reflexivity.
Qed.

(** Every other frame. *)
Lemma useFrame_free (now : Z) (delta : R) (g : Game) (mesh : Group) :
  carRef g = Some mesh -> paused g = false ->
  Rabs (frame_nx delta g mesh) <= 4.5 ->
  let a := frame_angle delta g in
  let v := frame_v delta g in
  let g1 :=
    setSpeed (magnitude (drive (keys g) (frame_d delta) a (physics g)))
      (set_carRef (Some (place (frame_nx delta g mesh) (frame_nz delta g mesh) a mesh))
         (set_physics {| vx := fst v; vz := snd v; angle := a |} g)) in
  useFrame now delta g
  = if negb (crossed g) && Rltb (frame_nz delta g mesh) 0
    then onCrossStopLine now (set_crossed true g1)
    else g1.
Proof.
  intros Hc Hp Hb. unfold useFrame. rewrite Hc, Hp.
  apply Rltb_ge in Hb. unfold frame_nx, frame_v, frame_angle, frame_d in Hb.
  cbv zeta. rewrite Hb. reflexivity.
Qed.

(** ** The speed cap *)

Lemma magnitude_scale (k : R) (v : R * R) :
  0 <= k -> magnitude (k * fst v, k * snd v) = k * magnitude v.
Proof.
  intros Hk. unfold magnitude. cbn [fst snd].
  replace (k * fst v * (k * fst v) + k * snd v * (k * snd v))
    with (k * k * (fst v * fst v + snd v * snd v)) by ring.
  rewrite sqrt_mult by nra.
  rewrite sqrt_square by exact Hk. reflexivity.
Qed.

(** [cap] rescales both components by one factor [k], [0 < k <= 1]: the
    factor is 1 up to speed 14 and [14 / speed] above it. *)
Lemma cap_uniform (v : R * R) :
  exists k : R,
    0 < k <= 1 /\ cap v = (k * fst v, k * snd v) /\
    (magnitude v <= 14 -> k = 1) /\ (14 < magnitude v -> k = 14 / magnitude v).
Proof.
  unfold cap. fold (magnitude v). destruct (Rltb 14 (magnitude v)) eqn:E.
  - apply Rltb_lt in E. exists (14 / magnitude v).
    assert (0 < 14 / magnitude v) by (apply Rdiv_lt_0_compat; lra).
    assert (14 / magnitude v <= 1).
    { apply (Rmult_le_reg_r (magnitude v)); [lra|].
      unfold Rdiv. rewrite Rmult_assoc, Rinv_l by lra. lra. }
    repeat split; try lra.
    f_equal; field; lra.
  - apply Rltb_ge in E. exists 1. repeat split; try lra.
    rewrite !Rmult_1_l. destruct v; reflexivity.
Qed.

Lemma cap_magnitude (v : R * R) : magnitude (cap v) <= 14.
Proof.
  destruct (cap_uniform v) as (k & (Hk0 & Hk1) & E & H1 & H2).
  rewrite E, magnitude_scale by lra.
  destruct (Rle_lt_dec (magnitude v) 14) as [Hle|Hgt].
  - rewrite (H1 Hle). lra.
  - rewrite (H2 Hgt). unfold Rdiv. rewrite Rmult_assoc, Rinv_l by lra. lra.
Qed.

Lemma frame_d_cap (delta : R) : frame_d delta <= 0.05 /\ frame_d delta <= delta.
Proof. unfold frame_d. split; [apply Rmin_r|apply Rmin_l]. Qed.

Lemma magnitude_zero : magnitude (0, 0) = 0.
Proof.
  unfold magnitude. cbn [fst snd]. rewrite Rmult_0_l, Rplus_0_l. apply sqrt_0.
Qed.

(** ** A car drifting into the right barrier

    The frames of the example states, each lasting 50 ms. *)

Lemma magnitude_x (a : R) : 0 <= a -> magnitude (a, 0) = a.
Proof.
  intros Ha. unfold magnitude. cbn [fst snd].
  rewrite Rmult_0_l, Rplus_0_r. apply sqrt_square, Ha.
Qed.

Lemma drifting_frame :
  frame_d 0.05 = 0.05 /\
  frame_angle 0.05 drifting = 0 /\
  drive (keys drifting) 0.05 0 (physics drifting) = (8.5, 0) /\
  frame_v 0.05 drifting = (8.5, 0).
Proof.
  assert (D : frame_d 0.05 = 0.05) by (unfold frame_d; apply Rmin_left; lra).
  assert (A : frame_angle 0.05 drifting = 0).
  { unfold frame_angle, steer. cbn [physics drifting set_physics set_carRef keys init
      vx vz angle no_keys ArrowLeft ArrowRight b2r].
    destruct (Rltb _ _); ring. }
  assert (V : drive (keys drifting) 0.05 0 (physics drifting) = (8.5, 0)).
  { unfold drive. cbn [physics drifting set_physics set_carRef keys init
      vx vz angle no_keys ArrowUp ArrowDown].
    rewrite Rmax_right by lra. f_equal; lra. }
  repeat split; [exact D|exact A|exact V|].
  unfold frame_v. rewrite A, D, V. unfold cap. fold (magnitude (8.5, 0)).
  rewrite magnitude_x by lra.
  replace (Rltb 14 8.5) with false; [reflexivity|].
  symmetry. apply Rltb_ge. lra.
Qed.

(** The frame of [drifting] hits the barrier: the car stays where it was
    and stands still. *)
Lemma drifting_hits_barrier : 4.5 < Rabs (frame_nx 0.05 drifting drifting_mesh).
Proof.
  destruct drifting_frame as (D & _ & _ & V).
  unfold frame_nx. rewrite V, D. cbn [fst pos_x drifting_mesh].
  rewrite Rabs_right; lra.
Qed.

(** C9 as stated fails on a frame that would cross a barrier.  For
    [drifting], coasting for 50 ms, the stated rules give the velocity
    [10 * max(0, 1 - 3 * 0.05) = 8.5] (below the cap) and the position
    [4.4 + 8.5 * 0.05 = 4.825]; the frame leaves the car at [x = 4.4] with
    velocity 0. *)
Lemma C9_counterexample :
  let g' := useFrame 0 0.05 drifting in
  vx (physics drifting) * Rmax 0 (1 - 3 * Rmin 0.05 0.05) = 8.5 /\
  magnitude (8.5, 0) <= 14 /\
  vx (physics g') = 0 /\
  (pos_x <$> carRef drifting) = Some 4.4 /\
  (pos_x <$> carRef g') = Some 4.4 /\
  4.4 + 8.5 * Rmin 0.05 0.05 = 4.825.
Proof.
  assert (M : Rmin 0.05 0.05 = 0.05) by (apply Rmin_left; lra).
  cbv zeta. rewrite M.
  rewrite (useFrame_barrier 0 0.05 drifting _ eq_refl eq_refl drifting_hits_barrier).
  split; [cbn; rewrite Rmax_right by lra; lra|].
  split; [rewrite magnitude_x; lra|].
  split; [reflexivity|]. split; [reflexivity|].
  split; [|lra].
  destruct (onBarrierHit_frame 0 drifting) as (C & _).
  cbn [carRef set_physics]. rewrite C. reflexivity.
Qed.

(** C9, amended.  A frame of a mounted, unpaused game, with [d] the frame
    time capped at 0.05 s: the heading turns by
    [steer * min(speed * 0.4, 1.4) * d] only above speed 0.2; the velocity
    gains [18 * d] along the heading under throttle, is multiplied by
    [max(0, 1 - 12 d)] under brake and by [max(0, 1 - 3 d)] otherwise; the
    result is rescaled by one factor in (0, 1] so that its magnitude is at
    most 14.  If the position advanced by that velocity times [d] stays
    within the barriers, the car takes that velocity, position and
    heading; otherwise the position is unchanged and the velocity is zero.
    In both cases the speed after the frame is at most 14. *)
Theorem C9_kinematic_frame (now : Z) (delta : R) (g : Game) (mesh : Group) :
  carRef g = Some mesh -> paused g = false ->
  let d := frame_d delta in
  let p := physics g in
  let k := keys g in
  let speed := magnitude (vx p, vz p) in
  let a := frame_angle delta g in
  let v1 := drive k d a p in
  let v := frame_v delta g in
  let g' := useFrame now delta g in
  (d = Rmin delta 0.05 /\ d <= 0.05) /\
  (speed <= 0.2 -> a = angle p) /\
  (0.2 < speed ->
   a = angle p + (b2r (ArrowLeft k) - b2r (ArrowRight k)) * Rmin (speed * 0.4) 1.4 * d) /\
  (ArrowUp k = true -> v1 = (vx p + - sin a * 18 * d, vz p + - cos a * 18 * d)) /\
  (ArrowUp k = false -> ArrowDown k = true ->
   v1 = (vx p * Rmax 0 (1 - 12 * d), vz p * Rmax 0 (1 - 12 * d))) /\
  (ArrowUp k = false -> ArrowDown k = false ->
   v1 = (vx p * Rmax 0 (1 - 3 * d), vz p * Rmax 0 (1 - 3 * d))) /\
  (exists c : R, 0 < c <= 1 /\ v = (c * fst v1, c * snd v1) /\
                 (magnitude v1 <= 14 -> c = 1)) /\
  magnitude v <= 14 /\
  (Rabs (pos_x mesh + fst v * d) <= 4.5 ->
   physics g' = {| vx := fst v; vz := snd v; angle := a |} /\
   exists m', carRef g' = Some m' /\
              pos_x m' = pos_x mesh + fst v * d /\
              pos_z m' = pos_z mesh + snd v * d /\ rot_y m' = a) /\
  (4.5 < Rabs (pos_x mesh + fst v * d) ->
   physics g' = {| vx := 0; vz := 0; angle := a |} /\ carRef g' = Some mesh) /\
  magnitude (vx (physics g'), vz (physics g')) <= 14.
Proof.
  intros Hc Hp d p k speed a v1 v g'.
  assert (Steer1 : speed <= 0.2 -> a = angle p).
  { intros H. subst a. unfold frame_angle, steer.
    change (sqrt (vx (physics g) * vx (physics g) + vz (physics g) * vz (physics g)))
      with speed.
    apply Rltb_ge in H. rewrite H. reflexivity. }
  assert (Steer2 : 0.2 < speed ->
            a = angle p + (b2r (ArrowLeft k) - b2r (ArrowRight k))
                          * Rmin (speed * 0.4) 1.4 * d).
  { intros H. subst a. unfold frame_angle, steer.
    change (sqrt (vx (physics g) * vx (physics g) + vz (physics g) * vz (physics g)))
      with speed.
    apply Rltb_lt in H. rewrite H. reflexivity. }
  assert (Free : Rabs (pos_x mesh + fst v * d) <= 4.5 ->
            physics g' = {| vx := fst v; vz := snd v; angle := a |} /\
            exists m', carRef g' = Some m' /\
                       pos_x m' = pos_x mesh + fst v * d /\
                       pos_z m' = pos_z mesh + snd v * d /\ rot_y m' = a).
  { intros H. subst g'. rewrite (useFrame_free now delta g mesh Hc Hp H). cbv zeta.
    destruct (negb (crossed g) && _).
    - match goal with |- context [onCrossStopLine now ?h] =>
        destruct (onCrossStopLine_frame now h) as (C & P & _) end.
      rewrite P, C. split; [reflexivity|]. eexists. repeat split.
    - split; [reflexivity|]. eexists. repeat split. }
  assert (Hit : 4.5 < Rabs (pos_x mesh + fst v * d) ->
            physics g' = {| vx := 0; vz := 0; angle := a |} /\ carRef g' = Some mesh).
  { intros H. subst g'. rewrite (useFrame_barrier now delta g mesh Hc Hp H).
    split; [reflexivity|].
    destruct (onBarrierHit_frame now g) as (C & _).
    cbn [carRef set_physics]. rewrite C. exact Hc. }
  split; [split; [reflexivity|apply frame_d_cap]|].
  split; [exact Steer1|]. split; [exact Steer2|].
  split; [intros H; subst v1; unfold drive; fold k; rewrite H; reflexivity|].
  split; [intros H1 H2; subst v1; unfold drive; fold k; rewrite H1, H2; reflexivity|].
  split; [intros H1 H2; subst v1; unfold drive; fold k; rewrite H1, H2; reflexivity|].
  split.
  { destruct (cap_uniform v1) as (c & Hc01 & E & H1 & _).
    exists c. repeat split; try apply Hc01; assumption. }
  split; [apply cap_magnitude|].
  split; [exact Free|]. split; [exact Hit|].
  destruct (Rle_lt_dec (Rabs (pos_x mesh + fst v * d)) 4.5) as [H|H].
  - destruct (Free H) as (E & _). rewrite E. cbn [vx vz].
    replace (fst v, snd v) with v by (destruct v; reflexivity). apply cap_magnitude.
  - destruct (Hit H) as (E & _). rewrite E. cbn [vx vz]. rewrite magnitude_zero. lra.
Qed.

(** The frame of [drifting], through C9: it is the barrier case. *)
Lemma C9_witness :
  physics (useFrame 0 0.05 drifting)
  = {| vx := 0; vz := 0; angle := frame_angle 0.05 drifting |} /\
  magnitude (vx (physics (useFrame 0 0.05 drifting)),
             vz (physics (useFrame 0 0.05 drifting))) <= 14.
Proof.
  destruct (C9_kinematic_frame 0 0.05 drifting _ eq_refl eq_refl)
    as (_ & _ & _ & _ & _ & _ & _ & _ & _ & Hit & M).
  split; [|exact M].
  apply Hit. apply drifting_hits_barrier.
Defined.

(** ** [reset] *)

Lemma reset_eq (now : Z) (g : Game) :
  reset now g
  = match carRef g with
    | Some m => set_carRef (Some (respawn m)) (setStatus now playing (set_crossed false g))
    | None => setStatus now playing (set_crossed false g)
    end.
Proof.
  unfold reset. cbv zeta.
  destruct (setStatus_frame now playing (set_crossed false g)) as (C & _).
  cbn [carRef set_crossed] in C. rewrite C.
  destruct (carRef g) as [m|]; [|rewrite C; reflexivity].
  cbn [carRef set_carRef]. unfold respawn.
  destruct (__physics m) eqn:E; cbn [__physics spawn]; unfold spawn; rewrite E;
    reflexivity.
Qed.

Lemma reset_round (now : Z) (g : Game) :
  let g' := reset now g in
  status g' = playing /\ crossed g' = false /\ light g' = light g /\
  score g' = score g /\ physics g' = physics g /\ paused g' = paused g /\
  keys g' = keys g.
Proof.
  cbv zeta. rewrite reset_eq.
  destruct (setStatus_frame now playing (set_crossed false g))
    as (C & P & X & L & S & U & K).
  pose proof (setStatus_status now playing (set_crossed false g)) as St.
  destruct (carRef g); cbn [status crossed light score physics paused keys set_carRef];
    repeat split; assumption.
Qed.

(** The car after [reset]: at the spawn position, unrotated. *)
Lemma reset_car (now : Z) (g : Game) :
  carRef (reset now g) = respawn <$> carRef g.
Proof.
  rewrite reset_eq.
  destruct (setStatus_frame now playing (set_crossed false g)) as (C & _).
  destruct (carRef g) eqn:E; [reflexivity|].
  rewrite C. cbn [carRef set_crossed]. rewrite E. reflexivity.
Qed.

(** The timeout after [reset]: entering [playing] clears it, and a round
    that was [playing] already keeps what it had (none, see
    [timer_matches_status]). *)
Lemma reset_timer (now : Z) (g : Game) :
  resetTimer (reset now g) = if decide (playing = status g) then resetTimer g else None.
Proof.
  rewrite reset_eq.
  pose proof (setStatus_timer now playing (set_crossed false g)) as T.
  cbn [status set_crossed resetTimer terminal] in T.
  destruct (carRef g); cbn [resetTimer set_carRef]; exact T.
Qed.

(** ** Invariants of the mounted game *)

Ltac frame_cases now delta g :=
  let mesh := fresh "mesh" in
  let Hc := fresh "Hc" in
  let Hp := fresh "Hp" in
  let Hb := fresh "Hb" in
  destruct (carRef g) as [mesh|] eqn:Hc;
  [ destruct (paused g) eqn:Hp;
    [ rewrite (useFrame_idle now delta g (or_intror Hp))
    | destruct (Rle_lt_dec (Rabs (frame_nx delta g mesh)) 4.5) as [Hb|Hb];
      [ rewrite (useFrame_free now delta g mesh Hc Hp Hb); cbv zeta
      | rewrite (useFrame_barrier now delta g mesh Hc Hp Hb) ] ]
  | rewrite (useFrame_idle now delta g (or_introl Hc)) ].

Lemma keydown_frame (key : string) (g : Game) :
  let g' := keydown key g in
  carRef g' = carRef g /\ physics g' = physics g /\ crossed g' = crossed g /\
  light g' = light g /\ status g' = status g /\ score g' = score g /\
  resetTimer g' = resetTimer g.
Proof.
  unfold keydown. destruct (is_arrow key); [repeat split|].
  destruct (is_p key); repeat split.
Qed.

Lemma keyup_frame (key : string) (g : Game) :
  let g' := keyup key g in
  carRef g' = carRef g /\ physics g' = physics g /\ crossed g' = crossed g /\
  light g' = light g /\ status g' = status g /\ score g' = score g /\
  resetTimer g' = resetTimer g.
Proof. unfold keyup. destruct (is_arrow key); repeat split. Qed.

Lemma within_barriers_step (now : Z) (e : Event) (g : Game) :
  within_barriers g -> within_barriers (step now e g).
Proof.
  intros W. destruct e as [delta|key|key| | | |]; cbn [step].
  - frame_cases now delta g; try exact W.
    + destruct (negb (crossed g) && _).
      * intros m. match goal with |- context [onCrossStopLine now ?h] =>
          destruct (onCrossStopLine_frame now h) as (C & _) end.
        rewrite C. cbn [carRef set_crossed setSpeed set_carRef].
        intros [= <-]. exact Hb.
      * intros m. cbn [carRef setSpeed set_carRef]. intros [= <-]. exact Hb.
    + intros m. destruct (onBarrierHit_frame now g) as (C & _).
      cbn [carRef set_physics]. rewrite C. apply W.
  - intros m. destruct (keydown_frame key g) as (C & _). rewrite C. apply W.
  - intros m. destruct (keyup_frame key g) as (C & _). rewrite C. apply W.
  - intros m. rewrite reset_car. destruct (carRef g); [|discriminate].
    intros [= <-]. cbn. rewrite Rabs_R0. lra.
  - exact W.
  - exact W.
  - unfold autoReset. destruct (resetTimer g); [|exact W].
    destruct (_ <? _)%Z; [exact W|].
    intros m. rewrite reset_car. destruct (carRef g); [|discriminate].
    intros [= <-]. cbn. rewrite Rabs_R0. lra.
Qed.

Lemma flagged_step (now : Z) (e : Event) (g : Game) :
  flagged g -> flagged (step now e g).
Proof.
  intros F. destruct e as [delta|key|key| | | |]; cbn [step].
  - frame_cases now delta g; try exact F.
    + destruct (crossed g) eqn:X; cbn [negb andb].
      * intros m _ _. exact X.
      * destruct (Rltb (frame_nz delta g mesh) 0) eqn:Z.
        -- intros m _ _.
           match goal with |- context [onCrossStopLine now ?h] =>
             destruct (onCrossStopLine_frame now h) as (_ & _ & C & _) end.
           rewrite C. reflexivity.
        -- intros m. cbn [carRef setSpeed set_carRef crossed]. intros [= <-].
           cbn [pos_z place]. apply Rltb_ge in Z. lra.
    + intros m. destruct (onBarrierHit_frame now g) as (C & _ & X & _).
      cbn [carRef crossed set_physics]. rewrite C, X. apply F.
  - intros m. destruct (keydown_frame key g) as (C & _ & X & _). rewrite C, X. apply F.
  - intros m. destruct (keyup_frame key g) as (C & _ & X & _). rewrite C, X. apply F.
  - intros m. rewrite reset_car. destruct (carRef g); [|discriminate].
    intros [= <-]. cbn. lra.
  - exact F.
  - exact F.
  - unfold autoReset. destruct (resetTimer g); [|exact F].
    destruct (_ <? _)%Z; [exact F|].
    intros m. rewrite reset_car. destruct (carRef g); [|discriminate].
    intros [= <-]. cbn. lra.
Qed.

Lemma resolved_step (now : Z) (e : Event) (g : Game) :
  resolved g -> resolved (step now e g).
Proof.
  intros Rs. destruct e as [delta|key|key| | | |]; cbn [step].
  - frame_cases now delta g; try exact Rs.
    + destruct (crossed g) eqn:X; cbn [negb andb]; [exact (fun _ => Rs X)|].
      destruct (Rltb (frame_nz delta g mesh) 0).
      * intros _.
        match goal with |- context [onCrossStopLine now ?h] =>
          destruct (decide (lightState (light h) = red)) as [L|L];
          [ destruct (onCrossStopLine_red now h L) as (S & _)
          | destruct (onCrossStopLine_not_red now h L) as (S & _) ] end;
          rewrite S; discriminate.
      * unfold resolved. cbn [crossed setSpeed set_carRef set_physics].
        rewrite X. discriminate.
    + destruct (onBarrierHit_frame now g) as (_ & _ & X & _).
      unfold resolved. cbn [crossed status set_physics].
      rewrite X, onBarrierHit_status. intros H. specialize (Rs H).
      destruct (status g); [contradiction|discriminate|discriminate].
  - destruct (keydown_frame key g) as (_ & _ & X & _ & S & _).
    unfold resolved. rewrite X, S. exact Rs.
  - destruct (keyup_frame key g) as (_ & _ & X & _ & S & _).
    unfold resolved. rewrite X, S. exact Rs.
  - destruct (reset_round now g) as (_ & X & _). unfold resolved. rewrite X. discriminate.
  - exact Rs.
  - exact Rs.
  - unfold autoReset. destruct (resetTimer g); [|exact Rs].
    destruct (_ <? _)%Z; [exact Rs|].
    destruct (reset_round now g) as (_ & X & _). unfold resolved. rewrite X. discriminate.
Qed.

Lemma setStatus_timer_matches (now : Z) (st : Status) (g : Game) :
  timer_matches_status g -> timer_matches_status (setStatus now st g).
Proof.
  unfold timer_matches_status. intros T.
  rewrite setStatus_timer, setStatus_status.
  destruct (decide (st = status g)) as [E|N]; [rewrite E; exact T|].
  destruct st; cbn [terminal]; split; intros; congruence.
Qed.

Lemma timer_matches_status_step (now : Z) (e : Event) (g : Game) :
  timer_matches_status g -> timer_matches_status (step now e g).
Proof.
  intros T. destruct e as [delta|key|key| | | |]; cbn [step].
  - frame_cases now delta g; try exact T.
    + assert (T1 : forall h, resetTimer h = resetTimer g -> status h = status g ->
                             timer_matches_status h)
        by (unfold timer_matches_status; intros h -> ->; exact T).
      destruct (negb (crossed g) && _); [|apply T1; reflexivity].
      unfold onCrossStopLine. destruct (decide _); apply setStatus_timer_matches;
        apply T1; reflexivity.
    + unfold timer_matches_status. cbn [resetTimer status set_physics].
      fold (timer_matches_status (onBarrierHit now g)).
      unfold onBarrierHit. destruct (decide _); [|exact T].
      apply setStatus_timer_matches, T.
  - destruct (keydown_frame key g) as (_ & _ & _ & _ & S & _ & Tm).
    unfold timer_matches_status. rewrite S, Tm. exact T.
  - destruct (keyup_frame key g) as (_ & _ & _ & _ & S & _ & Tm).
    unfold timer_matches_status. rewrite S, Tm. exact T.
  - unfold timer_matches_status. rewrite reset_timer.
    destruct (reset_round now g) as (S & _). rewrite S.
    destruct (decide _) as [E|N]; [|split; reflexivity].
    split; [reflexivity|]. intros _. apply T. symmetry. exact E.
  - exact T.
  - exact T.
  - unfold autoReset. destruct (resetTimer g) eqn:Tm; [|exact T].
    destruct (_ <? _)%Z; [exact T|].
    unfold timer_matches_status. rewrite reset_timer.
    destruct (reset_round now g) as (S & _). rewrite S.
    destruct (decide _) as [E|N]; [|split; reflexivity].
    exfalso. destruct T as [_ T2]. rewrite T2 in Tm by (symmetry; exact E).
    discriminate.
Qed.

(** What holds at mount and is kept by every step holds after every run. *)
Lemma run_invariant (P : Game -> Prop) :
  (forall now e g, P g -> P (step now e g)) ->
  forall tr g, P g -> P (run tr g).
Proof.
  intros Hstep tr. induction tr as [|[now e] tr IH]; intros g Hg; [exact Hg|].
  cbn [run fold_left fst snd]. apply IH, Hstep, Hg.
Qed.

Lemma run_app (tr1 tr2 : list (Z * Event)) (g : Game) :
  run (tr1 ++ tr2) g = run tr2 (run tr1 g).
Proof. unfold run. apply fold_left_app. Qed.

Lemma reachable_sound (now0 : Z) (tr : list (Z * Event)) :
  let g := run tr (init now0) in
  within_barriers g /\ flagged g /\ resolved g /\ timer_matches_status g.
Proof.
  cbv zeta. split; [|split; [|split]].
  - apply run_invariant; [apply within_barriers_step|].
    intros m [= <-]. cbn. rewrite Rabs_R0. lra.
  - apply run_invariant; [apply flagged_step|].
    intros m [= <-]. cbn. lra.
  - apply (run_invariant resolved); [apply resolved_step|]. discriminate.
  - apply (run_invariant timer_matches_status); [apply timer_matches_status_step|].
    split; reflexivity.
Qed.

(** ** The example run: into the barrier, then over the stop line *)

Lemma magnitude_z (b : R) : magnitude (0, b) = Rabs b.
Proof.
  unfold magnitude. cbn [fst snd]. rewrite Rmult_0_l, Rplus_0_l.
  apply sqrt_Rsqr_abs.
Qed.

Lemma drifting_frame_stops : useFrame 0 0.05 drifting = stopped.
Proof.
  rewrite (useFrame_barrier 0 0.05 drifting _ eq_refl eq_refl drifting_hits_barrier).
  destruct drifting_frame as (_ & A & _). rewrite A. reflexivity.
Qed.

Lemma stopped_keydown : keydown "ArrowUp" stopped = restarting.
Proof. reflexivity. Qed.

Lemma restarting_frame :
  frame_angle 0.05 restarting = 0 /\
  frame_v 0.05 restarting = (0, -0.9) /\
  frame_nx 0.05 restarting drifting_mesh = 4.4 /\
  frame_nz 0.05 restarting drifting_mesh = -0.005.
Proof.
  assert (D : frame_d 0.05 = 0.05) by (unfold frame_d; apply Rmin_left; lra).
  assert (A : frame_angle 0.05 restarting = 0).
  { unfold frame_angle, steer.
    cbn [physics restarting keys zero vx vz angle ArrowLeft ArrowRight b2r].
    destruct (Rltb _ _); ring. }
  assert (V1 : drive (keys restarting) 0.05 0 (physics restarting) = (0, -0.9)).
  { unfold drive. cbn [physics restarting keys zero vx vz angle ArrowUp].
    rewrite sin_0, cos_0. f_equal; lra. }
  assert (V : frame_v 0.05 restarting = (0, -0.9)).
  { unfold frame_v. rewrite A, D, V1.
    unfold cap. fold (magnitude (0, -0.9)). rewrite magnitude_z.
    replace (Rltb 14 (Rabs (-0.9))) with false; [reflexivity|].
    symmetry. apply Rltb_ge. rewrite Rabs_left; lra. }
  split; [exact A|]. split; [exact V|].
  unfold frame_nx, frame_nz. rewrite V, D. cbn [fst snd pos_x pos_z drifting_mesh].
  split; lra.
Qed.

(** ** Between the crossing and the reset *)

(** Once the round is flagged and resolved, no event other than a reset
    changes the flag, the status or the score. *)
Lemma frozen_step (now : Z) (e : Event) (g : Game) :
  crossed g = true -> status g <> playing -> resets e = false ->
  let g' := step now e g in
  crossed g' = true /\ status g' = status g /\ score g' = score g.
Proof.
  intros X S Hr. destruct e as [delta|key|key| | | |]; cbn [step]; try discriminate.
  - frame_cases now delta g; try (repeat split; assumption).
    + rewrite X. cbn [negb andb]. repeat split. exact X.
    + destruct (onBarrierHit_frame now g) as (_ & _ & X' & _ & S' & _).
      cbn [crossed status score set_physics]. rewrite X', S', onBarrierHit_status.
      repeat split; [exact X|]. destruct (status g); [contradiction|reflexivity..].
  - destruct (keydown_frame key g) as (_ & _ & X' & _ & S' & Sc & _).
    cbv zeta. rewrite X', S', Sc. repeat split. exact X.
  - destruct (keyup_frame key g) as (_ & _ & X' & _ & S' & Sc & _).
    cbv zeta. rewrite X', S', Sc. repeat split. exact X.
  - repeat split. exact X.
  - repeat split. exact X.
Qed.

Lemma frozen_run (tr : list (Z * Event)) (g : Game) :
  crossed g = true -> status g <> playing ->
  Forall (fun te => resets (snd te) = false) tr ->
  crossed (run tr g) = true /\ status (run tr g) = status g /\ score (run tr g) = score g.
Proof.
  intros X S F. revert g X S.
  induction F as [|[now e] tr He _ IH]; intros g X S; [repeat split; exact X|].
  cbn [run fold_left fst snd]. cbn [snd] in He.
  destruct (frozen_step now e g X S He) as (X' & S' & Sc').
  destruct (IH (step now e g) X' ltac:(rewrite S'; exact S)) as (X2 & S2 & Sc2).
  unfold run in *. rewrite X2, S2, Sc2, S', Sc'. repeat split.
Qed.

(** The score moves only at a crossing that finds the round unflagged, and
    then by one; so between two resets it grows by one at most. *)
Lemma score_step (now : Z) (e : Event) (g : Game) :
  let g' := step now e g in
  score g' = score g \/
  (crossed g = false /\ crossed g' = true /\ status g' <> playing /\
   score g' = (score g + 1)%Z).
Proof.
  destruct e as [delta|key|key| | | |]; cbn [step].
  - frame_cases now delta g; try (left; reflexivity).
    + destruct (crossed g) eqn:X; cbn [negb andb]; [left; reflexivity|].
      destruct (Rltb _ 0); [|left; reflexivity].
      match goal with |- context [onCrossStopLine now ?h] =>
        destruct (onCrossStopLine_frame now h) as (_ & _ & K & _);
        destruct (decide (lightState (light h) = red)) as [L|L];
        [ destruct (onCrossStopLine_red now h L) as (St & Sc)
        | destruct (onCrossStopLine_not_red now h L) as (St & Sc) ] end.
      * left. rewrite Sc. reflexivity.
      * right. rewrite Sc, K, St. repeat split. discriminate.
    + left. destruct (onBarrierHit_frame now g) as (_ & _ & _ & _ & S' & _). exact S'.
  - left. apply keydown_frame.
  - left. apply keyup_frame.
  - left. apply reset_round.
  - left. reflexivity.
  - left. reflexivity.
  - left. unfold autoReset. destruct (resetTimer g); [|reflexivity].
    destruct (_ <? _)%Z; [reflexivity|apply reset_round].
Qed.

Lemma score_once_per_round (tr : list (Z * Event)) (g : Game) :
  Forall (fun te => resets (snd te) = false) tr ->
  score (run tr g) = score g \/ score (run tr g) = (score g + 1)%Z.
Proof.
  intros F. revert g. induction F as [|[now e] tr He F IH]; intros g; [left; reflexivity|].
  cbn [run fold_left fst snd]. fold (run tr (step now e g)).
  destruct (score_step now e g) as [E|(_ & X & S & E)].
  - rewrite <- E. apply IH.
  - destruct (frozen_run tr (step now e g) X S F) as (_ & _ & Sc).
    right. rewrite Sc. exact E.
Qed.

(** C10.  In the kinematic game the car is never beyond a barrier: after
    any run of the mounted game [|x| <= 4.5].  A frame whose integrated
    next position has [|x| > 4.5] leaves the car's group exactly as it was
    (neither x nor z moves) and sets both velocity components to 0; every
    other frame moves the car to a position within the barriers. *)
Theorem C10_car_within_barriers :
  (forall (now0 : Z) (tr : list (Z * Event)) (m : Group),
     carRef (run tr (init now0)) = Some m -> Rabs (pos_x m) <= 4.5) /\
  (forall (now : Z) (delta : R) (g : Game) (mesh : Group),
     carRef g = Some mesh -> paused g = false ->
     4.5 < Rabs (frame_nx delta g mesh) ->
     let g' := useFrame now delta g in
     carRef g' = Some mesh /\ vx (physics g') = 0 /\ vz (physics g') = 0) /\
  (forall (now : Z) (delta : R) (g : Game) (mesh m' : Group),
     carRef g = Some mesh -> paused g = false ->
     Rabs (frame_nx delta g mesh) <= 4.5 ->
     carRef (useFrame now delta g) = Some m' ->
     pos_x m' = frame_nx delta g mesh /\ Rabs (pos_x m') <= 4.5).
Proof.
  split; [|split].
  - intros now0 tr m. apply (reachable_sound now0 tr).
  - intros now delta g mesh Hc Hp Hb.
    cbv zeta. rewrite (useFrame_barrier now delta g mesh Hc Hp Hb).
    destruct (onBarrierHit_frame now g) as (C & _).
    cbn [carRef physics set_physics vx vz]. rewrite C. repeat split. exact Hc.
  - intros now delta g mesh m' Hc Hp Hb.
    rewrite (useFrame_free now delta g mesh Hc Hp Hb). cbv zeta.
    destruct (negb (crossed g) && _).
    + match goal with |- context [onCrossStopLine now ?h] =>
        destruct (onCrossStopLine_frame now h) as (C & _) end.
      rewrite C. cbn [carRef set_crossed setSpeed set_carRef].
      intros [= <-]. split; [reflexivity|exact Hb].
    + cbn [carRef setSpeed set_carRef]. intros [= <-]. split; [reflexivity|exact Hb].
Qed.

(** C10 at the mount and at the frame of [drifting]. *)
Lemma C10_witness :
  Rabs (pos_x (respawn drifting_mesh)) <= 4.5 /\
  carRef (useFrame 0 0.05 drifting) = Some drifting_mesh /\
  vx (physics (useFrame 0 0.05 drifting)) = 0 /\
  vz (physics (useFrame 0 0.05 drifting)) = 0.
Proof.
  destruct C10_car_within_barriers as (Inv & Hit & _).
  split.
  - apply (Inv 0%Z [(0%Z, ClickReset)]).
    change (run [(0%Z, ClickReset)] (init 0)) with (reset 0 (init 0)).
    rewrite reset_car. reflexivity.
  - apply (Hit 0%Z 0.05 drifting drifting_mesh eq_refl eq_refl drifting_hits_barrier).
Defined.

(** ** The light is driven by its own two timers only *)

Lemma light_of_step (now : Z) (e : Event) (g : Game) :
  light (step now e g) = light_step now e (light g).
Proof.
  destruct e as [delta|key|key| | | |]; cbn [step light_step].
  - frame_cases now delta g; try reflexivity.
    + destruct (negb _ && _); [|reflexivity].
      match goal with |- context [onCrossStopLine now ?h] =>
        destruct (onCrossStopLine_frame now h) as (_ & _ & _ & L & _) end.
      exact L.
    + cbn [light set_physics]. apply onBarrierHit_frame.
  - apply keydown_frame.
  - apply keyup_frame.
  - apply reset_round.
  - reflexivity.
  - reflexivity.
  - unfold autoReset. destruct (resetTimer g); [|reflexivity].
    destruct (_ <? _)%Z; [reflexivity|apply reset_round].
Qed.

Lemma light_of_run (tr : list (Z * Event)) (g : Game) :
  light (run tr g)
  = fold_left (fun c te => light_step (fst te) (snd te) c) tr (light g).
Proof.
  revert g. induction tr as [|[now e] tr IH]; intros g; [reflexivity|].
  cbn [run fold_left fst snd]. fold (run tr (step now e g)).
  rewrite IH, light_of_step. reflexivity.
Qed.

(** Dropping (or adding) pause toggles changes nothing about the light. *)
Lemma light_without_pause (tr : list (Z * Event)) (c : LightCycle) :
  fold_left (fun c te => light_step (fst te) (snd te) c) (without_pause tr) c
  = fold_left (fun c te => light_step (fst te) (snd te) c) tr c.
Proof.
  revert c. induction tr as [|[now e] tr IH]; intros c; [reflexivity|].
  unfold without_pause. cbn [List.filter snd].
  destruct (toggles_pause e) eqn:E; cbn [negb fold_left fst snd].
  - fold (without_pause tr). rewrite IH. f_equal.
    destruct e; try discriminate. reflexivity.
  - fold (without_pause tr). apply IH.
Qed.

Lemma light_running_run (now0 : Z) (tr : list (Z * Event)) :
  running (light (run tr (init now0))).
Proof.
  rewrite light_of_run. generalize (LightFacts.mount_running now0).
  change (light (init now0)) with (mount now0). generalize (mount now0).
  induction tr as [|[now e] tr IH]; intros c R; [exact R|].
  cbn [fold_left fst snd]. apply IH.
  destruct e; cbn [light_step]; try exact R.
  - apply LightFacts.resume_keeps_running, R.
  - apply LightFacts.poll_keeps_running, R.
Qed.

Lemma restarting_frame_result : useFrame 20 0.05 restarting = over_the_line.
Proof.
  destruct restarting_frame as (A & V & X & Z).
  assert (D : frame_d 0.05 = 0.05) by (unfold frame_d; apply Rmin_left; lra).
  assert (Hb : Rabs (frame_nx 0.05 restarting drifting_mesh) <= 4.5)
    by (rewrite X, Rabs_right; lra).
  assert (V1 : drive (keys restarting) 0.05 0 (physics restarting) = (0, -0.9)).
  { unfold drive. cbn [physics restarting keys zero vx vz angle ArrowUp].
    rewrite sin_0, cos_0. f_equal; lra. }
  rewrite (useFrame_free 20 0.05 restarting _ eq_refl eq_refl Hb). cbv zeta.
  replace (Rltb (frame_nz 0.05 restarting drifting_mesh) 0) with true
    by (symmetry; apply Rltb_lt; rewrite Z; lra).
  rewrite A, V, X, Z, D, V1, magnitude_z, Rabs_left by lra.
  replace (- -0.9) with 0.9 by lra.
  reflexivity.
Qed.

(** The first frame of a fresh game: the car does not move. *)
Lemma fresh_frame (now : Z) (m : Group) :
  frame_nx 0.05 (init now) m = pos_x m /\ frame_nz 0.05 (init now) m = pos_z m.
Proof.
  assert (S0 : sqrt (0 + 0) = 0) by (rewrite Rplus_0_l; apply sqrt_0).
  assert (V : frame_v 0.05 (init now) = (0, 0)).
  { unfold frame_v, frame_angle, steer, drive, cap.
    cbn [physics init keys no_keys zero vx vz angle ArrowUp ArrowDown].
    rewrite !Rmult_0_l. cbn [fst snd]. rewrite S0.
    replace (Rltb 14 0) with false by (symmetry; apply Rltb_ge; lra). reflexivity. }
  unfold frame_nx, frame_nz. rewrite V. cbn [fst snd]. split; ring.
Qed.

(** The frame of [sliding_on] is the frame of [drifting]: the barrier. *)
Lemma sliding_on_frame :
  useFrame 0 0.05 sliding_on
  = set_physics {| vx := 0; vz := 0; angle := 0 |} sliding_on.
Proof.
  rewrite (useFrame_barrier 0 0.05 sliding_on drifting_mesh eq_refl eq_refl
             drifting_hits_barrier).
  destruct drifting_frame as (_ & A & _).
  change (frame_angle 0.05 sliding_on) with (frame_angle 0.05 drifting).
  rewrite A. reflexivity.
Qed.
End KinematicFacts.

(** * Facts about the rigid-body driving game *)

Module RigidBodyFacts.

Import Light RigidBody.
Local Open Scope R_scope.

Lemma rigid_setStatus_status (now : Z) (st : Status) (g : Game) :
  status (setStatus now st g) = st.
Proof. unfold setStatus. destruct (decide _) as [E|E]; [symmetry; exact E|reflexivity]. Qed.

Lemma rigid_setStatus_frame (now : Z) (st : Status) (g : Game) :
  let g' := setStatus now st g in
  carBodyRef g' = carBodyRef g /\ crossed g' = crossed g /\ light g' = light g /\
  score g' = score g /\ paused g' = paused g /\ hits g' = hits g /\
  savedVelRef g' = savedVelRef g.
Proof. unfold setStatus. destruct (decide _); repeat split. Qed.

Lemma rigid_setStatus_timer (now : Z) (st : Status) (g : Game) :
  resetTimer (setStatus now st g)
  = if decide (st = status g) then resetTimer g
    else if terminal st then Some (now + 4000)%Z else None.
Proof. unfold setStatus. destruct (decide _); reflexivity. Qed.

Lemma rigid_onCrossStopLine_red (now : Z) (g : Game) :
  lightState (light g) = red ->
  status (onCrossStopLine now g) = failed /\ score (onCrossStopLine now g) = score g.
Proof.
  intros H. unfold onCrossStopLine. destruct (decide _) as [_|N]; [|contradiction].
  split; [apply rigid_setStatus_status|apply rigid_setStatus_frame].
Qed.

Lemma rigid_onCrossStopLine_not_red (now : Z) (g : Game) :
  lightState (light g) <> red ->
  status (onCrossStopLine now g) = passed /\
  score (onCrossStopLine now g) = (score g + 1)%Z.
Proof.
  intros H. unfold onCrossStopLine. destruct (decide _) as [E|_]; [contradiction|].
  split; [apply rigid_setStatus_status|].
  destruct (rigid_setStatus_frame now passed (setScore (fun s => (s + 1)%Z) g))
    as (_ & _ & _ & S & _).
  rewrite S. reflexivity.
Qed.

Lemma rigid_onCrossStopLine_frame (now : Z) (g : Game) :
  let g' := onCrossStopLine now g in
  carBodyRef g' = carBodyRef g /\ crossed g' = crossed g /\ light g' = light g /\
  paused g' = paused g.
Proof.
  unfold onCrossStopLine. destruct (decide _).
  - destruct (rigid_setStatus_frame now failed g) as (A & B & C & _ & D & _).
    repeat split; assumption.
  - destruct (rigid_setStatus_frame now passed (setScore (fun s => (s + 1)%Z) g))
      as (A & B & C & _ & D & _).
    repeat split; assumption.
Qed.

(** A barrier collision: [failed], whatever the status and the light were. *)
Lemma rigid_onBarrierHit_status (now rnd : Z) (g : Game) :
  status (onBarrierHit now rnd g) = failed.
Proof.
  unfold onBarrierHit. cbv zeta. unfold addHit.
  cbn [status setHits]. apply rigid_setStatus_status.
Qed.

Lemma rigid_onBarrierHit_frame (now rnd : Z) (g : Game) :
  let g' := onBarrierHit now rnd g in
  carBodyRef g' = carBodyRef g /\ crossed g' = crossed g /\ light g' = light g /\
  score g' = score g /\ paused g' = paused g.
Proof.
  unfold onBarrierHit. cbv zeta. unfold addHit.
  destruct (rigid_setStatus_frame now failed g) as (A & B & C & D & E & _).
  cbn [carBodyRef crossed light score paused setHits]. repeat split; assumption.
Qed.

(** [reset]: the round is [playing] and unflagged, and the body, if there
    is one, is at the spawn position with no linear or angular velocity. *)
Lemma rigid_reset_round (now : Z) (g : Game) :
  let g' := reset now g in
  status g' = playing /\ crossed g' = false /\ light g' = light g /\
  score g' = score g /\ paused g' = paused g.
Proof.
  unfold reset. cbv zeta.
  destruct (rigid_setStatus_frame now playing (set_crossed false g)) as (_ & X & L & S & U & _).
  pose proof (rigid_setStatus_status now playing (set_crossed false g)) as St.
  destruct (carBodyRef _);
    cbn [status crossed light score paused set_carBodyRef]; repeat split; assumption.
Qed.

Lemma rigid_reset_body (now : Z) (g : Game) :
  carBodyRef (reset now g)
  = (fun b => {| translation := {| v_x := 0; v_y := 0.4; v_z := 18 |};
                 rotation := rotation b; linvel := origin; angvel := origin |})
      <$> carBodyRef g.
Proof.
  unfold reset. cbv zeta.
  destruct (rigid_setStatus_frame now playing (set_crossed false g)) as (C & _).
  cbn [carBodyRef set_crossed] in C. rewrite C.
  destruct (carBodyRef g); [reflexivity|]. rewrite C. reflexivity.
Qed.

Lemma rigid_reset_timer (now : Z) (g : Game) :
  resetTimer (reset now g) = if decide (playing = status g) then resetTimer g else None.
Proof.
  unfold reset. cbv zeta.
  pose proof (rigid_setStatus_timer now playing (set_crossed false g)) as T.
  cbn [status set_crossed resetTimer terminal] in T.
  destruct (carBodyRef _); cbn [resetTimer set_carBodyRef]; exact T.
Qed.

(** ** The frame callback *)

(** The callback returns at once when there is no body or the game is
    paused.  Otherwise it throws at its first call of [applyForce], which
    every branch on the keys makes, before it has written anything: the
    speed is not reported and the stop line is not looked at. *)
Lemma rigid_carFrame_idle (now : Z) (g : Game) :
  carBodyRef g = None \/ paused g = true -> carFrame now g = (inl tt, g).
Proof.
  intros [H|H]; unfold carFrame, bind, gets; [rewrite H; reflexivity|].
  destruct (carBodyRef g); [rewrite H|]; reflexivity.
Qed.

Lemma rigid_carFrame_throws (now : Z) (g : Game) (b : Body) :
  carBodyRef g = Some b -> paused g = false -> carFrame now g = (inr TypeError, g).
Proof.
  intros Hc Hp. unfold carFrame, bind, gets. rewrite Hc, Hp.
  destruct (ArrowUp (keys g)); [reflexivity|].
  destruct (ArrowDown (keys g)); reflexivity.
Qed.

Lemma rigid_useFrame_same (now : Z) (g : Game) : useFrame now g = g.
Proof.
  unfold useFrame. destruct (carBodyRef g) as [b|] eqn:Hc;
    [|rewrite (rigid_carFrame_idle now g (or_introl Hc)); reflexivity].
  destruct (paused g) eqn:Hp;
    [rewrite (rigid_carFrame_idle now g (or_intror Hp)); reflexivity|].
  rewrite (rigid_carFrame_throws now g b Hc Hp). reflexivity.
Qed.

Lemma rigid_togglePause_frame (g : Game) :
  let g' := togglePause g in
  crossed g' = crossed g /\ light g' = light g /\ status g' = status g /\
  score g' = score g /\ resetTimer g' = resetTimer g /\ paused g' = negb (paused g).
Proof.
  unfold togglePause. cbv zeta. cbn [paused set_paused carBodyRef savedVelRef].
  destruct (negb (paused g)).
  - destruct (carBodyRef g); repeat split.
  - destruct (carBodyRef g); [destruct (savedVelRef g) as [[lin ang]|]|]; repeat split.
Qed.

Lemma rigid_keydown_frame (key : string) (g : Game) :
  let g' := keydown key g in
  crossed g' = crossed g /\ light g' = light g /\ status g' = status g /\
  score g' = score g /\ resetTimer g' = resetTimer g.
Proof.
  unfold keydown. destruct (is_arrow key); [repeat split|].
  destruct (is_p key); [|repeat split].
  destruct (rigid_togglePause_frame g) as (A & B & C & D & E & _). repeat split; assumption.
Qed.

Lemma rigid_keyup_frame (key : string) (g : Game) :
  let g' := keyup key g in
  crossed g' = crossed g /\ light g' = light g /\ status g' = status g /\
  score g' = score g /\ resetTimer g' = resetTimer g.
Proof. unfold keyup. destruct (is_arrow key); repeat split. Qed.

(** ** Between the crossing and the reset *)

(** Once the round is flagged, no event other than a reset changes the
    flag or the score, and no frame changes the status. *)
Lemma rigid_frozen_step (now : Z) (e : Event) (g : Game) :
  crossed g = true -> resets e = false ->
  let g' := step now e g in
  crossed g' = true /\ score g' = score g /\
  (match e with BarrierCollision _ => True | _ => status g' = status g end).
Proof.
  intros X Hr. destruct e as [|b|rnd|key|key| | | | |]; cbn [step]; try discriminate.
  - rewrite rigid_useFrame_same. repeat split. exact X.
  - destruct (carBodyRef g); repeat split; exact X.
  - destruct (rigid_onBarrierHit_frame now rnd g) as (_ & X' & _ & S & _).
    cbv zeta. rewrite X', S. repeat split. exact X.
  - destruct (rigid_keydown_frame key g) as (X' & _ & S' & Sc & _).
    cbv zeta. rewrite X', S', Sc. repeat split. exact X.
  - destruct (rigid_keyup_frame key g) as (X' & _ & S' & Sc & _).
    cbv zeta. rewrite X', S', Sc. repeat split. exact X.
  - repeat split. exact X.
  - repeat split. exact X.
  - repeat split. exact X.
Qed.

Lemma rigid_frozen_run (tr : list (Z * Event)) (g : Game) :
  crossed g = true ->
  Forall (fun te => resets (snd te) = false) tr ->
  crossed (run tr g) = true /\ score (run tr g) = score g.
Proof.
  intros X F. revert g X.
  induction F as [|[now e] tr He _ IH]; intros g X; [repeat split; exact X|].
  cbn [run fold_left fst snd]. cbn [snd] in He.
  destruct (rigid_frozen_step now e g X He) as (X' & Sc' & _).
  destruct (IH (step now e g) X') as (X2 & Sc2).
  unfold run in *. rewrite X2, Sc2, Sc'. repeat split.
Qed.

Lemma rigid_score_step (now : Z) (e : Event) (g : Game) :
  let g' := step now e g in
  score g' = score g \/
  (crossed g = false /\ crossed g' = true /\ score g' = (score g + 1)%Z).
Proof.
  destruct e as [|b|rnd|key|key| | | | |]; cbn [step].
  - left. rewrite rigid_useFrame_same. reflexivity.
  - left. destruct (carBodyRef g); reflexivity.
  - left. apply rigid_onBarrierHit_frame.
  - left. apply rigid_keydown_frame.
  - left. apply rigid_keyup_frame.
  - left. apply rigid_reset_round.
  - left. reflexivity.
  - left. reflexivity.
  - left. unfold autoReset. destruct (resetTimer g); [|reflexivity].
    destruct (_ <? _)%Z; [reflexivity|apply rigid_reset_round].
  - left. reflexivity.
Qed.

Lemma rigid_score_once_per_round (tr : list (Z * Event)) (g : Game) :
  Forall (fun te => resets (snd te) = false) tr ->
  score (run tr g) = score g \/ score (run tr g) = (score g + 1)%Z.
Proof.
  intros F. revert g. induction F as [|[now e] tr He F IH]; intros g; [left; reflexivity|].
  cbn [run fold_left fst snd]. fold (run tr (step now e g)).
  destruct (rigid_score_step now e g) as [E|(_ & X & E)].
  - rewrite <- E. apply IH.
  - destruct (rigid_frozen_run tr (step now e g) X F) as (_ & Sc).
    right. rewrite Sc. exact E.
Qed.

(** ** No crossing is ever seen

    The frame callback is the only code that sets the flag and calls
    [onCrossStopLine], and it never gets there. *)
Lemma rigid_unflagged_step (now : Z) (e : Event) (g : Game) :
  unflagged g -> unflagged (step now e g).
Proof.
  intros (X & St & Sc). assert (H : unflagged g) by (repeat split; assumption).
  destruct e as [|b|rnd|key|key| | | | |]; cbn [step].
  - rewrite rigid_useFrame_same. exact H.
  - destruct (carBodyRef g); exact H.
  - destruct (rigid_onBarrierHit_frame now rnd g) as (_ & X' & _ & Sc' & _).
    split; [rewrite X'; exact X|]. split; [|rewrite Sc'; exact Sc].
    rewrite rigid_onBarrierHit_status. discriminate.
  - destruct (rigid_keydown_frame key g) as (X' & _ & St' & Sc' & _).
    split; [rewrite X'; exact X|]. split; [rewrite St'; exact St|rewrite Sc'; exact Sc].
  - destruct (rigid_keyup_frame key g) as (X' & _ & St' & Sc' & _).
    split; [rewrite X'; exact X|]. split; [rewrite St'; exact St|rewrite Sc'; exact Sc].
  - destruct (rigid_reset_round now g) as (St' & X' & _ & Sc' & _).
    split; [exact X'|]. split; [rewrite St'; discriminate|rewrite Sc'; exact Sc].
  - exact H.
  - exact H.
  - unfold autoReset. destruct (resetTimer g); [|exact H].
    destruct (_ <? _)%Z; [exact H|].
    destruct (rigid_reset_round now g) as (St' & X' & _ & Sc' & _).
    split; [exact X'|]. split; [rewrite St'; discriminate|rewrite Sc'; exact Sc].
  - exact H.
Qed.

Lemma rigid_unflagged_run (now0 : Z) (tr : list (Z * Event)) :
  unflagged (run tr (init now0)).
Proof.
  assert (H : forall g, unflagged g -> unflagged (run tr g)).
  { induction tr as [|[now e] tr IH]; intros g Hg; [exact Hg|].
    cbn [run fold_left fst snd]. fold (run tr (step now e g)).
    apply IH, rigid_unflagged_step, Hg. }
  apply H. split; [reflexivity|]. split; [discriminate|reflexivity].
Qed.

(** ** The light is driven by its own two timers only *)

Lemma rigid_light_of_step (now : Z) (e : Event) (g : Game) :
  light (step now e g) = light_step now e (light g).
Proof.
  destruct e as [|b|rnd|key|key| | | | |]; cbn [step light_step].
  - rewrite rigid_useFrame_same. reflexivity.
  - destruct (carBodyRef g); reflexivity.
  - apply rigid_onBarrierHit_frame.
  - apply rigid_keydown_frame.
  - apply rigid_keyup_frame.
  - apply rigid_reset_round.
  - reflexivity.
  - reflexivity.
  - unfold autoReset. destruct (resetTimer g); [|reflexivity].
    destruct (_ <? _)%Z; [reflexivity|apply rigid_reset_round].
  - reflexivity.
Qed.

Lemma rigid_light_of_run (tr : list (Z * Event)) (g : Game) :
  light (run tr g)
  = fold_left (fun c te => light_step (fst te) (snd te) c) tr (light g).
Proof.
  revert g. induction tr as [|[now e] tr IH]; intros g; [reflexivity|].
  cbn [run fold_left fst snd]. fold (run tr (step now e g)).
  rewrite IH, rigid_light_of_step. reflexivity.
Qed.

(** Dropping (or adding) pause toggles changes nothing about the light. *)
Lemma rigid_light_without_pause (tr : list (Z * Event)) (c : LightCycle) :
  fold_left (fun c te => light_step (fst te) (snd te) c) (without_pause tr) c
  = fold_left (fun c te => light_step (fst te) (snd te) c) tr c.
Proof.
  revert c. induction tr as [|[now e] tr IH]; intros c; [reflexivity|].
  unfold without_pause. cbn [List.filter snd].
  destruct (toggles_pause e) eqn:E; cbn [negb fold_left fst snd].
  - fold (without_pause tr). rewrite IH. f_equal.
    destruct e; try discriminate. reflexivity.
  - fold (without_pause tr). apply IH.
Qed.

Lemma rigid_light_running_run (now0 : Z) (tr : list (Z * Event)) :
  running (light (run tr (init now0))).
Proof.
  rewrite rigid_light_of_run. generalize (LightFacts.mount_running now0).
  change (light (init now0)) with (mount now0). generalize (mount now0).
  induction tr as [|[now e] tr IH]; intros c R; [exact R|].
  cbn [fold_left fst snd]. apply IH.
  destruct e; cbn [light_step]; try exact R.
  - apply LightFacts.resume_keeps_running, R.
  - apply LightFacts.poll_keeps_running, R.
Qed.
End RigidBodyFacts.

(** * The round in both driving games *)

Module Driving.

Import Light.
Local Open Scope R_scope.

(** The kinematic frame that crosses the line. *)
Lemma kinematic_crossing_frame (now : Z) (delta : R) (g : Kinematic.Game)
    (mesh : Kinematic.Group) :
  Kinematic.carRef g = Some mesh -> Kinematic.paused g = false ->
  Kinematic.crossed g = false ->
  Rabs (Kinematic.frame_nx delta g mesh) <= 4.5 ->
  Kinematic.frame_nz delta g mesh < 0 ->
  let g' := Kinematic.useFrame now delta g in
  (Kinematic.pos_z <$> Kinematic.carRef g') = Some (Kinematic.frame_nz delta g mesh) /\
  Kinematic.crossed g' = true /\
  (lightState (Kinematic.light g) = red ->
   Kinematic.status g' = failed /\ Kinematic.score g' = Kinematic.score g) /\
  (lightState (Kinematic.light g) <> red ->
   Kinematic.status g' = passed /\
   Kinematic.score g' = (Kinematic.score g + 1)%Z).
Proof.
  intros Hc Hp X Hb Hz. cbv zeta.
  rewrite (KinematicFacts.useFrame_free now delta g mesh Hc Hp Hb). cbv zeta.
  rewrite X. apply KinematicFacts.Rltb_lt in Hz. rewrite Hz. cbn [negb andb].
  match goal with |- context [Kinematic.onCrossStopLine now ?h] =>
    destruct (KinematicFacts.onCrossStopLine_frame now h) as (C & _ & K & _);
    pose proof (KinematicFacts.onCrossStopLine_red now h) as Red;
    pose proof (KinematicFacts.onCrossStopLine_not_red now h) as Green end.
  rewrite C, K. repeat split; try (apply Red; assumption); apply Green; assumption.
Qed.

(** The kinematic frame that stays short of the line. *)
Lemma kinematic_short_frame (now : Z) (delta : R) (g : Kinematic.Game)
    (mesh : Kinematic.Group) :
  Kinematic.carRef g = Some mesh -> Kinematic.paused g = false ->
  Rabs (Kinematic.frame_nx delta g mesh) <= 4.5 ->
  0 <= Kinematic.frame_nz delta g mesh ->
  let g' := Kinematic.useFrame now delta g in
  (Kinematic.pos_z <$> Kinematic.carRef g') = Some (Kinematic.frame_nz delta g mesh) /\
  Kinematic.crossed g' = Kinematic.crossed g /\
  Kinematic.status g' = Kinematic.status g /\
  Kinematic.score g' = Kinematic.score g.
Proof.
  intros Hc Hp Hb Hz. cbv zeta.
  rewrite (KinematicFacts.useFrame_free now delta g mesh Hc Hp Hb). cbv zeta.
  apply KinematicFacts.Rltb_ge in Hz. rewrite Hz, andb_false_r. repeat split.
Qed.




(** C4.  The traffic light of both driving games.  The durations are 6000,
    1500 and 5000 ms for green, yellow and red.  Under a punctual timer the
    [n]-th state of the cycle is the [n]-th of green, yellow, red, green,
    ..., it starts at the mount time plus the dwells of all states before
    it, and its own timeout is pending with its own dwell; three states
    take 12500 ms.  Whatever the timer does, a pending timeout does nothing
    before it is due and moves a running cycle to the next state, running
    again, when it fires: no state ends the cycle.  In both games the light
    after any run of events is a running cycle, each event acts on the
    light through the cycle's timeout and the poll only (a pause toggle
    changes the [paused] flag and not the light), and the run with all
    pause toggles removed leaves the light in the same state. *)
Theorem C4_light_cycle :
  (LIGHT_DURATIONS green = 6000 /\ LIGHT_DURATIONS yellow = 1500 /\
   LIGHT_DURATIONS red = 5000)%Z /\
  (phase 0 = green /\ phase 1 = yellow /\ phase 2 = red /\
   forall n, phase (n + 3) = phase n) /\
  (forall (now : Z) (n : nat),
     let c := Nat.iter n punctual (mount now) in
     lightState c = phase n /\
     lightStart c = (now + elapsed n)%Z /\
     lightDuration c = LIGHT_DURATIONS (phase n) /\
     awaiting c = Some ((now + elapsed n + LIGHT_DURATIONS (phase n))%Z, phase n) /\
     elapsed (n + 3) = (elapsed n + 12500)%Z) /\
  (forall (now : Z) (c : LightCycle),
     running c ->
     ((now < lightStart c + LIGHT_DURATIONS (lightState c))%Z -> resume now c = c) /\
     ((lightStart c + LIGHT_DURATIONS (lightState c) <= now)%Z ->
      lightState (resume now c) = next (lightState c) /\
      lightStart (resume now c) = now) /\
     running (resume now c)) /\
  (forall (now0 : Z) (tr : list (Z * Kinematic.Event)),
     running (Kinematic.light (Kinematic.run tr (Kinematic.init now0)))) /\
  (forall (now : Z) (e : Kinematic.Event) (g : Kinematic.Game),
     Kinematic.light (Kinematic.step now e g)
     = Kinematic.light_step now e (Kinematic.light g)) /\
  (forall (now : Z) (key : string) (g : Kinematic.Game),
     is_p key = true ->
     let g' := Kinematic.step now (Kinematic.KeyDown key) g in
     Kinematic.paused g' = negb (Kinematic.paused g) /\
     Kinematic.light g' = Kinematic.light g) /\
  (forall (tr : list (Z * Kinematic.Event)) (g : Kinematic.Game),
     Kinematic.light (Kinematic.run (Kinematic.without_pause tr) g)
     = Kinematic.light (Kinematic.run tr g)) /\
  (forall (now0 : Z) (tr : list (Z * RigidBody.Event)),
     running (RigidBody.light (RigidBody.run tr (RigidBody.init now0)))) /\
  (forall (now : Z) (e : RigidBody.Event) (g : RigidBody.Game),
     RigidBody.light (RigidBody.step now e g)
     = RigidBody.light_step now e (RigidBody.light g)) /\
  (forall (now : Z) (key : string) (g : RigidBody.Game),
     is_p key = true ->
     let g' := RigidBody.step now (RigidBody.KeyDown key) g in
     RigidBody.paused g' = negb (RigidBody.paused g) /\
     RigidBody.light g' = RigidBody.light g) /\
  (forall (tr : list (Z * RigidBody.Event)) (g : RigidBody.Game),
     RigidBody.light (RigidBody.run (RigidBody.without_pause tr) g)
     = RigidBody.light (RigidBody.run tr g)).
Proof.
  assert (P : forall key, is_p key = true -> is_arrow key = false).
  { intros key H. unfold is_p in H. apply orb_true_iff in H.
    destruct H as [H|H]; apply String.eqb_eq in H; subst key; reflexivity. }
  split; [repeat split|]. split; [repeat split; apply LightFacts.phase_period|].
  split.
  { intros now n. destruct (LightFacts.punctual_cycle now n) as (S & T & Rn). cbv zeta.
    destruct Rn as (_ & D & A).
    split; [exact S|]. split; [exact T|].
    split; [rewrite D, S; reflexivity|].
    split; [rewrite A, T, S; reflexivity|apply LightFacts.elapsed_period]. }
  split.
  { intros now c Rn. split; [|split].
    - intros H. destruct Rn as (_ & _ & A). apply (LightFacts.resume_early _ _ _ _ A H).
    - intros H. destruct (LightFacts.resume_running now c Rn H) as (S & T & _).
      split; assumption.
    - apply LightFacts.resume_keeps_running, Rn. }
  split; [apply KinematicFacts.light_running_run|].
  split; [apply KinematicFacts.light_of_step|].
  split.
  { intros now key g H. cbn [Kinematic.step]. unfold Kinematic.keydown.
    rewrite (P key H), H. split; reflexivity. }
  split.
  { intros tr g. rewrite !KinematicFacts.light_of_run.
    apply KinematicFacts.light_without_pause. }
  split; [apply RigidBodyFacts.rigid_light_running_run|].
  split; [apply RigidBodyFacts.rigid_light_of_step|].
  split.
  { intros now key g H. cbn [RigidBody.step]. unfold RigidBody.keydown.
    rewrite (P key H), H.
    destruct (RigidBodyFacts.rigid_togglePause_frame g) as (_ & L & _ & _ & _ & Pz).
    split; assumption. }
  intros tr g. rewrite !RigidBodyFacts.rigid_light_of_run.
  apply RigidBodyFacts.rigid_light_without_pause.
Qed.

(** C4 at a cycle mounted at time 0: its timeout does nothing at 5999 ms
    and shows yellow at 6000 ms. *)
Lemma C4_witness :
  resume 5999 (mount 0) = mount 0 /\ lightState (resume 6000 (mount 0)) = yellow.
Proof.
  destruct C4_light_cycle as (_ & _ & _ & Timer & _).
  destruct (Timer 5999%Z (mount 0) (LightFacts.mount_running 0)) as (Early & _).
  destruct (Timer 6000%Z (mount 0) (LightFacts.mount_running 0)) as (_ & Due & _).
  split.
  - apply Early. reflexivity.
  - apply Due. discriminate.
Defined.




(** ** The auto-reset timeout *)

(** Entering [passed] or [failed] from another status at time [now] leaves
    the timeout due at [now + 4000]; before that time it does nothing, from
    that time on it calls [reset]; and [reset], by the timeout or by a
    button, leaves no timeout pending in a state of the mounted game, so the
    timeout of a round fires at most once.  Kinematic game. *)
Lemma kinematic_auto_reset (now : Z) (st : Status) (g : Kinematic.Game) :
  terminal st = true -> st <> Kinematic.status g ->
  let g1 := Kinematic.setStatus now st g in
  Kinematic.resetTimer g1 = Some (now + 4000)%Z /\
  (forall t, (t < now + 4000)%Z -> Kinematic.step t Kinematic.AutoResetTimeout g1 = g1) /\
  (forall t, (now + 4000 <= t)%Z ->
     Kinematic.step t Kinematic.AutoResetTimeout g1 = Kinematic.reset t g1 /\
     Kinematic.resetTimer (Kinematic.reset t g1) = None) /\
  (forall t t',
     Kinematic.resetTimer (Kinematic.reset t g1) = None /\
     Kinematic.step t' Kinematic.AutoResetTimeout (Kinematic.reset t g1)
     = Kinematic.reset t g1).
Proof.
  intros Ht Hne g1.
  assert (T : Kinematic.resetTimer g1 = Some (now + 4000)%Z).
  { subst g1. rewrite KinematicFacts.setStatus_timer.
    destruct (decide _); [contradiction|]. rewrite Ht. reflexivity. }
  assert (S : Kinematic.status g1 = st) by apply KinematicFacts.setStatus_status.
  assert (N : forall t, Kinematic.resetTimer (Kinematic.reset t g1) = None).
  { intros t. rewrite KinematicFacts.reset_timer, S.
    destruct (decide _) as [E|_]; [|reflexivity]. rewrite <- E in Ht. discriminate. }
  split; [exact T|]. split; [|split].
  - intros t H. cbn [Kinematic.step]. unfold Kinematic.autoReset. rewrite T.
    apply Z.ltb_lt in H. rewrite H. reflexivity.
  - intros t H. cbn [Kinematic.step]. unfold Kinematic.autoReset. rewrite T.
    apply Z.ltb_ge in H. rewrite H. split; [reflexivity|apply N].
  - intros t t'. split; [apply N|].
    cbn [Kinematic.step]. unfold Kinematic.autoReset. rewrite N. reflexivity.
Qed.

(** The same for the rigid-body game. *)
Lemma rigid_auto_reset (now : Z) (st : Status) (g : RigidBody.Game) :
  terminal st = true -> st <> RigidBody.status g ->
  let g1 := RigidBody.setStatus now st g in
  RigidBody.resetTimer g1 = Some (now + 4000)%Z /\
  (forall t, (t < now + 4000)%Z -> RigidBody.step t RigidBody.AutoResetTimeout g1 = g1) /\
  (forall t, (now + 4000 <= t)%Z ->
     RigidBody.step t RigidBody.AutoResetTimeout g1 = RigidBody.reset t g1 /\
     RigidBody.resetTimer (RigidBody.reset t g1) = None) /\
  (forall t t',
     RigidBody.resetTimer (RigidBody.reset t g1) = None /\
     RigidBody.step t' RigidBody.AutoResetTimeout (RigidBody.reset t g1)
     = RigidBody.reset t g1).
Proof.
  intros Ht Hne g1.
  assert (T : RigidBody.resetTimer g1 = Some (now + 4000)%Z).
  { subst g1. rewrite RigidBodyFacts.rigid_setStatus_timer.
    destruct (decide _); [contradiction|]. rewrite Ht. reflexivity. }
  assert (S : RigidBody.status g1 = st) by apply RigidBodyFacts.rigid_setStatus_status.
  assert (N : forall t, RigidBody.resetTimer (RigidBody.reset t g1) = None).
  { intros t. rewrite RigidBodyFacts.rigid_reset_timer, S.
    destruct (decide _) as [E|_]; [|reflexivity]. rewrite <- E in Ht. discriminate. }
  split; [exact T|]. split; [|split].
  - intros t H. cbn [RigidBody.step]. unfold RigidBody.autoReset. rewrite T.
    apply Z.ltb_lt in H. rewrite H. reflexivity.
  - intros t H. cbn [RigidBody.step]. unfold RigidBody.autoReset. rewrite T.
    apply Z.ltb_ge in H. rewrite H. split; [reflexivity|apply N].
  - intros t t'. split; [apply N|].
    cbn [RigidBody.step]. unfold RigidBody.autoReset. rewrite N. reflexivity.
Qed.

(** What [reset] does to the car in each game: the rigid body is moved to
    the spawn position and both its velocities are zeroed; the kinematic
    car's group is moved to the spawn pose and its velocity and heading
    (the [physics] ref) are left as they were. *)
Lemma reset_car_in_both (now : Z) :
  (forall (g : RigidBody.Game) (b : RigidBody.Body),
     RigidBody.carBodyRef g = Some b ->
     exists b',
       RigidBody.carBodyRef (RigidBody.reset now g) = Some b' /\
       RigidBody.translation b'
       = {| RigidBody.v_x := 0; RigidBody.v_y := 0.4; RigidBody.v_z := 18 |} /\
       RigidBody.linvel b' = RigidBody.origin /\
       RigidBody.angvel b' = RigidBody.origin /\
       RigidBody.rotation b' = RigidBody.rotation b) /\
  (forall (g : Kinematic.Game) (m : Kinematic.Group),
     Kinematic.carRef g = Some m ->
     Kinematic.carRef (Kinematic.reset now g) = Some (Kinematic.respawn m) /\
     Kinematic.physics (Kinematic.reset now g) = Kinematic.physics g).
Proof.
  split.
  - intros g b H. rewrite RigidBodyFacts.rigid_reset_body, H.
    eexists. repeat split.
  - intros g m H. rewrite KinematicFacts.reset_car, H. split; [reflexivity|].
    apply KinematicFacts.reset_round.
Qed.

(** C6, at the input where the code departs from it.  The kinematic car of
    [over_the_line] has passed on green at time 20 and moves at 0.9 units/s;
    its auto-reset timeout is due at 4020.  At 4019 the timeout does
    nothing; at 4020 it resets the round: the status is [playing], the
    crossed-flag false, the car's group at the spawn pose, no timeout is
    left pending (a second one does nothing).  But the velocity is not
    zeroed: it is still [(0, -0.9)], and the next frame drives the car off
    the spawn position. *)
Theorem C6_kinematic_reset_keeps_velocity :
  let g := Kinematic.over_the_line in
  let g' := Kinematic.step 4020 Kinematic.AutoResetTimeout g in
  Kinematic.useFrame 20 0.05 Kinematic.restarting = g /\
  Kinematic.step 4019 Kinematic.AutoResetTimeout g = g /\
  Kinematic.status g' = playing /\
  Kinematic.crossed g' = false /\
  Kinematic.carRef g' = Some (Kinematic.respawn Kinematic.drifting_mesh) /\
  Kinematic.resetTimer g' = None /\
  Kinematic.step 8020 Kinematic.AutoResetTimeout g' = g' /\
  Kinematic.physics g'
  = {| Kinematic.vx := 0; Kinematic.vz := -0.9; Kinematic.angle := 0 |} /\
  Kinematic.physics g' <> Kinematic.zero.
Proof.
  cbv zeta. split; [apply KinematicFacts.restarting_frame_result|].
  split; [reflexivity|]. split; [reflexivity|]. split; [reflexivity|].
  split; [reflexivity|]. split; [reflexivity|]. split; [reflexivity|].
  assert (P : Kinematic.physics
                (Kinematic.step 4020 Kinematic.AutoResetTimeout Kinematic.over_the_line)
              = {| Kinematic.vx := 0; Kinematic.vz := -0.9; Kinematic.angle := 0 |})
    by reflexivity.
  split; [exact P|].
  rewrite P. intros H. apply (f_equal Kinematic.vz) in H.
  cbn [Kinematic.vz Kinematic.zero] in H. lra.
Qed.
End Driving.

(** * The runner over whole runs *)

Module SceneFacts.

Import Runner.
Local Open Scope Q_scope.

Lemma scene_run_cons (e : Event) (tr : list Event) (w : RunnerScene * localStorage) :
  run (e :: tr) w = run tr (step e w).
Proof. reflexivity. Qed.

Lemma scene_run_snoc (tr : list Event) (e : Event) (w : RunnerScene * localStorage) :
  run (tr ++ [e]) w = step e (run tr w).
Proof. unfold run. rewrite fold_left_app. reflexivity. Qed.

(** ** The stored highscore *)

(** Only [gameOver] writes to the store. *)
Lemma step_store (e : Event) (w : RunnerScene * localStorage) :
  snd (step e w) = snd w \/ snd (step e w) = snd (gameOver w).
Proof.
  destruct e; cbn [step]; try (left; reflexivity); try (right; reflexivity).
  - destruct (fires _); left; reflexivity.
  - destruct (fires _); left; reflexivity.
Qed.

Lemma gameOver_store (s : RunnerScene) (ls : localStorage) :
  snd (gameOver (s, ls))
  = if js_gt (Num (inject_Z (Qfloor (score s)))) (read_highscore ls)
    then setItem highscoreKey (String_of_int (Qfloor (score s))) ls
    else ls.
Proof. reflexivity. Qed.

Lemma gameOver_read (s : RunnerScene) (ls : localStorage) (h : Q) :
  safe s -> read_highscore ls = Num h ->
  read_highscore (snd (gameOver (s, ls)))
  = Num (if Qltb h (inject_Z (Qfloor (score s))) then inject_Z (Qfloor (score s)) else h).
Proof.
  intros Hs H. rewrite gameOver_store, H. cbn [js_gt].
  destruct (Qltb h _); [|exact H].
  apply RunnerFacts.read_highscore_numeric; [exact Hs|].
  unfold getItem, setItem. apply lookup_insert_eq.
Qed.

Lemma gameOver_other_keys (s : RunnerScene) (ls : localStorage) (k : string) :
  k <> highscoreKey -> getItem k (snd (gameOver (s, ls))) = getItem k ls.
Proof.
  intros H. rewrite gameOver_store. destruct (js_gt _ _); [|reflexivity].
  unfold getItem, setItem. apply lookup_insert_ne. congruence.
Qed.

(** When a game whose score is a safe integer ends over a store whose
    highscore reads as the number [h], the store afterwards reads as the
    larger of [h] and the floor of the score; no other key of the store is
    touched; and the scene that the R key starts next shows, as its
    highscore, what the store reads as. *)
Theorem gameOver_keeps_the_best (s : RunnerScene) (ls : localStorage) (h : Q) :
  safe s -> read_highscore ls = Num h ->
  let ended := gameOver (s, ls) in
  let final := inject_Z (Qfloor (score s)) in
  read_highscore (snd ended) = Num (if Qltb h final then final else h) /\
  (forall k, k <> highscoreKey -> getItem k (snd ended) = getItem k ls) /\
  highscoreText (keydown_R (snd ended) (fst ended)) = read_highscore (snd ended).
Proof.
  intros Hs H ended final. subst ended final.
  split; [apply gameOver_read; [exact Hs|exact H]|].
  split; [intros k; apply gameOver_other_keys|].
  reflexivity.
Qed.

(** A game of score 42.5 ends over a store that holds 17 behind a
    no-break space. *)
Lemma gameOver_keeps_the_best_witness :
  let ls : localStorage :=
    {[ highscoreKey := String (ascii_of_nat 194) (String (ascii_of_nat 160) "17") ]} in
  read_highscore (snd (gameOver (update 4250 (start ls), ls))) = Num 42.
Proof.
  intros ls.
  destruct (gameOver_keeps_the_best (update 4250 (start ls)) ls 17) as (H & _).
  - unfold safe. vm_compute. discriminate.
  - vm_compute. reflexivity.
  - exact H.
Defined.

(** Over a whole run, whatever the events.  As long as the score is a safe
    integer in every state of the run, a stored highscore that reads as a
    number keeps reading as a number and never goes down.  A stored value
    that reads as [NaN] is never replaced, and keys other than the
    highscore key are never written. *)
Theorem stored_highscore_never_decreases (tr : list Event)
    (w : RunnerScene * localStorage) :
  ((forall k, safe (fst (run (take k tr) w))) ->
   forall h, read_highscore (snd w) = Num h ->
     exists h', read_highscore (snd (run tr w)) = Num h' /\ h <= h') /\
  (read_highscore (snd w) = NaN -> snd (run tr w) = snd w) /\
  (forall k, k <> highscoreKey -> getItem k (snd (run tr w)) = getItem k (snd w)).
Proof.
  revert w. induction tr as [|e tr IH]; intros w.
  { split; [intros _ h H; exists h; split; [exact H|apply Qle_refl]|].
    split; reflexivity. }
  rewrite scene_run_cons. destruct (IH (step e w)) as (IH1 & IH2 & IH3).
  split; [|split].
  - intros S h H.
    assert (S' : forall k, safe (fst (run (take k tr) (step e w)))).
    { intros k. exact (S (Datatypes.S k)). }
    pose proof (S 0%nat) as S0. cbn [take run fold_left] in S0.
    destruct w as [s ls]. cbn [fst snd] in *.
    destruct (step_store e (s, ls)) as [E|E]; cbn [snd] in E.
    + apply (IH1 S'). rewrite E. exact H.
    + pose proof (gameOver_read s ls h S0 H) as R. rewrite <- E in R.
      destruct (IH1 S' _ R) as (h' & R' & L). exists h'. split; [exact R'|].
      eapply Qle_trans; [|exact L].
      destruct (Qltb h _) eqn:C; [|apply Qle_refl].
      apply Qlt_le_weak, RunnerFacts.Qltb_lt, C.
  - intros H. destruct w as [s ls]. cbn [snd] in *.
    destruct (step_store e (s, ls)) as [E|E]; cbn [snd] in E.
    + rewrite E in *. apply IH2, H.
    + pose proof (RunnerFacts.gameOver_NaN s ls H) as R.
      rewrite <- E in R. rewrite IH2; rewrite R; [reflexivity|exact H].
  - intros k Hk. rewrite IH3 by exact Hk. destruct w as [s ls]. cbn [snd].
    destruct (step_store e (s, ls)) as [E|E]; cbn [snd] in E; rewrite E; [reflexivity|].
    apply gameOver_other_keys, Hk.
Qed.

(** A game that ends with score 42.5 over a store that holds 17, is
    restarted by the R key and ends again. *)
Lemma stored_highscore_never_decreases_witness :
  let ls : localStorage := {[ highscoreKey := "17"%string ]} in
  let tr := [Update 4250; ObstacleOverlap; KeyR; FireOverlap] in
  exists h', read_highscore (snd (run tr (boot ls))) = Num h' /\ 17 <= h'.
Proof.
  intros ls tr.
  destruct (stored_highscore_never_decreases tr (boot ls)) as (H & _).
  apply H; [|vm_compute; reflexivity].
  intros k. unfold safe.
  do 5 (destruct k as [|k]; [vm_compute; discriminate|]).
  vm_compute; discriminate.
Defined.

(** ** Game over is final *)

Lemma createDustParticles_gameActive (x y : Q) (s : RunnerScene) :
  gameActive (createDustParticles x y s) = gameActive s.
Proof. reflexivity. Qed.

Lemma damageDragon_gameActive (dragon : nat) (rnd : nat -> Q) (s : RunnerScene) :
  gameActive (damageDragon dragon rnd s) = gameActive s.
Proof.
  unfold damageDragon. destruct (find _ _); [|reflexivity].
  destruct (Qleb (vy _) 0); [reflexivity|].
  destruct (Qleb _ 0); reflexivity.
Qed.

Lemma fireBreathTick_gameActive (k : nat) (s : RunnerScene) :
  gameActive (fireBreathTick k s) = gameActive s.
Proof.
  unfold fireBreathTick. destruct (_ !! _); [|reflexivity].
  destruct (find _ _); reflexivity.
Qed.

Lemma spawnObstacle_gameActive (pick : nat) (s : RunnerScene) :
  gameActive (spawnObstacle pick s) = gameActive s.
Proof.
  unfold spawnObstacle. destruct (_ && _); [reflexivity|].
  destruct (_ =? _)%nat; reflexivity.
Qed.

Lemma jump_gameActive (s : RunnerScene) : gameActive (jump s) = gameActive s.
Proof.
  unfold jump. destruct (gameActive s) eqn:A; cbn [negb]; [|exact A].
  destruct (_ || _); [|exact A]. exact A.
Qed.

Lemma keydown_R_gameActive (ls : localStorage) (s : RunnerScene) :
  gameActive (keydown_R ls s) = gameActive s.
Proof. unfold keydown_R. destruct (restartListener s); reflexivity. Qed.

(** No event makes an inactive game active. *)
Lemma step_inactive (e : Event) (w : RunnerScene * localStorage) :
  gameActive (fst w) = false -> gameActive (fst (step e w)) = false.
Proof.
  intros H. destruct e; cbn [step fst].
  - rewrite RunnerFacts.update_gameActive. exact H.
  - exact H.
  - destruct (fires _); cbn [fst]; [rewrite spawnObstacle_gameActive|]; exact H.
  - destruct (fires _); [|exact H]. exact H.
  - rewrite fireBreathTick_gameActive. exact H.
  - rewrite jump_gameActive. exact H.
  - destruct w. reflexivity.
  - rewrite damageDragon_gameActive. exact H.
  - destruct w. reflexivity.
  - rewrite keydown_R_gameActive. exact H.
Qed.

(** Once the game is over it stays over: after any further events, the R
    key and the restart it triggers among them, [gameActive] is still
    false, so [update] changes nothing and the jump handler does nothing. *)
Theorem game_over_is_final (tr : list Event) (w : RunnerScene * localStorage) :
  gameActive (fst w) = false ->
  let s := fst (run tr w) in
  gameActive s = false /\ (forall delta, update delta s = s) /\ jump s = s.
Proof.
  intros H s.
  assert (A : gameActive s = false).
  { subst s. revert w H. induction tr as [|e tr IH]; intros w H; [exact H|].
    rewrite scene_run_cons. apply IH, step_inactive, H. }
  split; [exact A|]. split.
  - intros delta. apply RunnerFacts.update_inactive, A.
  - unfold jump. rewrite A. reflexivity.
Qed.

(** A game that ended on a barrel; then the R key, a frame and a jump. *)
Lemma game_over_is_final_witness :
  let w := step ObstacleOverlap (boot ∅) in
  gameActive (fst (run [KeyR; Update 16; JumpPressed] w)) = false.
Proof.
  intros w.
  destruct (game_over_is_final [KeyR; Update 16; JumpPressed] w) as (H & _).
  - reflexivity.
  - exact H.
Defined.

(** ** Particles *)

Lemma burst_unlit (n : nat) (x y : Q) : Forall (fun p => spr_life p = None) (burst n x y).
Proof. repeat constructor. Qed.

Lemma update_fire_unlit (delta : Q) (f : Sprite) :
  spr_life f = None \/ spr_life f = Some NaN ->
  update_fire delta f = Some (set_life_alpha NaN NaN f).
Proof. intros [H|H]; unfold update_fire; rewrite H; reflexivity. Qed.

Lemma sweep_update_fire (delta : Q) (l : list Sprite) :
  Forall (fun f => spr_life f = None \/ spr_life f = Some NaN) l ->
  sweep (update_fire delta) l = map (set_life_alpha NaN NaN) l.
Proof.
  intros H. apply RunnerFacts.sweep_map.
  eapply Forall_impl; [exact H|]. intros f Hf. apply update_fire_unlit, Hf.
Qed.

Lemma update_fireParticles (delta : Q) (s : RunnerScene) :
  Forall (fun f => spr_life f = None \/ spr_life f = Some NaN) (fireParticles s) ->
  fireParticles (update delta s)
  = if gameActive s then map (set_life_alpha NaN NaN) (fireParticles s)
    else fireParticles s.
Proof.
  intros H. destruct (gameActive s) eqn:A.
  - rewrite RunnerFacts.update_active by exact A.
    destruct (RunnerFacts.tick_level_groups delta s) as (_ & _ & _ & E).
    change (iterate (update_fire delta) (fireParticles (tick_level delta s))
            = map (set_life_alpha NaN NaN) (fireParticles s)).
    rewrite E, RunnerFacts.iterate_sweep. apply sweep_update_fire, H.
  - rewrite RunnerFacts.update_inactive by exact A. reflexivity.
Qed.

(** What each handler does to the two groups of particles: it leaves them
    alone or appends to them. *)
Lemma grows_refl (P : Sprite -> Prop) (l : list Sprite) : grows P l l.
Proof. exists []. split; [symmetry; apply app_nil_r|constructor]. Qed.

Lemma grows_trans (P : Sprite -> Prop) (l1 l2 l3 : list Sprite) :
  grows P l1 l2 -> grows P l2 l3 -> grows P l1 l3.
Proof.
  intros (k1 & -> & F1) (k2 & -> & F2). exists (k1 ++ k2).
  split; [symmetry; apply app_assoc|]. apply Forall_app. split; assumption.
Qed.

Lemma grows_Forall (P : Sprite -> Prop) (l l' : list Sprite) :
  grows P l l' -> Forall P l -> Forall P l'.
Proof. intros (k & -> & F) H. apply Forall_app. split; assumption. Qed.

Lemma createDustParticles_grows (x y : Q) (s : RunnerScene) :
  grows (fun p => spr_life p = None) (particles s) (particles (createDustParticles x y s)) /\
  fireParticles (createDustParticles x y s) = fireParticles s.
Proof.
  split; [|reflexivity]. exists (burst (nextId s) x y). split; [reflexivity|].
  apply burst_unlit.
Qed.

Lemma set_dragons_particles (v : list Sprite) (s : RunnerScene) :
  particles (set_dragons v s) = particles s /\
  fireParticles (set_dragons v s) = fireParticles s.
Proof. split; reflexivity. Qed.

Lemma set_score_particles (v : Q) (s : RunnerScene) :
  particles (set_score v s) = particles s /\
  fireParticles (set_score v s) = fireParticles s.
Proof. split; reflexivity. Qed.

Lemma damageDragon_particles (dragon : nat) (rnd : nat -> Q) (s : RunnerScene) :
  grows (fun p => spr_life p = None) (particles s) (particles (damageDragon dragon rnd s)) /\
  fireParticles (damageDragon dragon rnd s) = fireParticles s.
Proof.
  unfold damageDragon. destruct (find _ _) as [d|]; [|split; [apply grows_refl|reflexivity]].
  destruct (Qleb (vy _) 0); [split; [apply grows_refl|reflexivity]|].
  destruct (Qleb _ 0); cbv zeta.
  - cbn [fold_left seq].
    match goal with |- context [set_dragons ?v ?s0] =>
      destruct (set_dragons_particles v s0) as (-> & ->) end.
    match goal with |- context [set_score ?v ?s0] =>
      destruct (set_score_particles v s0) as (-> & ->) end.
    set (s1 := createDustParticles (spr_x d) (spr_y d) s).
    set (s2 := createDustParticles _ _ s1).
    set (s3 := createDustParticles _ _ s2).
    set (s4 := createDustParticles _ _ s3).
    assert (H1 : grows (fun p => spr_life p = None) (particles s) (particles s1) /\
                 fireParticles s1 = fireParticles s) by apply createDustParticles_grows.
    assert (H2 : grows (fun p => spr_life p = None) (particles s1) (particles s2) /\
                 fireParticles s2 = fireParticles s1) by apply createDustParticles_grows.
    assert (H3 : grows (fun p => spr_life p = None) (particles s2) (particles s3) /\
                 fireParticles s3 = fireParticles s2) by apply createDustParticles_grows.
    assert (H4 : grows (fun p => spr_life p = None) (particles s3) (particles s4) /\
                 fireParticles s4 = fireParticles s3) by apply createDustParticles_grows.
    clearbody s1 s2 s3 s4.
    destruct H1 as (G1 & E1), H2 as (G2 & E2), H3 as (G3 & E3), H4 as (G4 & E4).
    split; [|congruence].
    eapply grows_trans; [exact G1|]. eapply grows_trans; [exact G2|].
    eapply grows_trans; [exact G3|exact G4].
  - match goal with |- context [set_dragons ?v ?s0] =>
      destruct (set_dragons_particles v s0) as (-> & ->) end.
    apply createDustParticles_grows.
Qed.

Lemma fireBreathTick_particles (k : nat) (s : RunnerScene) :
  particles (fireBreathTick k s) = particles s /\
  grows (fun f => spr_life f = None) (fireParticles s) (fireParticles (fireBreathTick k s)).
Proof.
  unfold fireBreathTick. destruct (_ !! _); [|split; [reflexivity|apply grows_refl]].
  destruct (find _ _) as [d|]; [|split; [reflexivity|apply grows_refl]].
  split; [reflexivity|]. cbn [fireParticles set_intervals spawnFire set_nextId set_fireParticles].
  eexists. split; [reflexivity|]. repeat constructor.
Qed.

Lemma jump_particles (s : RunnerScene) :
  grows (fun p => spr_life p = None) (particles s) (particles (jump s)) /\
  fireParticles (jump s) = fireParticles s.
Proof.
  unfold jump. destruct (negb _); [split; [apply grows_refl|reflexivity]|].
  destruct (_ || _); [|split; [apply grows_refl|reflexivity]].
  split; [|reflexivity]. eexists. split; [reflexivity|]. apply burst_unlit.
Qed.

Lemma spawnObstacle_particles (pick : nat) (s : RunnerScene) :
  particles (spawnObstacle pick s) = particles s /\
  fireParticles (spawnObstacle pick s) = fireParticles s.
Proof.
  unfold spawnObstacle. destruct (_ && _); [split; reflexivity|].
  destruct (_ =? _)%nat; split; reflexivity.
Qed.

(** Every event other than the R key keeps the dust particles as a prefix
    of the group, and the fire particles, by identity, as a prefix of
    theirs; and every event keeps [unlit]. *)
Lemma step_particles (e : Event) (w : RunnerScene * localStorage) :
  unlit (fst w) ->
  unlit (fst (step e w)) /\
  (keeps_scene e = true ->
   particles (fst w) `prefix_of` particles (fst (step e w)) /\
   map spr_id (fireParticles (fst w)) `prefix_of` map spr_id (fireParticles (fst (step e w)))).
Proof.
  intros (Hp & Hf).
  assert (G : forall s' : RunnerScene,
             grows (fun p => spr_life p = None) (particles (fst w)) (particles s') ->
             grows (fun f => spr_life f = None) (fireParticles (fst w)) (fireParticles s') ->
             unlit s' /\
             (particles (fst w) `prefix_of` particles s' /\
              map spr_id (fireParticles (fst w)) `prefix_of` map spr_id (fireParticles s'))).
  { intros s' G1 G2. split; [split|split].
    - apply (grows_Forall _ _ _ G1 Hp).
    - destruct G2 as (k & -> & F). apply Forall_app. split; [exact Hf|].
      eapply Forall_impl; [exact F|]. intros f H. left. exact H.
    - destruct G1 as (k & -> & _). exists k. reflexivity.
    - destruct G2 as (k & -> & _). exists (map spr_id k). apply map_app. }
  assert (S : forall s' : RunnerScene,
             particles s' = particles (fst w) -> fireParticles s' = fireParticles (fst w) ->
             unlit s' /\
             (particles (fst w) `prefix_of` particles s' /\
              map spr_id (fireParticles (fst w)) `prefix_of` map spr_id (fireParticles s'))).
  { intros s' E1 E2. apply G; [rewrite E1|rewrite E2]; apply grows_refl. }
  destruct e; cbn [step fst keeps_scene].
  - pose proof (RunnerFacts.update_particles_undefined delta (fst w) Hp) as E1.
    pose proof (update_fireParticles delta (fst w) Hf) as E2.
    split; [split|intros _; split].
    + rewrite E1. exact Hp.
    + rewrite E2. destruct (gameActive (fst w)); [|exact Hf].
      apply List.Forall_map, Forall_forall. intros f _. right. reflexivity.
    + rewrite E1. reflexivity.
    + rewrite E2. destruct (gameActive (fst w)); [|reflexivity].
      rewrite map_map. cbn [spr_id set_life_alpha]. reflexivity.
  - destruct (S (set_player body (fst w)) eq_refl eq_refl) as (U & P).
    split; [exact U|intros _; exact P].
  - destruct (fires _); cbn [fst].
    + destruct (spawnObstacle_particles pick (fst w)) as (E1 & E2).
      destruct (S _ E1 E2) as (U & P). split; [exact U|intros _; exact P].
    + destruct (S (fst w) eq_refl eq_refl) as (U & P). split; [exact U|intros _; exact P].
  - destruct (fires _); cbn [fst].
    + destruct (S (spawnDragon (fst w)) eq_refl eq_refl) as (U & P).
      split; [exact U|intros _; exact P].
    + destruct (S (fst w) eq_refl eq_refl) as (U & P). split; [exact U|intros _; exact P].
  - destruct (fireBreathTick_particles k (fst w)) as (E1 & G2).
    destruct (G (fireBreathTick k (fst w))) as (U & P);
      [rewrite E1; apply grows_refl|exact G2|]. split; [exact U|intros _; exact P].
  - destruct (jump_particles (fst w)) as (G1 & E2).
    destruct (G (jump (fst w))) as (U & P);
      [exact G1|rewrite E2; apply grows_refl|]. split; [exact U|intros _; exact P].
  - destruct w as [s ls]. destruct (S s eq_refl eq_refl) as (U & P).
    split; [exact U|intros _; exact P].
  - destruct (damageDragon_particles dragon rnd (fst w)) as (G1 & E2).
    destruct (G (damageDragon dragon rnd (fst w))) as (U & P);
      [exact G1|rewrite E2; apply grows_refl|]. split; [exact U|intros _; exact P].
  - destruct w as [s ls]. destruct (S s eq_refl eq_refl) as (U & P).
    split; [exact U|intros _; exact P].
  - split; [|discriminate]. unfold keydown_R.
    destruct (restartListener (fst w)); [|split; assumption].
    split; constructor.
Qed.

Lemma run_unlit (ls : localStorage) (tr : list Event) : unlit (fst (run tr (boot ls))).
Proof.
  induction tr as [|e tr IH] using rev_ind; [split; constructor|].
  rewrite scene_run_snoc. apply step_particles, IH.
Qed.

(** In no state of a game does a frame, a timer, a jump or a collision
    remove a particle: whatever the run so far, [update] leaves the dust
    particles exactly as they are and keeps every fire particle, and every
    event other than a restart by the R key keeps the particles of both
    groups, by identity and in their order, as a prefix of their group.
    Both groups only grow until the scene is restarted. *)
Theorem particles_are_never_removed (ls : localStorage) (tr : list Event) :
  let s := fst (run tr (boot ls)) in
  (forall delta,
     particles (update delta s) = particles s /\
     map spr_id (fireParticles (update delta s)) = map spr_id (fireParticles s)) /\
  (forall e, keeps_scene e = true ->
     map spr_id (particles s)
       `prefix_of` map spr_id (particles (fst (step e (run tr (boot ls))))) /\
     map spr_id (fireParticles s)
       `prefix_of` map spr_id (fireParticles (fst (step e (run tr (boot ls)))))).
Proof.
  intros s. pose proof (run_unlit ls tr) as U. fold s in U. split.
  - intros delta. destruct U as (Hp & Hf). split.
    + apply RunnerFacts.update_particles_undefined, Hp.
    + rewrite update_fireParticles by exact Hf.
      destruct (gameActive s); [|reflexivity].
      rewrite map_map. reflexivity.
  - intros e He.
    destruct (step_particles e (run tr (boot ls)) U) as (_ & P).
    destruct (P He) as ((k & E) & F). split; [|exact F].
    fold s in E. rewrite E. exists (map spr_id k). apply map_app.
Qed.

(** ** Sprites stay on the track *)

Section OnTrack.

Import Lqa.

Lemma step_left (x speed delta : Q) :
  0 <= speed -> 0 <= delta -> x - speed * (delta / 1000) <= x.
Proof.
  intros Hs Hd.
  assert (0 <= delta / 1000) by (apply Qle_shift_div_l; [reflexivity|lra]).
  assert (0 <= speed * (delta / 1000)) by (apply Qmult_le_0_compat; assumption).
  lra.
Qed.

Lemma level_speed (base k : Q) (lvl : Z) :
  0 <= base -> 0 <= k -> (1 <= lvl)%Z -> 0 <= base + inject_Z (lvl - 1) * k.
Proof.
  intros Hb Hk Hl.
  assert (0 <= inject_Z (lvl - 1)) by (change 0 with (inject_Z 0); rewrite <- Zle_Qle; lia).
  assert (0 <= inject_Z (lvl - 1) * k) by (apply Qmult_le_0_compat; assumption).
  lra.
Qed.

Lemma level_of_score (q : Q) : 0 <= q -> (1 <= Qfloor (q / 250) + 1)%Z.
Proof.
  intros H.
  assert (0 <= q / 250) by (apply Qle_shift_div_l; [reflexivity|lra]).
  pose proof (Qfloor_resp_le 0 (q / 250) ltac:(assumption)) as F.
  change (Qfloor 0) with 0%Z in F. lia.
Qed.

Lemma Forall_sweep_move_left (P : Sprite -> Prop) (speed delta bound : Q) (l : list Sprite) :
  (forall o, P o ->
     bound <= spr_x o - speed * (delta / 1000) ->
     P (set_x (spr_x o - speed * (delta / 1000)) o)) ->
  Forall P l -> Forall P (sweep (move_left speed delta bound) l).
Proof.
  intros H.
  apply (RunnerFacts.sweep_walk (move_left speed delta bound)
           (fun l l' => Forall P l -> Forall P l')).
  - intros _. constructor.
  - intros o o' rest E IH F. inversion F as [|? ? Ho Hr]; subst.
    constructor; [|apply IH, Hr].
    destruct (RunnerFacts.move_left_keeps _ _ _ _ _ E) as (-> & B). apply H; assumption.
  - intros _ _ _. constructor.
  - intros o skipped rest _ IH F. inversion F as [|? ? _ Hr]; subst.
    inversion Hr as [|? ? Hs Hr']; subst. constructor; [exact Hs|apply IH, Hr'].
Qed.

Lemma update_on_track (delta : Q) (s : RunnerScene) :
  0 <= delta -> on_track s -> on_track (update delta s).
Proof.
  intros Hd (Hs & Hl & Ho & Hg).
  destruct (gameActive s) eqn:A;
    [|rewrite RunnerFacts.update_inactive by exact A; repeat split; assumption].
  assert (S' : 0 <= score (update delta s)).
  { rewrite RunnerFacts.update_score by exact A. lra. }
  assert (L' : (1 <= level (update delta s))%Z).
  { rewrite RunnerFacts.update_level by exact A. apply level_of_score, S'. }
  split; [exact S'|]. split; [exact L'|]. split.
  - rewrite RunnerFacts.update_obstacles by exact A.
    apply Forall_sweep_move_left; [|exact Ho].
    intros o (B1 & B2) B. cbn [spr_x set_x]. split; [exact B|].
    eapply Qle_trans; [|exact B2].
    apply step_left; [|exact Hd]. apply level_speed; [lra|lra|exact L'].
  - rewrite RunnerFacts.update_dragons by exact A.
    apply Forall_sweep_move_left.
    + intros d (B & H) _. cbn [spr_x set_x]. split; [|exact H].
      eapply Qle_trans; [|exact B].
      apply step_left; [|exact Hd]. apply level_speed; [lra|lra|exact L'].
    + unfold dragons_to_move. destruct (_ && _); [|exact Hg].
      apply Forall_app. split; [exact Hg|]. constructor; [|constructor].
      split; [apply Qle_bool_iff; reflexivity|]. exists 3. split; [reflexivity|]. right. right. reflexivity.
Qed.

Lemma spawnObstacle_on_track (pick : nat) (s : RunnerScene) :
  on_track s -> on_track (spawnObstacle pick s).
Proof.
  intros (Hs & Hl & Ho & Hg). unfold spawnObstacle.
  destruct (_ && _); [repeat split; assumption|].
  destruct (_ =? _)%nat; (split; [exact Hs|]; split; [exact Hl|]; split; [|exact Hg]);
    cbn [obstacles spawnBarrel spawnBox set_nextId set_obstacles];
    (apply Forall_app; split; [exact Ho|]);
    (constructor; [split; apply Qle_bool_iff; reflexivity|constructor]).
Qed.

Lemma spawnDragon_on_track (s : RunnerScene) : on_track s -> on_track (spawnDragon s).
Proof.
  intros (Hs & Hl & Ho & Hg).
  split; [exact Hs|]. split; [exact Hl|]. split; [exact Ho|].
  cbn [dragons spawnDragon scheduleFireBreath set_intervals set_nextId set_dragons].
  apply Forall_app. split; [exact Hg|]. constructor; [|constructor].
  split; [apply Qle_bool_iff; reflexivity|]. exists 3. split; [reflexivity|]. right. right. reflexivity.
Qed.

Lemma fireBreathTick_on_track (k : nat) (s : RunnerScene) :
  on_track s -> on_track (fireBreathTick k s).
Proof.
  intros H. unfold fireBreathTick. destruct (_ !! _); [|exact H].
  destruct (find _ _); exact H.
Qed.

Lemma jump_on_track (s : RunnerScene) : on_track s -> on_track (jump s).
Proof.
  intros H. unfold jump. destruct (negb _); [exact H|].
  destruct (_ || _); exact H.
Qed.

Lemma createDustParticles_track (x y : Q) (s : RunnerScene) :
  score (createDustParticles x y s) = score s /\
  level (createDustParticles x y s) = level s /\
  obstacles (createDustParticles x y s) = obstacles s /\
  dragons (createDustParticles x y s) = dragons s.
Proof. repeat split. Qed.

Lemma Forall_filter_keeps (P : Sprite -> Prop) (f : Sprite -> bool) (l : list Sprite) :
  Forall P l -> Forall P (List.filter f l).
Proof.
  induction 1 as [|o l Ho _ IH]; [constructor|].
  cbn [List.filter]. destruct (f o); [constructor; assumption|exact IH].
Qed.

Lemma sound_health_of (d : Sprite) :
  sound_health d -> health_of d == 1 \/ health_of d == 2 \/ health_of d == 3.
Proof.
  intros (h & E & H). unfold health_of. rewrite E.
  destruct (Qeq_bool h 0) eqn:Z; [|exact H].
  apply Qeq_bool_iff in Z. destruct H as [H|[H|H]]; rewrite H in Z; discriminate.
Qed.

Lemma damageDragon_on_track (dragon : nat) (rnd : nat -> Q) (s : RunnerScene) :
  on_track s -> on_track (damageDragon dragon rnd s).
Proof.
  intros (Hs & Hl & Ho & Hg). unfold damageDragon.
  destruct (find _ _) as [d|] eqn:F; [|repeat split; assumption].
  destruct (Qleb (vy _) 0); [repeat split; assumption|].
  apply find_some in F as (Hin & _).
  assert (Hd : sound_health d).
  { rewrite List.Forall_forall in Hg. apply (Hg d Hin). }
  apply sound_health_of in Hd.
  destruct (Qleb _ 0) eqn:Lethal; cbv zeta.
  - cbn [fold_left seq].
    set (s1 := createDustParticles (spr_x d) (spr_y d) s).
    set (s2 := createDustParticles _ _ s1).
    set (s3 := createDustParticles _ _ s2).
    set (s4 := createDustParticles _ _ s3).
    destruct (createDustParticles_track (spr_x d) (spr_y d) s) as (A1 & B1 & C1 & D1).
    fold s1 in A1, B1, C1, D1.
    assert (H2 : score s2 = score s1 /\ level s2 = level s1 /\
                 obstacles s2 = obstacles s1 /\ dragons s2 = dragons s1)
      by apply createDustParticles_track.
    assert (H3 : score s3 = score s2 /\ level s3 = level s2 /\
                 obstacles s3 = obstacles s2 /\ dragons s3 = dragons s2)
      by apply createDustParticles_track.
    assert (H4 : score s4 = score s3 /\ level s4 = level s3 /\
                 obstacles s4 = obstacles s3 /\ dragons s4 = dragons s3)
      by apply createDustParticles_track.
    clearbody s1 s2 s3 s4.
    destruct H2 as (A2 & B2 & C2 & D2), H3 as (A3 & B3 & C3 & D3),
             H4 as (A4 & B4 & C4 & D4).
    unfold on_track.
    cbn [score level obstacles dragons set_dragons set_score].
    rewrite A4, A3, A2, A1, B4, B3, B2, B1, C4, C3, C2, C1, D4, D3, D2, D1.
    split; [lra|]. split; [exact Hl|]. split; [exact Ho|].
    apply Forall_filter_keeps, Hg.
  - unfold on_track.
    cbn [score level obstacles dragons set_dragons createDustParticles set_nextId
         set_particles].
    split; [exact Hs|]. split; [exact Hl|]. split; [exact Ho|].
    apply RunnerFacts.Qleb_gt in Lethal.
    apply List.Forall_map. eapply Forall_impl; [exact Hg|].
    intros d' (B & H). cbv beta. destruct (is_dragon dragon d'); [|split; assumption].
    split; [cbn [spr_x set_x set_health]; lra|].
    exists (health_of d - 1). split; [reflexivity|].
    destruct Hd as [E|[E|E]]; rewrite E in *; [|left; reflexivity|right; left; reflexivity].
    exfalso. revert Lethal. apply Qle_not_lt. apply Qle_bool_iff. reflexivity.
Qed.

Lemma gameOver_on_track (w : RunnerScene * localStorage) :
  on_track (fst w) -> on_track (fst (gameOver w)).
Proof. destruct w as [s ls]. rewrite RunnerFacts.gameOver_scene. exact (fun H => H). Qed.

Lemma keydown_R_on_track (ls : localStorage) (s : RunnerScene) :
  on_track s -> on_track (keydown_R ls s).
Proof.
  intros H. unfold keydown_R. destruct (restartListener s); [|exact H].
  destruct H as (Hs & Hl & _).
  split; [exact Hs|]. split; [exact Hl|]. split; constructor.
Qed.

Lemma step_on_track (e : Event) (w : RunnerScene * localStorage) :
  forward e = true -> on_track (fst w) -> on_track (fst (step e w)).
Proof.
  intros He H. destruct e; cbn [step fst].
  - apply update_on_track; [|exact H]. apply RunnerFacts.Qleb_le, He.
  - exact H.
  - destruct (fires _); [apply spawnObstacle_on_track|]; exact H.
  - destruct (fires _); [apply spawnDragon_on_track|]; exact H.
  - apply fireBreathTick_on_track, H.
  - apply jump_on_track, H.
  - apply gameOver_on_track, H.
  - apply damageDragon_on_track, H.
  - apply gameOver_on_track, H.
  - apply keydown_R_on_track, H.
Qed.

Lemma run_on_track (tr : list Event) (w : RunnerScene * localStorage) :
  Forall (fun e => forward e = true) tr -> on_track (fst w) -> on_track (fst (run tr w)).
Proof.
  intros F. revert w. induction F as [|e tr He _ IH]; intros w H; [exact H|].
  rewrite scene_run_cons. apply IH, step_on_track; assumption.
Qed.

End OnTrack.

(** In every state of a game whose frames have a [delta] that is not
    negative: the score is not negative and the level is at least 1; every
    obstacle lies between x = -100, where [update] destroys it, and x = 980,
    where it is spawned; every dragon lies at x = 1050, where it is spawned,
    or left of it, and its health is 1, 2 or 3 (so the default that
    [damageDragon] takes for a missing or zero health is never used). *)
Theorem sprites_stay_on_track (ls : localStorage) (tr : list Event) :
  Forall (fun e => forward e = true) tr ->
  let s := fst (run tr (boot ls)) in
  0 <= score s /\ (1 <= level s)%Z /\
  Forall (fun o => -100 <= spr_x o /\ spr_x o <= 980) (obstacles s) /\
  Forall (fun d => spr_x d <= 1050 /\
                   exists h, d_health (spr_data d) = Some h /\ (h == 1 \/ h == 2 \/ h == 3))
    (dragons s).
Proof.
  intros F. cbv zeta. apply (run_on_track tr (boot ls) F).
  split; [apply Qle_refl|]. split; [reflexivity|]. split; constructor.
Qed.

(** Twenty-four seconds of play, a barrel, the frame that reaches level 2
    and spawns the first dragon, and a stomp on that dragon: the barrel and
    the dragon are on the track afterwards, the dragon with health 2. *)
Lemma sprites_stay_on_track_witness :
  let falling := {| p_x := 120; p_y := 300; vy := 200; blocked_down := false;
                    touching_down := false |} in
  let tr := [Update 24000; SpawnTimerFires 0; Update 1000;
             PhysicsStep falling; DragonOverlap 1 (fun _ => 0.5)] in
  let s := fst (run tr (boot ∅)) in
  map spr_id (obstacles s) = [0%nat] /\ map spr_id (dragons s) = [1%nat] /\
  map (fun d => d_health (spr_data d)) (dragons s) = [Some (3 - 1)] /\
  Forall (fun o => -100 <= spr_x o /\ spr_x o <= 980) (obstacles s) /\
  Forall (fun d => spr_x d <= 1050 /\
                   exists h, d_health (spr_data d) = Some h /\ (h == 1 \/ h == 2 \/ h == 3))
    (dragons s).
Proof.
  intros falling tr s.
  destruct (sprites_stay_on_track ∅ tr) as (_ & _ & Ho & Hd).
  - repeat constructor.
  - split; [reflexivity|]. split; [reflexivity|]. split; [reflexivity|].
    split; [exact Ho|exact Hd].
Defined.


(** ** The dragon timer *)

Lemma update_dragonSpawnTimer (delta : Q) (s : RunnerScene) :
  let lvl := (Qfloor ((score s + delta * 0.01) / 250) + 1)%Z in
  dragonSpawnTimer (update delta s)
  = if gameActive s && negb (lvl =? level s)%Z && (lvl =? 2)%Z
       && negb (bool_decide (is_Some (dragonSpawnTimer s)))
    then Some dragonTimer else dragonSpawnTimer s.
Proof.
  cbv zeta. destruct (gameActive s) eqn:A; cbn [andb];
    [|rewrite RunnerFacts.update_inactive by exact A; reflexivity].
  rewrite RunnerFacts.update_active by exact A.
  change (dragonSpawnTimer (tick_groups delta (tick_text (tick_level delta s))))
    with (dragonSpawnTimer (tick_level delta s)).
  unfold tick_level. cbv zeta.
  cbn [score set_score level dragonSpawnTimer set_level set_levelText].
  destruct (negb _); cbn [andb]; [|reflexivity].
  destruct (_ =? 2)%Z; cbn [andb]; [|reflexivity].
  destruct (negb (bool_decide _)); reflexivity.
Qed.

Section LevelTwo.

Import Lqa.

Lemma level_from_500 (q : Q) : 500 <= q -> (3 <= Qfloor (q / 250) + 1)%Z.
Proof.
  intros H.
  assert (2 <= q / 250) by (apply Qle_shift_div_l; [reflexivity|lra]).
  pose proof (Qfloor_resp_le 2 (q / 250) ltac:(assumption)) as F.
  change (Qfloor 2) with 2%Z in F. lia.
Qed.

Lemma update_past_level_2 (delta : Q) (s : RunnerScene) :
  dragonSpawnTimer s = None -> 500 <= score s -> 0 <= delta ->
  let s' := update delta s in
  dragonSpawnTimer s' = None /\ 500 <= score s' /\
  (length (dragons s') <= length (dragons s))%nat.
Proof.
  intros T S D s'. subst s'.
  destruct (gameActive s) eqn:A;
    [|rewrite RunnerFacts.update_inactive by exact A; repeat split; [exact T|exact S|lia]].
  assert (S' : 500 <= score s + delta * 0.01) by lra.
  assert (L : ((Qfloor ((score s + delta * 0.01) / 250) + 1 =? 2)%Z = false)).
  { apply Z.eqb_neq. pose proof (level_from_500 _ S'). lia. }
  split; [|split].
  - rewrite update_dragonSpawnTimer. cbv zeta. rewrite L, andb_false_r. exact T.
  - rewrite RunnerFacts.update_score by exact A. exact S'.
  - rewrite RunnerFacts.update_dragons by exact A.
    eapply Nat.le_trans; [apply RunnerFacts.length_sweep_le|].
    unfold dragons_to_move. rewrite L, andb_false_r. cbn [andb]. lia.
Qed.

End LevelTwo.

(** [update] creates the dragon timer, and spawns the first dragon, on one
    kind of tick only: the game is active, the level the tick computes is
    2 and is not the current level, and no dragon timer exists.  So a game
    whose score has reached 500 without a dragon timer, because one long
    frame or a bonus carried it from level 1 past level 2, never gets one:
    no later run of frames creates the timer or adds a dragon. *)
Theorem dragons_start_at_level_2_only :
  (forall (delta : Q) (s : RunnerScene),
     let lvl := (Qfloor ((score s + delta * 0.01) / 250) + 1)%Z in
     dragonSpawnTimer (update delta s)
     = if gameActive s && negb (lvl =? level s)%Z && (lvl =? 2)%Z
          && negb (bool_decide (is_Some (dragonSpawnTimer s)))
       then Some dragonTimer else dragonSpawnTimer s) /\
  (forall (deltas : list Q) (s : RunnerScene),
     dragonSpawnTimer s = None -> 500 <= score s ->
     Forall (fun delta => 0 <= delta) deltas ->
     let s' := updates deltas s in
     dragonSpawnTimer s' = None /\ 500 <= score s' /\
     (length (dragons s') <= length (dragons s))%nat).
Proof.
  split; [exact update_dragonSpawnTimer|].
  intros deltas s T S F. revert s T S.
  induction F as [|delta deltas Hd _ IH]; intros s T S.
  - repeat split; [exact T|exact S|reflexivity].
  - destruct (update_past_level_2 delta s T S Hd) as (T1 & S1 & L1).
    destruct (IH (update delta s) T1 S1) as (T2 & S2 & L2).
    cbv zeta. cbn [updates fold_left]. fold (updates deltas (update delta s)).
    split; [exact T2|]. split; [exact S2|lia].
Qed.

(** One frame of 50 seconds takes a fresh game from level 1 to level 3;
    a minute of play later there is still no dragon. *)
Lemma dragons_start_at_level_2_only_witness :
  let s := update 50000 (start ∅) in
  level s = 3%Z /\
  dragonSpawnTimer (updates (repeat 1000 60) s) = None /\
  dragons (updates (repeat 1000 60) s) = [].
Proof.
  intros s.
  destruct dragons_start_at_level_2_only as (_ & H).
  destruct (H (repeat 1000 60) s) as (T & _ & L).
  - reflexivity.
  - apply Qle_bool_iff. reflexivity.
  - apply List.Forall_forall. intros x Hx. apply repeat_spec in Hx. subst x.
    apply Qle_bool_iff. reflexivity.
  - assert (D : dragons s = []) by reflexivity.
    rewrite D in L. apply Nat.le_0_r, List.length_zero_iff_nil in L.
    split; [reflexivity|]. split; [exact T|exact L].
Defined.

(** ** The fire-breath interval *)

Lemma fireBreathTick_alive (k : nat) (s : RunnerScene) (iv : FireInterval) (d : Sprite) :
  intervals s !! k = Some iv ->
  find (is_dragon (iv_dragon iv)) (dragons s) = Some d ->
  let s' := fireBreathTick k s in
  intervals s' !! k
  = Some {| iv_dragon := iv_dragon iv;
            iv_counter := if (3 <=? iv_counter iv + 1)%Z then 0%Z
                          else (iv_counter iv + 1)%Z |} /\
  dragons s' = dragons s /\
  gameActive s' = gameActive s /\
  fireParticles s'
  = fireParticles s ++
    map (fun i => fire (nextId s + i)%nat (spr_x d - 40) (spr_y d + 30)) (seq 0 8).
Proof.
  intros Hk Hd. unfold fireBreathTick. rewrite Hk, Hd. cbv zeta.
  cbn [intervals dragons gameActive fireParticles set_intervals spawnFire set_nextId
       set_fireParticles].
  split; [|repeat split].
  apply list_lookup_insert_eq. eapply lookup_lt_Some, Hk.
Qed.

Lemma fireBreathTick_iter (n : nat) (k : nat) (s : RunnerScene) (iv : FireInterval)
    (d : Sprite) :
  intervals s !! k = Some iv ->
  find (is_dragon (iv_dragon iv)) (dragons s) = Some d ->
  (0 <= iv_counter iv < 3)%Z ->
  let s' := Nat.iter n (fireBreathTick k) s in
  intervals s' !! k
  = Some {| iv_dragon := iv_dragon iv;
            iv_counter := ((iv_counter iv + Z.of_nat n) mod 3)%Z |} /\
  dragons s' = dragons s /\
  gameActive s' = gameActive s /\
  exists new,
    fireParticles s' = fireParticles s ++ new /\ length new = (8 * n)%nat /\
    Forall (fun f => spr_x f = spr_x d - 40 /\ spr_y f = spr_y d + 30 /\
                     d_life (spr_data f) = Some 0.8 /\ spr_life f = None) new.
Proof.
  intros Hk Hd Hc. induction n as [|n IH].
  - cbn [Nat.iter nat_rect]. split.
    + rewrite Hk. destruct iv as [dr c]. cbn [iv_dragon iv_counter] in *.
      do 2 f_equal. rewrite Z.add_0_r, Z.mod_small by lia. reflexivity.
    + split; [reflexivity|]. split; [reflexivity|].
      exists []. split; [symmetry; apply app_nil_r|]. split; [reflexivity|constructor].
  - cbv zeta in *. rewrite Nat.iter_succ.
    destruct IH as (Ik & Ig & Ia & new & If & Il & IF).
    set (s1 := Nat.iter n (fireBreathTick k) s) in *.
    destruct (fireBreathTick_alive k s1 _ d Ik) as (Jk & Jg & Ja & Jf);
      [cbn [iv_dragon]; rewrite Ig; exact Hd|].
    cbn [iv_dragon iv_counter] in Jk.
    split; [|split; [congruence|split; [congruence|]]].
    + rewrite Jk. do 2 f_equal.
      replace (iv_counter iv + Z.of_nat (S n))%Z
        with ((iv_counter iv + Z.of_nat n) + 1)%Z by lia.
      rewrite <- (Z.add_mod_idemp_l (iv_counter iv + Z.of_nat n)) by lia.
      pose proof (Z.mod_pos_bound (iv_counter iv + Z.of_nat n) 3 ltac:(lia)) as B.
      set (m := ((iv_counter iv + Z.of_nat n) mod 3)%Z) in *.
      assert (E : (m = 0 \/ m = 1 \/ m = 2)%Z) by lia.
      destruct E as [->|[->| ->]]; reflexivity.
    + eexists. split; [rewrite Jf, If; symmetry; apply app_assoc|].
      split; [rewrite length_app, Il, length_map, length_seq; lia|].
      apply Forall_app. split; [exact IF|].
      apply List.Forall_map, Forall_forall. intros i _. repeat split.
Qed.

(** The callback of a fire-breath interval.  While its dragon is in the
    group, every call adds eight fire particles at the dragon's mouth (40
    left of the dragon and 30 below its centre), whatever the closure's
    counter holds and whether the game is active or over: after [n] calls
    the group has [8 * n] more particles and the counter has gone round
    modulo 3.  Once the dragon is gone, the call removes the interval and
    adds nothing. *)
Theorem fire_breath_never_pauses (s : RunnerScene) (k : nat) (iv : FireInterval) :
  intervals s !! k = Some iv ->
  (forall (d : Sprite) (n : nat),
     find (is_dragon (iv_dragon iv)) (dragons s) = Some d ->
     (0 <= iv_counter iv < 3)%Z ->
     let s' := Nat.iter n (fireBreathTick k) s in
     (iv_counter <$> intervals s' !! k) = Some ((iv_counter iv + Z.of_nat n) mod 3)%Z /\
     gameActive s' = gameActive s /\
     exists new,
       fireParticles s' = fireParticles s ++ new /\ length new = (8 * n)%nat /\
       Forall (fun f => spr_x f = spr_x d - 40 /\ spr_y f = spr_y d + 30 /\
                        d_life (spr_data f) = Some 0.8 /\ spr_life f = None) new) /\
  (find (is_dragon (iv_dragon iv)) (dragons s) = None ->
   let s' := fireBreathTick k s in
   intervals s' = delete k (intervals s) /\ fireParticles s' = fireParticles s).
Proof.
  intros Hk. split.
  - intros d n Hd Hc.
    destruct (fireBreathTick_iter n k s iv d Hk Hd Hc) as (Ik & _ & Ia & H).
    cbv zeta. rewrite Ik. split; [reflexivity|]. split; [exact Ia|exact H].
  - intros Hd. unfold fireBreathTick. rewrite Hk, Hd. split; reflexivity.
Qed.

(** The interval of a freshly spawned dragon fires four times, the game
    being over. *)
Lemma fire_breath_never_pauses_witness :
  let s := fst (gameOver (spawnDragon (start ∅), ∅)) in
  gameActive s = false /\
  length (fireParticles (Nat.iter 4 (fireBreathTick 0) s)) = 32%nat.
Proof.
  intros s.
  destruct (fire_breath_never_pauses s 0 {| iv_dragon := 0; iv_counter := 0 |} eq_refl)
    as (H & _).
  destruct (H (new_dragon 0) 4%nat eq_refl ltac:(cbn; lia)) as (_ & _ & new & E & L & _).
  split; [reflexivity|]. rewrite E, length_app, L. reflexivity.
Defined.

End SceneFacts.

(** * One tick of the runner *)

Module ScrollFacts.

Import Runner RunnerFacts.
Local Open Scope Q_scope.

Lemma sweep_length_half (body : Sprite -> option Sprite) (l : list Sprite) :
  (length l <= 2 * length (sweep body l) + 1)%nat.
Proof.
  apply (sweep_walk body (fun l l' => (length l <= 2 * length l' + 1)%nat));
    intros; cbn [length]; lia.
Qed.

Lemma sweep_move_all (speed delta bound : Q) (l : list Sprite) :
  Forall (fun o => bound <= spr_x o - speed * (delta / 1000)) l ->
  sweep (move_left speed delta bound) l
  = map (fun o => set_x (spr_x o - speed * (delta / 1000)) o) l.
Proof.
  intros H. apply sweep_map. eapply Forall_impl; [exact H|].
  intros o B. unfold move_left. cbv zeta. cbn [spr_x set_x].
  apply Qltb_ge in B. rewrite B. reflexivity.
Qed.

(** One tick of an active game.  The score grows by [delta * 0.01]; the
    level is the one that the new score gives, and the score text shows the
    floor of the new score.  The obstacles are walked in the order of their
    group, at the obstacle speed of the new level: a visited obstacle moves
    left by the speed times [delta / 1000] and is destroyed when it ends
    left of -100, and the obstacle that follows a destroyed one is not
    visited on this tick: it stays in the group where it was.  So a tick
    that destroys no obstacle moves every obstacle; a tick that destroys
    the first obstacle leaves the second unmoved; and at most every other
    obstacle is destroyed by one tick.  The dragons, the one spawned on this
    tick included, are walked in the same way at the dragon speed of the new
    level with the bound -150.  A tick of a game that is over changes
    nothing. *)
Theorem update_scrolls_and_culls (delta : Q) (s : RunnerScene) :
  let s' := update delta s in
  let obstacleSpeed := 300 + inject_Z (level s' - 1) * 30 in
  let dragonSpeed := 250 + inject_Z (level s' - 1) * 20 in
  let moved speed o := set_x (spr_x o - speed * (delta / 1000)) o in
  (gameActive s = false -> s' = s) /\
  (gameActive s = true ->
   score s' = score s + delta * 0.01 /\
   level s' = (Qfloor (score s' / 250) + 1)%Z /\
   scoreText s' = Qfloor (score s') /\
   obstacles s' = sweep (move_left obstacleSpeed delta (-100)) (obstacles s) /\
   dragons s' = sweep (move_left dragonSpeed delta (-150)) (dragons_to_move delta s) /\
   gameActive s' = true /\
   (Forall (fun o => -100 <= spr_x (moved obstacleSpeed o)) (obstacles s) ->
    obstacles s' = map (moved obstacleSpeed) (obstacles s)) /\
   (forall first second rest,
      obstacles s = first :: second :: rest ->
      spr_x (moved obstacleSpeed first) < -100 ->
      exists rest', obstacles s' = second :: rest') /\
   (length (obstacles s) <= 2 * length (obstacles s') + 1)%nat /\
   (length (dragons_to_move delta s) <= 2 * length (dragons s') + 1)%nat).
Proof.
  cbv zeta. split; [apply update_inactive|]. intros A.
  split; [apply update_score, A|]. split; [apply update_level, A|]. split.
  { rewrite update_active by exact A.
    change (scoreText (tick_groups delta (tick_text (tick_level delta s))))
      with (Qfloor (score (tick_level delta s))).
    reflexivity. }
  pose proof (update_obstacles delta s A) as O.
  pose proof (update_dragons delta s A) as D.
  split; [exact O|]. split; [exact D|].
  split; [rewrite update_gameActive; exact A|]. split; [|split; [|split]].
  - intros F. rewrite O. apply sweep_move_all. exact F.
  - intros first second rest E L. rewrite O, E. cbn [sweep].
    unfold move_left at 1. cbv zeta. apply Qltb_lt in L. rewrite L.
    eexists. reflexivity.
  - rewrite O. apply sweep_length_half.
  - rewrite D. apply sweep_length_half.
Qed.

(** A barrel at 150 followed by a box at 600, and a tick of one second at
    level 1: the barrel ends at -150 and is destroyed, and the box, which
    follows it, is still at 600 after the tick. *)
Lemma update_scrolls_and_culls_witness :
  let s := set_obstacles [set_x 150 (new_obstacle 0 "barrel" 438);
                          set_x 600 (new_obstacle 1 "box" 436)] (start ∅) in
  obstacles (update 1000 s) = [set_x 600 (new_obstacle 1 "box" 436)].
Proof.
  intros s. destruct (update_scrolls_and_culls 1000 s) as (_ & H).
  destruct (H eq_refl) as (_ & _ & _ & O & _ & _ & _ & K & _).
  destruct (K _ _ _ eq_refl) as (rest' & E); [vm_compute; reflexivity|].
  rewrite O. reflexivity.
Defined.

End ScrollFacts.

(** * The component that mounts the runner *)

Module PhaserGameFacts.

Import PhaserGame.

Lemma destroy_ids (g : nat) (l : list Game) : map game_id (destroy g l) = map game_id l.
Proof.
  unfold destroy. rewrite map_map. apply map_ext. intros x.
  destruct (_ =? _)%nat; reflexivity.
Qed.

Lemma effect_tidy (c : Component) : tidy c -> tidy (effect c).
Proof.
  intros (N & B & F & G). unfold effect.
  destruct (negb (containerRef c)); [repeat split; assumption|].
  destruct (gameRef c) as [g|] eqn:R;
    [unfold tidy; rewrite R; repeat split; assumption|].
  unfold tidy. cbn [games gameRef created].
  rewrite map_app. cbn [map game_id].
  split; [|split; [|split]].
  - apply NoDup_app. split; [exact N|]. split; [|apply NoDup_singleton].
    intros x Hx Hx'. apply list_elem_of_singleton in Hx'. subst x.
    apply list_elem_of_In, in_map_iff in Hx as (y & E & Hy).
    rewrite List.Forall_forall in B. pose proof (B y Hy). lia.
  - apply Forall_app. split; [|repeat constructor].
    eapply Forall_impl; [exact B|]. intros x Hx. cbv beta in *. lia.
  - apply Forall_app. split; [|constructor; [split; reflexivity|constructor]].
    rewrite List.Forall_forall in B, F. apply List.Forall_forall. intros x Hx.
    pose proof (B x Hx) as Bx. destruct (F x Hx) as (F1 & _). split.
    + intros P. apply F1 in P. discriminate.
    + intros [= E]. lia.
  - intros g [= <-]. apply in_or_app. right. left. reflexivity.
Qed.

Lemma cleanup_tidy (c : Component) :
  tidy c -> tidy (cleanup c) /\ running (cleanup c) = [].
Proof.
  intros (N & B & F & G).
  assert (P : Forall (fun x => pendingDestroy x = true) (games (cleanup c))).
  { unfold cleanup. cbn [games]. destruct (gameRef c) as [g|] eqn:R.
    - unfold destroy. apply List.Forall_map.
      eapply Forall_impl; [exact F|]. intros x (F1 & _). cbv beta.
      destruct (Nat.eqb_spec (game_id x) g) as [E|E]; [reflexivity|].
      destruct (pendingDestroy x); [reflexivity|].
      specialize (F1 eq_refl). congruence.
    - eapply Forall_impl; [exact F|]. intros x (F1 & _). cbv beta.
      destruct (pendingDestroy x); [reflexivity|]. specialize (F1 eq_refl). discriminate. }
  assert (I : map game_id (games (cleanup c)) = map game_id (games c)).
  { unfold cleanup. cbn [games]. destruct (gameRef c); [apply destroy_ids|reflexivity]. }
  split.
  - unfold tidy. rewrite I. split; [exact N|]. split; [|split].
    + apply List.Forall_forall. intros x Hx.
      assert (Hi : In (game_id x) (map game_id (games (cleanup c))))
        by (apply in_map, Hx).
      rewrite I in Hi. apply in_map_iff in Hi as (y & E & Hy).
      rewrite List.Forall_forall in B. pose proof (B y Hy) as By.
      change (created (cleanup c)) with (created c). lia.
    + eapply Forall_impl; [exact P|]. intros x Hx. cbv beta.
      change (gameRef (cleanup c)) with (@None nat). rewrite Hx.
      split; discriminate.
    + intros g. discriminate.
  - unfold running. clear I. induction P as [|x l Hx _ IH]; [reflexivity|].
    cbn [List.filter]. rewrite Hx. exact IH.
Qed.

Lemma gameStep_tidy (g : nat) (c : Component) : tidy c -> tidy (gameStep g c).
Proof.
  intros (N & B & F & G). unfold tidy, gameStep. cbn [games gameRef created].
  set (keep := fun x => negb ((game_id x =? g)%nat && pendingDestroy x)).
  split; [|split; [|split]].
  - clear B F G. induction (games c) as [|x l IH]; [constructor|].
    cbn [map] in N. apply NoDup_cons in N as (Hx & N).
    cbn [List.filter]. destruct (keep x); [|apply IH, N].
    cbn [map]. apply NoDup_cons. split; [|apply IH, N].
    intros Hin. apply Hx. apply list_elem_of_In in Hin. apply list_elem_of_In.
    apply in_map_iff in Hin as (y & E & Hy). apply filter_In in Hy as (Hy & _).
    apply in_map_iff. exists y. split; assumption.
  - apply List.Forall_forall. intros x Hx. apply filter_In in Hx as (Hx & _).
    rewrite List.Forall_forall in B. apply B, Hx.
  - apply List.Forall_forall. intros x Hx. apply filter_In in Hx as (Hx & _).
    rewrite List.Forall_forall in F. apply F, Hx.
  - intros h R. pose proof (G h R) as Hin. apply in_map_iff in Hin as (y & E & Hy).
    apply in_map_iff. exists y. split; [exact E|]. apply filter_In. split; [exact Hy|].
    rewrite List.Forall_forall in F. destruct (F y Hy) as (_ & F2).
    subst keep. cbv beta. rewrite F2 by (rewrite R, E; reflexivity).
    rewrite andb_false_r. reflexivity.
Qed.

Lemma run_tidy (tr : list Event) (c : Component) : tidy c -> tidy (run tr c).
Proof.
  revert c. induction tr as [|e tr IH]; intros c H; [exact H|].
  change (run (e :: tr) c) with (run tr (step e c)). apply IH.
  destruct e; cbn [step];
    [apply effect_tidy|apply cleanup_tidy|apply gameStep_tidy]; exact H.
Qed.

Lemma tidy_running (c : Component) : tidy c -> (length (running c) <= 1)%nat.
Proof.
  intros (N & _ & F & _). unfold running.
  assert (H : forall l : list Game,
             NoDup (map game_id l) ->
             Forall (fun x => pendingDestroy x = false <-> gameRef c = Some (game_id x)) l ->
             (length (List.filter (fun x => negb (pendingDestroy x)) l) <= 1)%nat /\
             (forall x, In x (List.filter (fun x => negb (pendingDestroy x)) l) ->
                        gameRef c = Some (game_id x) /\ In (game_id x) (map game_id l))).
  { clear N F. induction l as [|x l IH]; intros N F.
    - split; [cbn; lia|intros x []].
    - cbn [map] in N. apply NoDup_cons in N as (Hx & N).
      inversion F as [|? ? Fx Fl]; subst. destruct (IH N Fl) as (L & M).
      cbn [List.filter]. destruct (pendingDestroy x) eqn:P; cbn [negb].
      + split; [exact L|]. intros y Hy. destruct (M y Hy) as (R & I).
        split; [exact R|right; exact I].
      + destruct Fx as (Fx & _). specialize (Fx eq_refl).
        destruct (List.filter _ l) as [|y k] eqn:E.
        * split; [cbn; lia|]. intros y [<-|[]]. split; [exact Fx|left; reflexivity].
        * exfalso. destruct (M y (or_introl eq_refl)) as (R & I).
          apply Hx. apply list_elem_of_In. rewrite Fx in R. injection R as R.
          rewrite R. exact I. }
  apply (H (games c) N F).
Qed.

(** However often, and in whatever order, the effect and its cleanup run
    and the games step: [destroy] was called on every game that exists,
    except the one [gameRef] holds, which is among them; so at most one
    game is running; the cleanup leaves none running; and the effect
    leaves [gameRef] set exactly when the container is attached.  A game on
    which [destroy] was called still exists until its next step: after the
    effect, the cleanup and the effect again there are two games, one of
    them flagged, and one once the flagged game has stepped. *)
Theorem one_game_at_most (container : bool) (tr : list Event) :
  let c := run tr (rendered container) in
  Forall (fun x => pendingDestroy x = false <-> gameRef c = Some (game_id x)) (games c) /\
  (forall g, gameRef c = Some g -> In g (map game_id (games c))) /\
  (length (running c) <= 1)%nat /\
  running (cleanup c) = [] /\
  (is_Some (gameRef (effect c)) <-> container = true) /\
  (let twice := run [Effect; Cleanup; Effect] (rendered true) in
   map game_id (games twice) = [0%nat; 1%nat] /\
   map game_id (running twice) = [1%nat] /\
   map game_id (games (gameStep 0 twice)) = [1%nat]).
Proof.
  cbv zeta.
  assert (T : tidy (rendered container)).
  { split; [constructor|]. split; [constructor|]. split; [constructor|discriminate]. }
  pose proof (run_tidy tr (rendered container) T) as H.
  assert (C : forall tr c, containerRef (run tr c) = containerRef c).
  { clear. intros tr. induction tr as [|e tr IH]; intros c; [reflexivity|].
    change (run (e :: tr) c) with (run tr (step e c)). rewrite IH.
    destruct e; cbn [step]; [|reflexivity|reflexivity].
    unfold effect. destruct (negb (containerRef c)); [reflexivity|].
    destruct (gameRef c); reflexivity. }
  assert (N : forall tr c, containerRef c = false -> gameRef c = None ->
                           gameRef (run tr c) = None).
  { clear. intros tr. induction tr as [|e tr IH]; intros c Hc Hg; [exact Hg|].
    change (run (e :: tr) c) with (run tr (step e c)).
    destruct e; cbn [step].
    - unfold effect. rewrite Hc. cbn [negb]. apply IH; assumption.
    - apply IH; [exact Hc|reflexivity].
    - apply IH; assumption. }
  set (c := run tr (rendered container)) in *.
  destruct H as (Hn & Hb & Hf & Hg).
  split; [exact Hf|]. split; [exact Hg|].
  split; [apply tidy_running; repeat split; assumption|].
  split; [apply cleanup_tidy; repeat split; assumption|].
  split; [|repeat split].
  unfold effect. subst c. rewrite C. cbn [containerRef rendered].
  destruct container; cbn [negb].
  - destruct (gameRef _) eqn:G.
    + rewrite G. split; [reflexivity|eauto].
    + cbn [gameRef]. split; [reflexivity|eauto].
  - rewrite N by reflexivity. split; [intros [? [=]]|discriminate].
Qed.

End PhaserGameFacts.

(** * The traffic light on the HUD *)

Module LightHudFacts.

Import Light.
Local Open Scope Z_scope.

Lemma LIGHT_DURATIONS_pos (st : LightState) : 0 < LIGHT_DURATIONS st.
Proof. destruct st; reflexivity. Qed.

(** A ratio of integers [a / d] with [0 <= a <= d] lies between 0 and 1. *)
Lemma ratio_bounds (a d : Z) :
  0 <= a <= d -> 0 < d -> (0 <= inject_Z a / inject_Z d /\ inject_Z a / inject_Z d <= 1)%Q.
Proof.
  intros (Ha & Had) Hd.
  assert (D : (0 < inject_Z d)%Q) by (change 0%Q with (inject_Z 0); rewrite <- Zlt_Qlt; exact Hd).
  split.
  - apply Qle_shift_div_l; [exact D|]. rewrite Qmult_0_l.
    change 0%Q with (inject_Z 0). rewrite <- Zle_Qle. exact Ha.
  - apply Qle_shift_div_r; [exact D|]. rewrite Qmult_1_l.
    rewrite <- Zle_Qle. exact Had.
Qed.

Lemma lightProgress_ratio (c : LightCycle) :
  0 <= lightTimeLeft c <= lightDuration c -> 0 < lightDuration c ->
  (lightProgress c
   == inject_Z (lightDuration c - lightTimeLeft c) / inject_Z (lightDuration c))%Q /\
  (0 <= lightProgress c /\ lightProgress c <= 1)%Q.
Proof.
  intros Hl Hd.
  destruct (ratio_bounds (lightDuration c - lightTimeLeft c) (lightDuration c)
              ltac:(lia) Hd) as (B0 & B1).
  unfold lightProgress. cbv zeta.
  destruct (Qltb _ 1) eqn:E.
  - split; [reflexivity|]. split; assumption.
  - apply RunnerFacts.Qltb_ge in E. split; [|split; [discriminate|apply Qle_refl]].
    apply Qle_antisym; assumption.
Qed.

(** The 100 ms poll of a running light, at a time [now] not before the
    start of the current state: the time left it stores is the remainder
    of the state's duration, cut off at 0, so it lies between 0 and the
    duration; the progress bar computed from it lies between 0 and 1, is
    the elapsed fraction of the duration, and is full once the duration has
    elapsed.  The cycle itself never writes the time left: after a change
    of state the value is stale until the next poll. *)
Theorem poll_time_left (now : Z) (c : LightCycle) :
  running c -> lightStart c <= now ->
  let c' := poll now c in
  let duration := LIGHT_DURATIONS (lightState c) in
  lightTimeLeft c' = Z.max 0 (duration - (now - lightStart c)) /\
  0 <= lightTimeLeft c' <= duration /\
  (0 <= lightProgress c' /\ lightProgress c' <= 1)%Q /\
  (now <= lightStart c + duration ->
   (lightProgress c' == inject_Z (now - lightStart c) / inject_Z duration)%Q) /\
  (lightStart c + duration <= now -> lightTimeLeft c' = 0 /\ (lightProgress c' == 1)%Q) /\
  (forall t, lightTimeLeft (resume t c') = lightTimeLeft c').
Proof.
  intros (Hm & Hd & Ha) Hs c' duration.
  pose proof (LIGHT_DURATIONS_pos (lightState c)) as Hp. fold duration in Hp, Hd.
  assert (L : lightTimeLeft c' = Z.max 0 (duration - (now - lightStart c))).
  { subst c'. unfold poll. rewrite Hm. cbn [lightTimeLeft]. rewrite Hd. reflexivity. }
  assert (D : lightDuration c' = duration).
  { subst c'. unfold poll. rewrite Hm. exact Hd. }
  assert (B : 0 <= lightTimeLeft c' <= duration) by (rewrite L; lia).
  destruct (lightProgress_ratio c') as (E & P0 & P1); [rewrite D; exact B|rewrite D; exact Hp|].
  rewrite D in E.
  split; [exact L|]. split; [exact B|]. split; [split; assumption|].
  split; [|split].
  - intros H. rewrite E, L. rewrite Z.max_r by lia.
    replace (duration - (duration - (now - lightStart c))) with (now - lightStart c) by lia.
    reflexivity.
  - intros H. assert (Z0 : lightTimeLeft c' = 0) by (rewrite L; lia).
    split; [exact Z0|]. rewrite E, Z0, Z.sub_0_r.
    unfold Qdiv. apply Qmult_inv_r. intros N.
    assert (X : (0 < inject_Z duration)%Q)
      by (change 0%Q with (inject_Z 0); rewrite <- Zlt_Qlt; exact Hp).
    rewrite N in X. inversion X.
  - intros t. unfold resume. destruct (awaiting c') as [[due st]|]; [|reflexivity].
    destruct (t <? due); [reflexivity|]. destruct (mounted c'); reflexivity.
Qed.

(** A light mounted at time 0 and polled 1.5 s later. *)
Lemma poll_time_left_witness :
  lightTimeLeft (poll 1500 (mount 0)) = 4500 /\
  (lightProgress (poll 1500 (mount 0)) == 1 # 4)%Q.
Proof.
  destruct (poll_time_left 1500 (mount 0)) as (L & _ & _ & P & _).
  - apply LightFacts.mount_running.
  - discriminate.
  - split; [exact L|]. rewrite P by discriminate. reflexivity.
Defined.

End LightHudFacts.

(** * More on the light cycle *)

Module LightTimerFacts.

Import Light LightFacts.
Local Open Scope Z_scope.

Lemma delayed_running (late : Z) (c : LightCycle) :
  0 <= late -> running c ->
  lightState (delayed late c) = next (lightState c) /\
  lightStart (delayed late c) = lightStart c + LIGHT_DURATIONS (lightState c) + late /\
  running (delayed late c).
Proof.
  intros Hl R. pose proof R as (_ & _ & Ha). unfold delayed. rewrite Ha.
  apply (resume_running _ c R). lia.
Qed.

(** The timeouts of the cycle are chained: each state starts when the
    timeout of the one before it fires.  So when the timeouts fire late, by
    [lates], the states still follow each other in the order green, yellow,
    red, every state is shown for its full duration and for the time its
    timeout is late on top, and the delays add up: the [n]-th state starts
    at the time of the mount plus the durations of the states before it plus
    all the delays so far.  The cycle never catches up. *)
Theorem late_timeouts_accumulate (now : Z) (lates : list Z) :
  Forall (fun late => 0 <= late) lates ->
  let c := fold_left (fun c late => delayed late c) lates (mount now) in
  let n := length lates in
  lightState c = phase n /\
  lightStart c = now + elapsed n + fold_right Z.add 0 lates /\
  running c.
Proof.
  induction lates as [|late lates IH] using rev_ind; intros F.
  - cbn. repeat split. lia.
  - apply Forall_app in F as (F & Hl). apply Forall_inv in Hl.
    cbv zeta in *. rewrite fold_left_app. cbn [fold_left].
    destruct (IH F) as (Hs & Ht & R).
    set (c := fold_left (fun c late => delayed late c) lates (mount now)) in *.
    destruct (delayed_running late c Hl R) as (Hs' & Ht' & R').
    rewrite length_app, Nat.add_1_r. cbn [length].
    split; [rewrite Hs', Hs, phase_succ; reflexivity|]. split; [|exact R'].
    rewrite Ht', Ht, Hs. cbn [elapsed].
    rewrite fold_right_app. cbn [fold_right].
    assert (E : forall (l : list Z) (a : Z), fold_right Z.add a l = fold_right Z.add 0 l + a).
    { clear. induction l as [|x l IH]; intros a; cbn [fold_right]; [lia|].
      rewrite IH. lia. }
    rewrite (E lates (late + 0)). lia.
Qed.

(** The first timeout fires 40 ms late, the second 15 ms late. *)
Lemma late_timeouts_accumulate_witness :
  let c := delayed 15 (delayed 40 (mount 1000)) in
  lightState c = red /\ lightStart c = 1000 + 6000 + 1500 + 55.
Proof.
  intros c. destruct (late_timeouts_accumulate 1000 [40; 15]) as (S & T & _).
  - repeat constructor; lia.
  - split; [exact S|exact T].
Defined.

Lemma timer_unmounted (c : LightCycle) (e : Z * bool) :
  mounted c = false ->
  let c' := timer c e in
  lightState c' = lightState c /\ lightStart c' = lightStart c /\
  lightDuration c' = lightDuration c /\ lightTimeLeft c' = lightTimeLeft c /\
  mounted c' = false /\
  (awaiting c' = awaiting c \/ awaiting c' = None).
Proof.
  intros H. unfold timer. destruct (snd e).
  - unfold resume. destruct (awaiting c) as [[due st]|] eqn:A; [|rewrite A; tauto].
    destruct (fst e <? due); [rewrite A; tauto|]. rewrite H. cbn. tauto.
  - unfold poll. rewrite H. tauto.
Qed.

(** After the cleanup of the effects nothing changes the light any more:
    whatever timeouts and polls still arrive, the state, its start, its
    duration and the time left stay as they were at the unmount, and the
    timeout that was pending when the component went away ends the loop
    when it fires instead of setting the next state. *)
Theorem unmounted_light_is_still (c : LightCycle) (events : list (Z * bool)) :
  let c' := fold_left timer events (unmount c) in
  (lightState c' = lightState c /\ lightStart c' = lightStart c /\
   lightDuration c' = lightDuration c /\ lightTimeLeft c' = lightTimeLeft c /\
   mounted c' = false) /\
  (forall due st t, awaiting c = Some (due, st) -> due <= t ->
     awaiting (resume t (unmount c)) = None /\
     lightState (resume t (unmount c)) = lightState c).
Proof.
  cbv zeta. split.
  - assert (G : forall c0, mounted c0 = false ->
                lightState (fold_left timer events c0) = lightState c0 /\
                lightStart (fold_left timer events c0) = lightStart c0 /\
                lightDuration (fold_left timer events c0) = lightDuration c0 /\
                lightTimeLeft (fold_left timer events c0) = lightTimeLeft c0 /\
                mounted (fold_left timer events c0) = false).
    { induction events as [|e events IH]; intros c0 H; [repeat split; exact H|].
      cbn [fold_left].
      destruct (timer_unmounted c0 e H) as (A & B & C & D & M & _).
      destruct (IH _ M) as (A' & B' & C' & D' & M').
      repeat split; congruence. }
    apply (G (unmount c)). reflexivity.
  - intros due st t A H. unfold resume. cbn [awaiting unmount mounted]. rewrite A.
    apply Z.ltb_ge in H. rewrite H. split; reflexivity.
Qed.

End LightTimerFacts.

(** * The kinematic car over whole runs *)

Module CarFacts.

Import Light Kinematic KinematicFacts.
Local Open Scope R_scope.

(** ** Speeds *)

Lemma magnitude_pos (v : R * R) : 0 <= magnitude v.
Proof. apply sqrt_pos. Qed.

Lemma magnitude_square (v : R * R) :
  magnitude v * magnitude v = fst v * fst v + snd v * snd v.
Proof. unfold magnitude. apply sqrt_sqrt. nra. Qed.

Lemma magnitude_le (v : R * R) (r : R) :
  0 <= r -> fst v * fst v + snd v * snd v <= r * r -> magnitude v <= r.
Proof.
  intros Hr H. unfold magnitude. rewrite <- (sqrt_square r Hr).
  apply sqrt_le_1_alt, H.
Qed.

Lemma magnitude_triangle (a b : R * R) :
  magnitude (fst a + fst b, snd a + snd b) <= magnitude a + magnitude b.
Proof.
  pose proof (magnitude_pos a) as Ha. pose proof (magnitude_pos b) as Hb.
  pose proof (magnitude_square a) as Sa. pose proof (magnitude_square b) as Sb.
  apply magnitude_le; [lra|]. cbn [fst snd].
  destruct a as [a1 a2], b as [b1 b2]. cbn [fst snd] in *.
  set (A := magnitude (a1, a2)) in *. set (B := magnitude (b1, b2)) in *.
  assert (C : a1 * b1 + a2 * b2 <= A * B).
  { destruct (Rle_lt_dec (a1 * b1 + a2 * b2) (A * B)) as [L|L]; [exact L|exfalso].
    assert (P : 0 <= A * B) by nra.
    assert (Q : (A * B) * (A * B) < (a1 * b1 + a2 * b2) * (a1 * b1 + a2 * b2)) by nra.
    assert (E : (A * B) * (A * B) = (a1 * a1 + a2 * a2) * (b1 * b1 + b2 * b2)).
    { rewrite <- Sa, <- Sb. ring. }
    rewrite E in Q.
    pose proof (Rle_0_sqr (a1 * b2 - a2 * b1)) as S. unfold Rsqr in S. nra. }
  nra.
Qed.

Lemma magnitude_heading (a r : R) :
  0 <= r -> magnitude (- sin a * r, - cos a * r) = r.
Proof.
  intros Hr. unfold magnitude. cbn [fst snd].
  replace (- sin a * r * (- sin a * r) + - cos a * r * (- cos a * r))
    with ((Rsqr (sin a) + Rsqr (cos a)) * (r * r)) by (unfold Rsqr; ring).
  rewrite sin2_cos2, Rmult_1_l. apply sqrt_square, Hr.
Qed.

Lemma frame_d_bounds (delta : R) : 0 <= delta -> 0 <= frame_d delta <= 0.05.
Proof.
  intros H. unfold frame_d. split; [apply Rmin_glb; lra|apply Rmin_r].
Qed.

Lemma magnitude_damped (f : R) (p : Physics) :
  0 <= f <= 1 ->
  magnitude (vx p * f, vz p * f) <= magnitude (vx p, vz p).
Proof.
  intros (F0 & F1).
  replace (vx p * f, vz p * f) with (f * fst (vx p, vz p), f * snd (vx p, vz p))
    by (cbn [fst snd]; f_equal; ring).
  rewrite magnitude_scale by exact F0.
  pose proof (magnitude_pos (vx p, vz p)). nra.
Qed.

(** The velocity after throttle, brake or coast, before the cap. *)
Lemma drive_magnitude (k : Keys) (d a : R) (p : Physics) :
  0 <= d <= 0.05 ->
  magnitude (drive k d a p)
  <= magnitude (vx p, vz p) + (if ArrowUp k then 18 * d else 0).
Proof.
  intros (D0 & D1). unfold drive. cbv zeta. destruct (ArrowUp k).
  - replace (vx p + - sin a * 18 * d, vz p + - cos a * 18 * d)
      with (fst (vx p, vz p) + fst (- sin a * (18 * d), - cos a * (18 * d)),
            snd (vx p, vz p) + snd (- sin a * (18 * d), - cos a * (18 * d)))
      by (cbn [fst snd]; f_equal; ring).
    eapply Rle_trans; [apply magnitude_triangle|].
    rewrite magnitude_heading by lra. lra.
  - destruct (ArrowDown k); rewrite Rplus_0_r; apply magnitude_damped.
    + split; [apply Rmax_l|apply Rmax_lub; lra].
    + split; [apply Rmax_l|apply Rmax_lub; lra].
Qed.

Lemma cap_shrinks (v : R * R) : magnitude (cap v) <= magnitude v.
Proof.
  destruct (cap_uniform v) as (k & (K0 & K1) & E & _).
  rewrite E, magnitude_scale by lra.
  pose proof (magnitude_pos v). nra.
Qed.

(** ** What a frame leaves behind *)

Lemma onBarrierHit_speed (now : Z) (g : Game) : speed (onBarrierHit now g) = speed g.
Proof.
  unfold onBarrierHit. destruct (decide _); [|reflexivity].
  unfold setStatus. destruct (decide _); reflexivity.
Qed.

Lemma onCrossStopLine_speed (now : Z) (g : Game) : speed (onCrossStopLine now g) = speed g.
Proof.
  unfold onCrossStopLine. destruct (decide _); unfold setStatus; destruct (decide _);
    reflexivity.
Qed.

(** The three kinds of frame, and the car, its velocity and the displayed
    speed after each. *)
Lemma useFrame_cases (now : Z) (delta : R) (g : Game) :
  (useFrame now delta g = g /\ (carRef g = None \/ paused g = true)) \/
  (exists mesh,
     carRef g = Some mesh /\ paused g = false /\
     4.5 < Rabs (frame_nx delta g mesh) /\
     carRef (useFrame now delta g) = Some mesh /\
     physics (useFrame now delta g) = {| vx := 0; vz := 0; angle := frame_angle delta g |} /\
     speed (useFrame now delta g) = speed g) \/
  (exists mesh,
     carRef g = Some mesh /\ paused g = false /\
     Rabs (frame_nx delta g mesh) <= 4.5 /\
     carRef (useFrame now delta g)
     = Some (place (frame_nx delta g mesh) (frame_nz delta g mesh) (frame_angle delta g)
               mesh) /\
     physics (useFrame now delta g)
     = {| vx := fst (frame_v delta g); vz := snd (frame_v delta g);
          angle := frame_angle delta g |} /\
     speed (useFrame now delta g)
     = magnitude (drive (keys g) (frame_d delta) (frame_angle delta g) (physics g))).
Proof.
  frame_cases now delta g.
  - left. split; [reflexivity|right; reflexivity].
  - right. right. exists mesh. split; [reflexivity|]. split; [reflexivity|].
    split; [exact Hb|].
    destruct (negb (crossed g) && _); [|repeat split].
    match goal with |- context [onCrossStopLine now ?h] =>
      destruct (onCrossStopLine_frame now h) as (C & P & _);
      pose proof (onCrossStopLine_speed now h) as S end.
    rewrite C, P, S. repeat split.
  - right. left. exists mesh. split; [reflexivity|]. split; [reflexivity|].
    split; [exact Hb|].
    destruct (onBarrierHit_frame now g) as (C & _).
    cbn [carRef physics speed set_physics]. rewrite C, onBarrierHit_speed, Hc.
    repeat split.
  - left. split; [reflexivity|left; reflexivity].
Qed.

Lemma frame_v_bound (delta : R) (g : Game) : magnitude (frame_v delta g) <= 14.
Proof. unfold frame_v. apply cap_magnitude. Qed.

(** One frame of at least 0 seconds.  Unless the throttle key is held the
    car's speed does not grow; with it the speed grows by [18 * d] at most,
    [d] the capped [delta]; after a frame that ran (a car exists and the
    game is not paused) the speed is at most 14; and the car is displaced by
    at most 0.7 units, so that it cannot jump over anything wider. *)
Theorem throttle_only_accelerates (now : Z) (delta : R) (g : Game) :
  0 <= delta ->
  let g' := useFrame now delta g in
  let before := magnitude (vx (physics g), vz (physics g)) in
  let after := magnitude (vx (physics g'), vz (physics g')) in
  (ArrowUp (keys g) = false -> after <= before) /\
  after <= before + 18 * frame_d delta /\
  (carRef g <> None -> paused g = false -> after <= 14) /\
  (forall m m', carRef g = Some m -> carRef g' = Some m' ->
     magnitude (pos_x m' - pos_x m, pos_z m' - pos_z m) <= 0.7).
Proof.
  intros Hd g' before after.
  pose proof (frame_d_bounds delta Hd) as D.
  pose proof (magnitude_pos (vx (physics g), vz (physics g))) as B0. fold before in B0.
  pose proof (drive_magnitude (keys g) (frame_d delta) (frame_angle delta g) (physics g) D)
    as Dr. fold before in Dr.
  pose proof (cap_shrinks (drive (keys g) (frame_d delta) (frame_angle delta g)
                             (physics g))) as Cp.
  fold (frame_v delta g) in Cp.
  pose proof (frame_v_bound delta g) as Cv.
  destruct (useFrame_cases now delta g)
    as [(E & I)|[(mesh & Hc & Hp & Hb & C & P & _)|(mesh & Hc & Hp & Hb & C & P & _)]];
    subst after g'.
  - rewrite E. fold before. split; [lra|]. split; [lra|]. split.
    + intros N Q. destruct I as [I|I]; congruence.
    + intros m m' H1 H2. rewrite H1 in H2. injection H2 as <-.
      rewrite !Rminus_diag. rewrite magnitude_zero. lra.
  - rewrite P, C. cbn [vx vz]. rewrite magnitude_zero.
    split; [lra|]. split; [lra|]. split; [lra|].
    intros m m' H1 H2. rewrite Hc in H1. injection H1 as <-. injection H2 as <-.
    rewrite !Rminus_diag. rewrite magnitude_zero. lra.
  - rewrite P, C. cbn [vx vz].
    replace (fst (frame_v delta g), snd (frame_v delta g)) with (frame_v delta g)
      by (destruct (frame_v delta g); reflexivity).
    split; [intros U; rewrite U in Dr; lra|].
    split; [destruct (ArrowUp (keys g)); lra|]. split; [lra|].
    intros m m' H1 H2. rewrite Hc in H1. injection H1 as <-. injection H2 as <-.
    cbn [pos_x pos_z place]. unfold frame_nx, frame_nz.
    replace (pos_x mesh + fst (frame_v delta g) * frame_d delta - pos_x mesh,
             pos_z mesh + snd (frame_v delta g) * frame_d delta - pos_z mesh)
      with (frame_d delta * fst (frame_v delta g), frame_d delta * snd (frame_v delta g))
      by (f_equal; ring).
    rewrite magnitude_scale by lra.
    pose proof (magnitude_pos (frame_v delta g)). nra.
Qed.

(** A car coasting at 10 units/s for a frame of 50 ms. *)
Lemma throttle_only_accelerates_witness :
  magnitude (vx (physics (useFrame 0 0.05 drifting)), vz (physics (useFrame 0 0.05 drifting)))
  <= magnitude (10, 0).
Proof.
  destruct (throttle_only_accelerates 0 0.05 drifting) as (H & _).
  - lra.
  - apply H. reflexivity.
Defined.

(** ** Bounds that hold throughout a run *)

(** What holds at the start and is kept by every step of a run of events
    of one kind holds at its end. *)
Lemma run_invariant_on (Q : Event -> Prop) (P : Game -> Prop) :
  (forall now e g, Q e -> P g -> P (step now e g)) ->
  forall tr g, Forall (fun te => Q (snd te)) tr -> P g -> P (run tr g).
Proof.
  intros Hstep tr g F. revert g.
  induction F as [|[now e] tr He _ IH]; intros g Hg; [exact Hg|].
  cbn [run fold_left fst snd]. apply IH, Hstep; assumption.
Qed.

Lemma setStatus_speed (now : Z) (st : Status) (g : Game) :
  speed (setStatus now st g) = speed g.
Proof. unfold setStatus. destruct (decide _); reflexivity. Qed.

Lemma reset_speed (now : Z) (g : Game) : speed (reset now g) = speed g.
Proof.
  rewrite reset_eq. destruct (carRef g); cbn [speed set_carRef];
    rewrite setStatus_speed; reflexivity.
Qed.

(** Only frames write the velocity and the displayed speed. *)
Lemma step_keeps_speed (now : Z) (e : Event) (g : Game) :
  (forall delta, e <> Frame delta) ->
  physics (step now e g) = physics g /\ speed (step now e g) = speed g.
Proof.
  intros H. destruct e as [delta|key|key| | | |]; cbn [step].
  - destruct (H delta eq_refl).
  - unfold keydown. destruct (is_arrow key); [split; reflexivity|].
    destruct (is_p key); split; reflexivity.
  - unfold keyup. destruct (is_arrow key); split; reflexivity.
  - split; [apply reset_round|apply reset_speed].
  - split; reflexivity.
  - split; reflexivity.
  - unfold autoReset. destruct (resetTimer g); [|split; reflexivity].
    destruct (_ <? _)%Z; [split; reflexivity|].
    split; [apply reset_round|apply reset_speed].
Qed.

Lemma step_bounded (now : Z) (e : Event) (g : Game) :
  forward e ->
  magnitude (vx (physics g), vz (physics g)) <= 14 /\ 0 <= speed g <= 14.9 ->
  magnitude (vx (physics (step now e g)), vz (physics (step now e g))) <= 14 /\
  0 <= speed (step now e g) <= 14.9.
Proof.
  intros F (M & S).
  destruct e as [delta|key|key| | | |];
    try (match goal with |- context [step now ?e g] =>
           destruct (step_keeps_speed now e g ltac:(intros ?; discriminate)) as (-> & ->)
         end; split; assumption).
  cbn [forward] in F. cbn [step].
  pose proof (frame_d_bounds delta F) as D.
  pose proof (drive_magnitude (keys g) (frame_d delta) (frame_angle delta g) (physics g) D)
    as Dr.
  destruct (useFrame_cases now delta g)
    as [(E & _)|[(mesh & _ & _ & _ & _ & P & Sp)|(mesh & _ & _ & _ & _ & P & Sp)]].
  - rewrite E. split; assumption.
  - rewrite P, Sp. cbn [vx vz]. rewrite magnitude_zero. split; [lra|exact S].
  - rewrite P, Sp. cbn [vx vz].
    replace (fst (frame_v delta g), snd (frame_v delta g)) with (frame_v delta g)
      by (destruct (frame_v delta g); reflexivity).
    split; [apply frame_v_bound|]. split; [apply magnitude_pos|].
    destruct (ArrowUp (keys g)); lra.
Qed.

Lemma Math_round_bounds (x : R) (lo hi : Z) :
  IZR lo - 0.5 <= x -> x < IZR hi + 0.5 -> (lo <= Math_round x <= hi)%Z.
Proof.
  intros L H. unfold Math_round.
  destruct (Zfloor_bound (x + 0.5)) as (B1 & B2). split.
  - assert (I : IZR lo < IZR (Zfloor (x + 0.5)) + 1) by lra.
    rewrite <- plus_IZR in I. apply lt_IZR in I. lia.
  - assert (I : IZR (Zfloor (x + 0.5)) < IZR hi + 1) by lra.
    rewrite <- plus_IZR in I. apply lt_IZR in I. lia.
Qed.

(** Throughout a game whose frames have a [delta] that is not negative: the
    car's speed is at most 14; the speed shown on the HUD, which a frame
    takes before it applies the cap, is between 0 and 14.9; and the
    speedometer, [speedKmh], shows between 0 and 215. *)
Theorem speed_is_bounded (now0 : Z) (tr : list (Z * Event)) :
  Forall (fun te => forward (snd te)) tr ->
  let g := run tr (init now0) in
  magnitude (vx (physics g), vz (physics g)) <= 14 /\
  0 <= speed g <= 14.9 /\
  (0 <= speedKmh g <= 215)%Z.
Proof.
  intros F g.
  assert (B : magnitude (vx (physics g), vz (physics g)) <= 14 /\ 0 <= speed g <= 14.9).
  { subst g.
    apply (run_invariant_on forward
             (fun g => magnitude (vx (physics g), vz (physics g)) <= 14 /\
                       0 <= speed g <= 14.9)); [apply step_bounded|exact F|].
    cbn [init physics speed zero vx vz]. rewrite magnitude_zero. lra. }
  destruct B as (M & S). split; [exact M|]. split; [exact S|].
  unfold speedKmh. apply Math_round_bounds; lra.
Qed.

(** Full throttle for two frames. *)
Lemma speed_is_bounded_witness :
  let tr := [(0, KeyDown "ArrowUp"); (16, Frame 0.016); (32, Frame 0.016)]%Z in
  (0 <= speedKmh (run tr (init 0)) <= 215)%Z.
Proof.
  intros tr. destruct (speed_is_bounded 0 tr) as (_ & _ & H).
  - repeat constructor; cbn; lra.
  - exact H.
Defined.

(** ** Nothing moves before the throttle is opened *)

Lemma steer_at_rest (k : Keys) (d : R) : steer k d zero = 0.
Proof.
  unfold steer. cbn [vx vz angle zero]. cbv zeta.
  replace (0 * 0 + 0 * 0) with 0 by ring. rewrite sqrt_0.
  replace (Rltb 0.2 0) with false; [reflexivity|]. symmetry. apply Rltb_ge. lra.
Qed.

Lemma drive_at_rest (k : Keys) (d a : R) : ArrowUp k = false -> drive k d a zero = (0, 0).
Proof.
  intros H. unfold drive. rewrite H. cbn [vx vz zero]. cbv zeta.
  destruct (ArrowDown k); f_equal; ring.
Qed.

Lemma cap_at_rest : cap (0, 0) = (0, 0).
Proof.
  unfold cap. cbv zeta. fold (magnitude (0, 0)). rewrite magnitude_zero.
  replace (Rltb 14 0) with false; [reflexivity|]. symmetry. apply Rltb_ge. lra.
Qed.

Lemma reset_parked (now : Z) (g : Game) : parked g -> reset now g = g.
Proof.
  intros (C & P & S & K & St & Sc & X & T). rewrite reset_eq, C.
  unfold setStatus. cbn [status set_crossed]. rewrite St.
  destruct (decide (playing = playing)) as [_|N]; [|contradiction].
  destruct g. cbn in *. subst. reflexivity.
Qed.

Lemma step_parked (now : Z) (e : Event) (g : Game) :
  throttle e = false -> parked g -> parked (step now e g).
Proof.
  intros He Pk. pose proof Pk as (C & P & S & K & St & Sc & X & T).
  destruct e as [delta|key|key| | | |]; cbn [step].
  - destruct (useFrame_cases now delta g)
      as [(E & _)|[(mesh & Hc & _ & Hb & _)|(mesh & Hc & Hp & Hb & C' & P' & S')]].
    + rewrite E. exact Pk.
    + exfalso. revert Hb. unfold frame_nx, frame_v, frame_angle.
      rewrite P, steer_at_rest, (drive_at_rest _ _ _ K), cap_at_rest.
      rewrite C in Hc. injection Hc as <-. cbn [fst pos_x].
      rewrite Rmult_0_l, Rplus_0_r, Rabs_R0. lra.
    + assert (A : frame_angle delta g = 0)
        by (unfold frame_angle; rewrite P; apply steer_at_rest).
      assert (V : frame_v delta g = (0, 0)).
      { unfold frame_v. rewrite A, P, (drive_at_rest _ _ _ K). apply cap_at_rest. }
      rewrite C in Hc. injection Hc as <-.
      assert (NX : frame_nx delta g
                     {| pos_x := 0; pos_y := 0.3; pos_z := 18;
                        rot_x := 0; rot_y := 0; rot_z := 0; __physics := None |} = 0).
      { unfold frame_nx. rewrite V. cbn [fst pos_x]. ring. }
      assert (NZ : frame_nz delta g
                     {| pos_x := 0; pos_y := 0.3; pos_z := 18;
                        rot_x := 0; rot_y := 0; rot_z := 0; __physics := None |} = 18).
      { unfold frame_nz. rewrite V. cbn [snd pos_z]. ring. }
      rewrite (useFrame_free now delta g _ C Hp Hb). cbv zeta.
      rewrite X, NZ, NX, A, V, P, (drive_at_rest _ _ _ K), magnitude_zero.
      cbn [negb andb fst snd].
      replace (Rltb 18 0) with false by (symmetry; apply Rltb_ge; lra).
      repeat split; assumption.
  - cbn [throttle] in He. unfold keydown.
    destruct (is_arrow key); [|destruct (is_p key); exact Pk].
    repeat split; try assumption.
    cbn [keys setShowInstructions set_keys set_key ArrowUp]. rewrite He. exact K.
  - unfold keyup. destruct (is_arrow key); [|exact Pk].
    repeat split; try assumption.
    cbn [keys set_keys set_key ArrowUp]. destruct (String.eqb key "ArrowUp"); [reflexivity|exact K].
  - rewrite reset_parked; exact Pk.
  - exact Pk.
  - exact Pk.
  - unfold autoReset. rewrite T. exact Pk.
Qed.

(** Until the throttle key is pressed for the first time nothing happens to
    the round: whatever frames, other keys, resets and timeouts occur, the
    car stands at the spawn position with zero velocity and heading, the
    speed shown is 0, the status is [playing], the score 0, the
    crossed-flag false, and no auto-reset is pending. *)
Theorem parked_until_throttle (now0 : Z) (tr : list (Z * Event)) :
  Forall (fun te => throttle (snd te) = false) tr ->
  let g := run tr (init now0) in
  carRef g = carRef (init now0) /\ physics g = zero /\ speed g = 0 /\
  status g = playing /\ score g = 0%Z /\ crossed g = false /\ resetTimer g = None.
Proof.
  intros F g.
  assert (Pk : parked g).
  { subst g.
    apply (run_invariant_on (fun e => throttle e = false) parked);
      [apply step_parked|exact F|]. repeat split. }
  destruct Pk as (C & P & S & K & St & Sc & X & T). repeat split; assumption.
Qed.

(** Brake, steering, a frame, a pause and a click on the reset button. *)
Lemma parked_until_throttle_witness :
  let tr := [(0, KeyDown "ArrowDown"); (5, KeyDown "ArrowLeft"); (16, Frame 0.016);
             (20, KeyDown "p"); (30, ClickReset)]%Z in
  carRef (run tr (init 0)) = carRef (init 0) /\ status (run tr (init 0)) = playing.
Proof.
  intros tr. destruct (parked_until_throttle 0 tr) as (C & _ & _ & S & _).
  - repeat constructor.
  - split; [exact C|exact S].
Defined.

(** ** Pause *)

Lemma is_p_not_arrow (key : string) : is_p key = true -> is_arrow key = false.
Proof.
  unfold is_p. intros H. apply orb_true_iff in H as [H|H];
    apply String.eqb_eq in H; subst key; reflexivity.
Qed.

Lemma paused_frames (frames : list (Z * R)) (g : Game) :
  paused g = true -> run (map (fun f => (fst f, Frame (snd f))) frames) g = g.
Proof.
  intros H. induction frames as [|[t d] frames IH]; [reflexivity|].
  cbn [map run fold_left fst snd step].
  rewrite (useFrame_idle t d g (or_intror H)). exact IH.
Qed.

(** The P key, in either case, is a pure toggle of the kinematic game: it
    sets [paused]; while the game is paused no frame changes anything; and
    pressing the key again gives back exactly the game that was paused, car,
    velocity and round included. *)
Theorem pause_is_a_toggle (key key' : string) (frames : list (Z * R)) (g : Game) :
  is_p key = true -> is_p key' = true ->
  let g1 := keydown key g in
  paused g1 = negb (paused g) /\
  (paused g = false ->
   run (map (fun f => (fst f, Frame (snd f))) frames) g1 = g1 /\
   keydown key' (run (map (fun f => (fst f, Frame (snd f))) frames) g1) = g).
Proof.
  intros K K' g1. subst g1. unfold keydown.
  rewrite (is_p_not_arrow key K), (is_p_not_arrow key' K'), K, K'.
  split; [reflexivity|]. intros P.
  assert (P1 : paused (setPaused negb g) = true) by (cbn; rewrite P; reflexivity).
  rewrite (paused_frames frames _ P1). split; [reflexivity|].
  destruct g. cbn in *. subst. reflexivity.
Qed.

(** A coasting car, paused for two frames. *)
Lemma pause_is_a_toggle_witness :
  keydown "p" (run [(16, Frame 0.016); (32, Frame 0.016)]%Z (keydown "P" drifting))
  = drifting.
Proof.
  destruct (pause_is_a_toggle "P" "p" [(16%Z, 0.016); (32%Z, 0.016)] drifting eq_refl eq_refl)
    as (_ & H).
  destruct (H eq_refl) as (_ & E). exact E.
Defined.

(** ** The follow camera *)

Lemma desired_behind (m : Group) :
  let t := desired m in
  (vec_x t - pos_x m) * (vec_x t - pos_x m) + (vec_z t - pos_z m) * (vec_z t - pos_z m) = 64 /\
  vec_y t = pos_y m + 3.5.
Proof.
  unfold desired, add. cbn [vec_x vec_y vec_z]. split; [|reflexivity].
  replace ((pos_x m + sin (rot_y m) * 8 - pos_x m) * (pos_x m + sin (rot_y m) * 8 - pos_x m)
           + (pos_z m + cos (rot_y m) * 8 - pos_z m)
             * (pos_z m + cos (rot_y m) * 8 - pos_z m))
    with (64 * (Rsqr (sin (rot_y m)) + Rsqr (cos (rot_y m)))) by (unfold Rsqr; ring).
  rewrite sin2_cos2. ring.
Qed.


(** ** The end of a round *)

(** A round of the kinematic game that ends at time [now], the status
    going to [passed] or [failed]: the timeout of the auto-reset does
    nothing before [now + 4000]; fired at or after that time it starts the
    next round, with the status [playing], the crossed-flag cleared, the
    car's group at the spawn pose, the score as it was and no timeout
    pending, after which a further timeout does nothing; and a click on the
    reset button before the timeout does the same and cancels it. *)
Theorem round_restarts_after_4s (now : Z) (st : Status) (g : Game) :
  terminal st = true -> st <> status g ->
  let g1 := setStatus now st g in
  let fresh (g2 : Game) :=
    status g2 = playing /\ crossed g2 = false /\ carRef g2 = respawn <$> carRef g /\
    score g2 = score g /\ resetTimer g2 = None /\
    forall t', step t' AutoResetTimeout g2 = g2 in
  (forall t, (t < now + 4000)%Z -> step t AutoResetTimeout g1 = g1) /\
  (forall t, (now + 4000 <= t)%Z -> fresh (step t AutoResetTimeout g1)) /\
  (forall t, fresh (step t ClickReset g1)).
Proof.
  intros Ht Hne g1 fresh.
  assert (T : resetTimer g1 = Some (now + 4000)%Z).
  { subst g1. rewrite setStatus_timer. destruct (decide _); [contradiction|].
    rewrite Ht. reflexivity. }
  assert (S : status g1 = st) by apply setStatus_status.
  destruct (setStatus_frame now st g) as (C & _ & _ & _ & Sc & _). fold g1 in C, Sc.
  assert (R : forall t, fresh (reset t g1)).
  { intros t. destruct (reset_round t g1) as (St & X & _ & Sc' & _).
    assert (N : resetTimer (reset t g1) = None).
    { rewrite reset_timer, S. destruct (decide _) as [E|_]; [|reflexivity].
      rewrite <- E in Ht. discriminate. }
    split; [exact St|]. split; [exact X|]. split; [rewrite reset_car, C; reflexivity|].
    split; [congruence|]. split; [exact N|].
    intros t'. cbn [step]. unfold autoReset. rewrite N. reflexivity. }
  split; [|split].
  - intros t H. cbn [step]. unfold autoReset. rewrite T.
    apply Z.ltb_lt in H. rewrite H. reflexivity.
  - intros t H. cbn [step]. unfold autoReset. rewrite T.
    apply Z.ltb_ge in H. rewrite H. apply R.
  - intros t. apply R.
Qed.

(** The car of [drifting] runs into the barrier at time 0. *)
Lemma round_restarts_after_4s_witness :
  step 3999 AutoResetTimeout (setStatus 0 failed drifting) = setStatus 0 failed drifting /\
  status (step 4000 AutoResetTimeout (setStatus 0 failed drifting)) = playing.
Proof.
  destruct (round_restarts_after_4s 0 failed drifting eq_refl ltac:(discriminate))
    as (H1 & H2 & _).
  split; [apply H1; reflexivity|]. apply (H2 4000%Z). discriminate.
Defined.

End CarFacts.

(** * Steering *)

Module SteerFacts.

Import Light Kinematic KinematicFacts CarFacts.
Local Open Scope R_scope.

Lemma steer_turn (k : Keys) (d : R) (p : Physics) :
  0 <= d ->
  let speed := magnitude (vx p, vz p) in
  let turn := steer k d p - angle p in
  Rabs turn <= 1.4 * d /\
  (speed <= 0.2 -> turn = 0) /\
  (ArrowLeft k = ArrowRight k -> turn = 0) /\
  (0.2 < speed -> ArrowLeft k = true -> ArrowRight k = false ->
   turn = Rmin (speed * 0.4) 1.4 * d) /\
  (0.2 < speed -> ArrowLeft k = false -> ArrowRight k = true ->
   turn = - (Rmin (speed * 0.4) 1.4 * d)).
Proof.
  intros Hd speed turn. subst turn. unfold steer. cbv zeta.
  change (sqrt (vx p * vx p + vz p * vz p)) with speed.
  destruct (Rltb 0.2 speed) eqn:E.
  - apply Rltb_lt in E.
    assert (M0 : 0 <= Rmin (speed * 0.4) 1.4) by (apply Rmin_glb; lra).
    assert (M1 : Rmin (speed * 0.4) 1.4 <= 1.4) by apply Rmin_r.
    assert (P : 0 <= Rmin (speed * 0.4) 1.4 * d <= 1.4 * d) by nra.
    split; [|split; [intros; lra|split; [|split]]].
    + destruct (ArrowLeft k), (ArrowRight k); cbn [b2r];
        match goal with |- Rabs ?x <= _ =>
          first [ replace x with 0 by ring; rewrite Rabs_R0; lra
                | replace x with (Rmin (speed * 0.4) 1.4 * d) by ring;
                  rewrite Rabs_pos_eq; lra
                | replace x with (- (Rmin (speed * 0.4) 1.4 * d)) by ring;
                  rewrite Rabs_Ropp, Rabs_pos_eq; lra ] end.
    + intros ->. destruct (ArrowRight k); cbn [b2r]; ring.
    + intros _ -> ->. cbn [b2r]. ring.
    + intros _ -> ->. cbn [b2r]. ring.
  - apply Rltb_ge in E. rewrite Rminus_diag, Rabs_R0.
    split; [lra|]. split; [reflexivity|]. split; [reflexivity|]. split; intros; lra.
Qed.

(** Steering in one frame of at least 0 seconds.  The heading turns only
    while the car is faster than 0.2 and exactly one of the two steering
    keys is held: to the left the heading grows, to the right it falls, by
    [min(speed * 0.4, 1.4) * d], [d] the capped [delta].  So no frame turns
    the car by more than 0.07 radians. *)
Theorem steering_is_gentle (now : Z) (delta : R) (g : Game) :
  0 <= delta ->
  let speed := magnitude (vx (physics g), vz (physics g)) in
  let turn := frame_angle delta g - angle (physics g) in
  let rate := Rmin (speed * 0.4) 1.4 * frame_d delta in
  Rabs turn <= 0.07 /\
  (speed <= 0.2 -> turn = 0) /\
  (ArrowLeft (keys g) = ArrowRight (keys g) -> turn = 0) /\
  (0.2 < speed -> ArrowLeft (keys g) = true -> ArrowRight (keys g) = false ->
   turn = rate) /\
  (0.2 < speed -> ArrowLeft (keys g) = false -> ArrowRight (keys g) = true ->
   turn = - rate) /\
  Rabs (angle (physics (useFrame now delta g)) - angle (physics g)) <= 0.07.
Proof.
  intros Hd speed turn rate.
  destruct (frame_d_bounds delta Hd) as (D0 & D1).
  destruct (steer_turn (keys g) (frame_d delta) (physics g) D0) as (B & Z1 & Z2 & L & R).
  fold (frame_angle delta g) in B, Z1, Z2, L, R. fold speed turn in B, Z1, Z2, L, R.
  assert (B' : Rabs turn <= 0.07) by lra.
  split; [exact B'|]. split; [exact Z1|]. split; [exact Z2|]. split; [exact L|].
  split; [exact R|].
  destruct (useFrame_cases now delta g)
    as [(E & _)|[(mesh & _ & _ & _ & _ & P & _)|(mesh & _ & _ & _ & _ & P & _)]].
  - rewrite E, Rminus_diag, Rabs_R0. lra.
  - rewrite P. exact B'.
  - rewrite P. exact B'.
Qed.

(** A car at 10 units/s, steered to the left for a frame of 16 ms. *)
Lemma steering_is_gentle_witness :
  let g := set_keys {| ArrowUp := false; ArrowDown := false; ArrowLeft := true;
                       ArrowRight := false |} drifting in
  Rabs (frame_angle 0.016 g - 0) <= 0.07.
Proof.
  intros g. destruct (steering_is_gentle 0 0.016 g) as (H & _).
  - lra.
  - exact H.
Defined.

End SteerFacts.

(** * The rigid-body game: hit flashes, pause, sound and the end of a round *)

Module BodyFacts.

Import Light RigidBody RigidBodyFacts.
Local Open Scope R_scope.

Lemma rigid_run_cons (now : Z) (e : Event) (tr : list (Z * Event)) (g : Game) :
  run ((now, e) :: tr) g = run tr (step now e g).
Proof. reflexivity. Qed.

(** ** Hit flashes *)

Lemma flash_young (now : Z) (h : Hit) :
  (now - hit_t h <= 900)%Z ->
  flash now h
  = Some {| fl_key := hit_id h;
            fl_position := {| v_x := v_x (hit_pos h); v_y := v_y (hit_pos h) + 0.6;
                              v_z := v_z (hit_pos h) |};
            fl_scale := 1 + IZR (now - hit_t h) / 900 * 3;
            fl_opacity := 1 - IZR (now - hit_t h) / 900 |}.
Proof.
  intros H. unfold flash. cbv zeta.
  destruct (Z.ltb_spec 900 (now - hit_t h)) as [L|L]; [lia|reflexivity].
Qed.

(** The flash of a hit that is not in the future.  It is drawn exactly
    while the hit is at most 900 ms old, 0.6 above the place of the hit and
    under the hit's id as its key; its opacity falls linearly from 1 to 0
    and its scale grows from 1 to 4 as it ages. *)
Theorem flash_fades (now : Z) (h : Hit) :
  (hit_t h <= now)%Z ->
  match flash now h with
  | None => (900 < now - hit_t h)%Z
  | Some f =>
      (now - hit_t h <= 900)%Z /\
      fl_key f = hit_id h /\
      fl_position f = {| v_x := v_x (hit_pos h); v_y := v_y (hit_pos h) + 0.6;
                         v_z := v_z (hit_pos h) |} /\
      fl_opacity f = 1 - IZR (now - hit_t h) / 900 /\
      fl_scale f = 1 + 3 * (IZR (now - hit_t h) / 900) /\
      0 <= fl_opacity f <= 1 /\ 1 <= fl_scale f <= 4
  end.
Proof.
  intros H. unfold flash. cbv zeta.
  destruct (Z.ltb_spec 900 (now - hit_t h)) as [L|L]; [exact L|].
  cbn [fl_key fl_position fl_opacity fl_scale].
  assert (A0 : 0 <= IZR (now - hit_t h)) by (apply IZR_le; lia).
  assert (A1 : IZR (now - hit_t h) <= 900) by (apply IZR_le; lia).
  repeat split; try reflexivity; try lra.
  exact L.
Qed.

(** A hit rendered 450 ms after it happened. *)
Lemma flash_fades_witness :
  let h := {| hit_id := 7; hit_pos := origin; hit_t := 1000 |} in
  exists f, flash 1450 h = Some f /\ fl_opacity f = 1 - IZR 450 / 900.
Proof.
  intros h. pose proof (flash_fades 1450 h ltac:(cbn; lia)) as H.
  destruct (flash 1450 h) as [f|] eqn:E.
  - exists f. split; [reflexivity|]. destruct H as (_ & _ & _ & O & _). exact O.
  - cbn in H. lia.
Defined.

Lemma setStatus_hits (now : Z) (st : Status) (g : Game) :
  hits (setStatus now st g) = hits g /\ carBodyRef (setStatus now st g) = carBodyRef g.
Proof. unfold setStatus. destruct (decide _); split; reflexivity. Qed.

Lemma onCrossStopLine_hits (now : Z) (g : Game) : hits (onCrossStopLine now g) = hits g.
Proof.
  unfold onCrossStopLine. destruct (decide _).
  - apply setStatus_hits.
  - destruct (setStatus_hits now passed (setScore (fun s => (s + 1)%Z) g)) as (-> & _).
    reflexivity.
Qed.

Lemma reset_hits (now : Z) (g : Game) : hits (reset now g) = hits g.
Proof.
  unfold reset. cbv zeta.
  destruct (setStatus_hits now playing (set_crossed false g)) as (H & _).
  destruct (carBodyRef _); [cbn [hits set_carBodyRef]|]; exact H.
Qed.

Lemma togglePause_hits (g : Game) : hits (togglePause g) = hits g.
Proof.
  unfold togglePause. cbv zeta. cbn [paused set_paused carBodyRef savedVelRef].
  destruct (negb (paused g)).
  - destruct (carBodyRef g); reflexivity.
  - destruct (carBodyRef g) as [b|]; [destruct (savedVelRef g) as [[lin ang]|]|];
      reflexivity.
Qed.

(** What an event does to the list of hits: nothing, or it appends the hit
    of a barrier collision, or it drops the hits older than a second. *)
Lemma step_hits (now : Z) (e : Event) (g : Game) :
  hits (step now e g) = hits g \/
  (exists h, hits (step now e g) = hits g ++ [h]) \/
  hits (step now e g) = List.filter (fun h => (now - 1000 <=? hit_t h)%Z) (hits g).
Proof.
  destruct e as [|b|rnd|key|key| | | | |]; cbn [step].
  - left. rewrite RigidBodyFacts.rigid_useFrame_same. reflexivity.
  - left. destruct (carBodyRef g); reflexivity.
  - right. left. unfold onBarrierHit, addHit. cbv zeta. cbn [hits setHits].
    destruct (setStatus_hits now failed g) as (-> & _). eexists. reflexivity.
  - left. unfold keydown. destruct (is_arrow key); [reflexivity|].
    destruct (is_p key); [apply togglePause_hits|reflexivity].
  - left. unfold keyup. destruct (is_arrow key); reflexivity.
  - left. apply reset_hits.
  - left. reflexivity.
  - left. reflexivity.
  - left. unfold autoReset. destruct (resetTimer g); [|reflexivity].
    destruct (_ <? _)%Z; [reflexivity|apply reset_hits].
  - right. right. reflexivity.
Qed.

Lemma run_keeps_hit (h : Hit) (tr : list (Z * Event)) (g : Game) :
  Forall (fun te => (fst te <= hit_t h + 1000)%Z) tr ->
  In h (hits g) -> In h (hits (run tr g)).
Proof.
  intros F. revert g. induction F as [|[now e] tr He _ IH]; intros g H; [exact H|].
  rewrite rigid_run_cons. apply IH. cbn [fst] in He.
  destruct (step_hits now e g) as [E|[(h' & E)|E]]; rewrite E.
  - exact H.
  - apply in_or_app. left. exact H.
  - apply filter_In. split; [exact H|]. apply Z.leb_le. lia.
Qed.

Lemma In_drawn (now : Z) (h : Hit) (f : Flash) (l : list Hit) :
  In h l -> flash now h = Some f -> In f (drawn now l).
Proof.
  intros Hin Hf. unfold drawn, HitEffects. induction l as [|h' l IH]; [destruct Hin|].
  cbn [map omap list_omap]. destruct Hin as [->|Hin].
  - rewrite Hf. left. reflexivity.
  - destruct (flash now h'); [right|]; apply IH, Hin.
Qed.

(** A barrier collision at time [t0] leaves a hit stamped [t0] at the
    place of the car (the origin when there is no body), with an id that is
    [t0] plus the random offset.  Whatever happens during the next second,
    pruning included, the hit stays in the list; and at every render from
    [t0] to [t0 + 900] its flash is drawn, with the opacity that remains of
    its 900 ms. *)
Theorem collision_flash_lasts_900ms (g : Game) (t0 rnd : Z) (tr : list (Z * Event))
    (now : Z) :
  Forall (fun te => (fst te <= t0 + 1000)%Z) tr ->
  (t0 <= now <= t0 + 900)%Z ->
  let h := {| hit_id := t0 + rnd;
              hit_pos := match carBodyRef g with
                         | Some b => translation b
                         | None => origin
                         end;
              hit_t := t0 |} in
  let g1 := run tr (step t0 (BarrierCollision rnd) g) in
  hits (step t0 (BarrierCollision rnd) g) = hits g ++ [h] /\
  In h (hits g1) /\
  exists f, flash now h = Some f /\ In f (drawn now (hits g1)) /\
            fl_opacity f = 1 - IZR (now - t0) / 900.
Proof.
  intros F Hn h g1.
  assert (E : hits (step t0 (BarrierCollision rnd) g) = hits g ++ [h]).
  { cbn [step]. unfold onBarrierHit, addHit. cbv zeta. cbn [hits setHits].
    destruct (setStatus_hits t0 failed g) as (-> & ->). reflexivity. }
  assert (I : In h (hits g1)).
  { subst g1. apply run_keeps_hit; [exact F|]. rewrite E. apply in_or_app. right.
    left. reflexivity. }
  split; [exact E|]. split; [exact I|].
  rewrite (flash_young now h) by (cbn [hit_t h]; lia).
  eexists. split; [reflexivity|]. split.
  - apply (In_drawn now h _ _ I). apply flash_young. cbn [hit_t h]. lia.
  - reflexivity.
Qed.

(** The car hits a barrier at time 5000; a prune and a frame follow. *)
Lemma collision_flash_lasts_900ms_witness :
  let g1 := run [(5250, PruneHits); (5266, Frame)]%Z
              (step 5000 (BarrierCollision 123) (init 0)) in
  exists f, In f (drawn 5300 (hits g1)) /\ fl_opacity f = 1 - IZR (5300 - 5000) / 900.
Proof.
  intros g1.
  destruct (collision_flash_lasts_900ms (init 0) 5000 123
              [(5250, PruneHits); (5266, Frame)]%Z 5300)
    as (_ & _ & f & _ & I & O).
  - repeat constructor; cbn; lia.
  - lia.
  - exists f. split; [exact I|exact O].
Defined.

Lemma flash_of_old (now t : Z) (h : Hit) :
  (t <= now)%Z -> (hit_t h < t - 1000)%Z -> flash now h = None.
Proof.
  intros H1 H2. unfold flash. cbv zeta.
  destruct (Z.ltb_spec 900 (now - hit_t h)) as [L|L]; [reflexivity|lia].
Qed.

Lemma filter_filter_hits (t now : Z) (l : list Hit) :
  (t <= now)%Z ->
  List.filter (fun h => (now - 1000 <=? hit_t h)%Z)
    (List.filter (fun h => (t - 1000 <=? hit_t h)%Z) l)
  = List.filter (fun h => (now - 1000 <=? hit_t h)%Z) l.
Proof.
  intros H. induction l as [|h l IH]; [reflexivity|]. cbn [List.filter].
  destruct (Z.leb_spec (t - 1000) (hit_t h)) as [A|A]; cbn [List.filter].
  - rewrite IH. reflexivity.
  - rewrite IH. destruct (Z.leb_spec (now - 1000) (hit_t h)) as [B|B]; [lia|reflexivity].
Qed.

(** The 250 ms prune at time [t].  Every hit it keeps is at most a second
    old; it touches nothing but the list of hits; it removes no flash that
    any later render would draw, so what is drawn is the same with and
    without it; and a later prune gives the same list whether or not this
    one ran. *)
Theorem prune_drops_only_the_invisible (g : Game) (t now : Z) :
  (t <= now)%Z ->
  let g' := step t PruneHits g in
  Forall (fun h => (t - 1000 <= hit_t h)%Z) (hits g') /\
  (length (hits g') <= length (hits g))%nat /\
  drawn now (hits g') = drawn now (hits g) /\
  step now PruneHits g' = step now PruneHits g /\
  (status g' = status g /\ score g' = score g /\ carBodyRef g' = carBodyRef g /\
   crossed g' = crossed g /\ resetTimer g' = resetTimer g).
Proof.
  intros H g'. subst g'. cbn [step]. unfold pruneHits. cbn [hits setHits].
  split; [|split; [|split; [|split; [|repeat split]]]].
  - apply List.Forall_forall. intros h Hin. apply filter_In in Hin as (_ & L).
    apply Z.leb_le in L. exact L.
  - apply List.filter_length_le.
  - unfold drawn, HitEffects. induction (hits g) as [|h l IH]; [reflexivity|].
    cbn [List.filter]. destruct (Z.leb_spec (t - 1000) (hit_t h)) as [A|A].
    + cbn [map omap list_omap]. cbn [map omap list_omap] in IH. rewrite IH. reflexivity.
    + cbn [map omap list_omap]. rewrite (flash_of_old now t h H A). exact IH.
  - unfold setHits. cbn [hits carBodyRef crossed light status score showInstructions
                         speed paused savedVelRef keys resetTimer].
    rewrite (filter_filter_hits t now _ H). reflexivity.
Qed.

(** Three hits, pruned at time 2600 and rendered at 2700. *)
Lemma prune_drops_only_the_invisible_witness :
  let old := {| hit_id := 1; hit_pos := origin; hit_t := 1000 |} in
  let mid := {| hit_id := 2; hit_pos := origin; hit_t := 1700 |} in
  let new := {| hit_id := 3; hit_pos := origin; hit_t := 2500 |} in
  let g := setHits (fun _ => [old; mid; new]) (init 0) in
  hits (step 2600 PruneHits g) = [mid; new] /\
  drawn 2700 (hits (step 2600 PruneHits g)) = drawn 2700 (hits g).
Proof.
  intros old mid new g.
  destruct (prune_drops_only_the_invisible g 2600 2700 ltac:(lia)) as (_ & _ & D & _).
  split; [reflexivity|exact D].
Defined.

(** ** Pause and resume *)

Lemma setStatus_held (now : Z) (st : Status) (lin ang : Vec3) (g : Game) :
  held lin ang g -> held lin ang (setStatus now st g).
Proof.
  intros (P & S & B).
  destruct (rigid_setStatus_frame now st g) as (C & _ & _ & _ & P' & _ & S').
  unfold held. rewrite C, P', S'. repeat split; assumption.
Qed.

Lemma reset_held (now : Z) (lin ang : Vec3) (g : Game) :
  held lin ang g -> held lin ang (reset now g).
Proof.
  intros H. unfold reset. cbv zeta.
  assert (H1 : held lin ang (setStatus now playing (set_crossed false g)))
    by (apply setStatus_held; exact H).
  destruct H1 as (P & S & (b & B)). rewrite B.
  split; [exact P|]. split; [exact S|]. eexists. reflexivity.
Qed.

(** While the game is paused, no event other than the P key changes
    [paused] or the saved velocities, and the car keeps existing. *)
Lemma step_held (now : Z) (e : Event) (lin ang : Vec3) (g : Game) :
  toggles_pause e = false -> held lin ang g -> held lin ang (step now e g).
Proof.
  intros He H. pose proof H as (P & S & B).
  destruct e as [|b|rnd|key|key| | | | |]; cbn [step].
  - rewrite RigidBodyFacts.rigid_useFrame_same. exact H.
  - destruct (carBodyRef g); [|exact H].
    repeat split; [exact P|exact S|eexists; reflexivity].
  - unfold onBarrierHit, addHit. cbv zeta.
    pose proof (setStatus_held now failed lin ang g H) as (P' & S' & B').
    repeat split; assumption.
  - cbn [toggles_pause] in He. unfold keydown.
    destruct (is_arrow key); [exact H|]. cbn [negb andb] in He. rewrite He. exact H.
  - unfold keyup. destruct (is_arrow key); exact H.
  - apply reset_held, H.
  - exact H.
  - exact H.
  - unfold autoReset. destruct (resetTimer g); [|exact H].
    destruct (_ <? _)%Z; [exact H|apply reset_held, H].
  - exact H.
Qed.

Lemma run_held (tr : list (Z * Event)) (lin ang : Vec3) (g : Game) :
  Forall (fun te => toggles_pause (snd te) = false) tr ->
  held lin ang g -> held lin ang (run tr g).
Proof.
  intros F. revert g. induction F as [|[now e] tr He _ IH]; intros g H; [exact H|].
  rewrite rigid_run_cons. apply IH, step_held; assumption.
Qed.

(** Pausing a running game with a car stops the car (both velocities are
    set to zero) and saves the velocities it had.  Whatever happens until
    the P key is pressed again (frames, steps of the physics engine,
    collisions, a reset of the round), resuming gives the car exactly the
    linear and angular velocity it had when the game was paused, at the
    place and with the rotation it has by then, and forgets the saved
    velocities. *)
Theorem resume_restores_velocity (g : Game) (b : Body) (tr : list (Z * Event)) :
  carBodyRef g = Some b -> paused g = false ->
  Forall (fun te => toggles_pause (snd te) = false) tr ->
  let g1 := togglePause g in
  let g2 := togglePause (run tr g1) in
  (paused g1 = true /\
   carBodyRef g1 = Some {| translation := translation b; rotation := rotation b;
                           linvel := origin; angvel := origin |}) /\
  paused g2 = false /\ savedVelRef g2 = None /\
  exists b1,
    carBodyRef (run tr g1) = Some b1 /\
    carBodyRef g2 = Some {| translation := translation b1; rotation := rotation b1;
                            linvel := linvel b; angvel := angvel b |}.
Proof.
  intros Hb Hp F g1 g2.
  assert (E1 : g1 = set_carBodyRef
                      (Some {| translation := translation b; rotation := rotation b;
                               linvel := origin; angvel := origin |})
                      (set_savedVelRef (Some (linvel b, angvel b)) (set_paused true g))).
  { subst g1. unfold togglePause. cbv zeta. cbn [paused set_paused carBodyRef].
    rewrite Hp, Hb. reflexivity. }
  assert (H1 : held (linvel b) (angvel b) g1).
  { rewrite E1. repeat split. eexists. reflexivity. }
  pose proof (run_held tr _ _ g1 F H1) as (P & S & (b1 & B)).
  split; [rewrite E1; split; reflexivity|].
  subst g2. unfold togglePause. cbv zeta. cbn [paused set_paused carBodyRef savedVelRef].
  rewrite P, B, S. cbn [negb]. split; [reflexivity|]. split; [reflexivity|].
  exists b1. split; reflexivity.
Qed.

(** A moving car is paused, the round is reset by a click, and the game is
    resumed. *)
Lemma resume_restores_velocity_witness :
  let b := {| translation := {| v_x := 1; v_y := 0.4; v_z := 5 |};
              rotation := {| q_x := 0; q_y := 0; q_z := 0; q_w := 1 |};
              linvel := {| v_x := 0; v_y := 0; v_z := -6 |}; angvel := origin |} in
  let g := set_carBodyRef (Some b) (init 0) in
  carBodyRef (togglePause (run [(100, ClickReset)]%Z (togglePause g)))
  = Some {| translation := {| v_x := 0; v_y := 0.4; v_z := 18 |};
            rotation := {| q_x := 0; q_y := 0; q_z := 0; q_w := 1 |};
            linvel := {| v_x := 0; v_y := 0; v_z := -6 |}; angvel := origin |}.
Proof.
  intros b g.
  destruct (resume_restores_velocity g b [(100, ClickReset)]%Z eq_refl eq_refl)
    as (_ & _ & _ & b1 & B1 & B2).
  - repeat constructor.
  - rewrite B2. cbn in B1. injection B1 as <-. reflexivity.
Defined.

(** ** The sound of the engine *)

Lemma step_speed (now : Z) (e : Event) (g : Game) :
  0 <= speed g -> 0 <= speed (step now e g).
Proof.
  intros H. destruct e as [|b|rnd|key|key| | | | |]; cbn [step].
  - rewrite rigid_useFrame_same. exact H.
  - destruct (carBodyRef g); exact H.
  - unfold onBarrierHit, addHit, setStatus. cbv zeta. destruct (decide _); exact H.
  - unfold keydown. destruct (is_arrow key); [exact H|].
    destruct (is_p key); [|exact H].
    unfold togglePause. cbv zeta. cbn [paused set_paused carBodyRef savedVelRef].
    destruct (negb (paused g)).
    + destruct (carBodyRef g); exact H.
    + destruct (carBodyRef g); [destruct (savedVelRef g) as [[lin ang]|]|]; exact H.
  - unfold keyup. destruct (is_arrow key); exact H.
  - unfold reset, setStatus. cbv zeta. cbn [status set_crossed].
    destruct (decide _); destruct (carBodyRef _); exact H.
  - exact H.
  - exact H.
  - unfold autoReset. destruct (resetTimer g); [|exact H].
    destruct (_ <? _)%Z; [exact H|].
    unfold reset, setStatus. cbv zeta. cbn [status set_crossed].
    destruct (decide _); destruct (carBodyRef _); exact H.
  - exact H.
Qed.

(** The speed that the sound effect is run with is never negative, and so
    the values it writes are always in range: a playback rate from 1 to
    2.3 and a volume from 0.06 to 0.86 (an audio element accepts volumes
    from 0 to 1 only) and, when the fallback oscillator is in use, a
    frequency of at least 80 and a gain from 0.02 to 0.2.  Without an audio
    element the effect does nothing. *)
Theorem engine_sound_in_range (now0 : Z) (tr : list (Z * Event)) (s : Sound) :
  let v := speed (run tr (init now0)) in
  let s' := engineSound v s in
  0 <= v /\
  (audioRef s = None -> s' = s) /\
  (is_Some (audioRef s) ->
   exists a,
     audioRef s' = Some a /\
     playbackRate a = 1 + Rmin 1.3 (v / 12) /\ volume a = 0.06 + Rmin 0.8 (v / 20) /\
     1 <= playbackRate a <= 2.3 /\ 0.06 <= volume a <= 0.86) /\
  (forall o, engineOsc s' = Some o -> is_Some (audioRef s) ->
     80 <= frequency o /\ 0.02 <= gain o <= 0.2).
Proof.
  intros v s'.
  assert (V : 0 <= v).
  { subst v. generalize (init now0) (Rle_refl 0 : 0 <= speed (init now0)).
    induction tr as [|[now e] tr IH]; intros g H; [exact H|].
    rewrite rigid_run_cons. apply IH, step_speed, H. }
  assert (R12 : 0 <= v / 12) by lra.
  assert (R20 : 0 <= v / 20) by lra.
  assert (R60 : 0 <= v / 60) by lra.
  pose proof (Rmin_l 1.3 (v / 12)). pose proof (Rmin_glb 1.3 (v / 12) 0 ltac:(lra) R12).
  pose proof (Rmin_l 0.8 (v / 20)). pose proof (Rmin_glb 0.8 (v / 20) 0 ltac:(lra) R20).
  pose proof (Rmin_l 0.18 (v / 60)). pose proof (Rmin_glb 0.18 (v / 60) 0 ltac:(lra) R60).
  split; [exact V|]. subst s'. unfold engineSound. split; [|split].
  - intros ->. reflexivity.
  - intros (a0 & ->). cbv zeta. eexists. split; [reflexivity|].
    cbn [playbackRate volume]. repeat split; lra.
  - intros o Ho (a0 & Ha). rewrite Ha in Ho. cbv zeta in Ho. cbn [engineOsc] in Ho.
    destruct (engineOsc s); [|discriminate]. cbn in Ho. injection Ho as <-.
    cbn [frequency gain]. repeat split; nra.
Qed.

(** ** The end of a round *)

(** A round of the rigid-body game that ends at time [now], the status
    going to [passed] or [failed]: the timeout of the auto-reset does
    nothing before [now + 4000]; fired at or after that time it starts the
    next round, with the status [playing], the crossed-flag cleared, the
    car's body at the spawn position with no linear or angular velocity
    and the rotation it had, the score as it was and no timeout pending,
    after which a further timeout does nothing; and a click on the reset
    button before the timeout does the same and cancels it. *)
Theorem rigid_round_restarts_after_4s (now : Z) (st : Status) (g : Game) :
  terminal st = true -> st <> status g ->
  let g1 := setStatus now st g in
  let fresh (g2 : Game) :=
    status g2 = playing /\ crossed g2 = false /\
    carBodyRef g2
    = (fun b => {| translation := {| v_x := 0; v_y := 0.4; v_z := 18 |};
                   rotation := rotation b; linvel := origin; angvel := origin |})
        <$> carBodyRef g /\
    score g2 = score g /\ resetTimer g2 = None /\
    forall t', step t' AutoResetTimeout g2 = g2 in
  (forall t, (t < now + 4000)%Z -> step t AutoResetTimeout g1 = g1) /\
  (forall t, (now + 4000 <= t)%Z -> fresh (step t AutoResetTimeout g1)) /\
  (forall t, fresh (step t ClickReset g1)).
Proof.
  intros Ht Hne g1 fresh.
  assert (T : resetTimer g1 = Some (now + 4000)%Z).
  { subst g1. rewrite rigid_setStatus_timer. destruct (decide _); [contradiction|].
    rewrite Ht. reflexivity. }
  assert (S : status g1 = st) by apply rigid_setStatus_status.
  destruct (rigid_setStatus_frame now st g) as (C & _ & _ & Sc & _). fold g1 in C, Sc.
  assert (R : forall t, fresh (reset t g1)).
  { intros t. destruct (rigid_reset_round t g1) as (St & X & _ & Sc' & _).
    assert (N : resetTimer (reset t g1) = None).
    { rewrite rigid_reset_timer, S. destruct (decide _) as [E|_]; [|reflexivity].
      rewrite <- E in Ht. discriminate. }
    split; [exact St|]. split; [exact X|].
    split; [rewrite rigid_reset_body, C; reflexivity|].
    split; [congruence|]. split; [exact N|].
    intros t'. cbn [step]. unfold autoReset. rewrite N. reflexivity. }
  split; [|split].
  - intros t H. cbn [step]. unfold autoReset. rewrite T.
    apply Z.ltb_lt in H. rewrite H. reflexivity.
  - intros t H. cbn [step]. unfold autoReset. rewrite T.
    apply Z.ltb_ge in H. rewrite H. apply R.
  - intros t. apply R.
Qed.

(** The car hits a barrier at time 0. *)
Lemma rigid_round_restarts_after_4s_witness :
  step 3999 AutoResetTimeout (setStatus 0 failed (init 0)) = setStatus 0 failed (init 0) /\
  status (step 4000 AutoResetTimeout (setStatus 0 failed (init 0))) = playing.
Proof.
  destruct (rigid_round_restarts_after_4s 0 failed (init 0) eq_refl ltac:(discriminate))
    as (H1 & H2 & _).
  split; [apply H1; reflexivity|]. apply (H2 4000%Z). discriminate.
Defined.

End BodyFacts.

(** * The collision noise *)

Module NoiseFacts.

Import RigidBody.
Local Open Scope R_scope.

(** The noise burst that stands in for the collision sound: the buffer is
    filled with [len] samples, and sample [i] lies within the envelope that
    falls linearly from 0.6 at the start to 0 at the end, so no sample is
    outside the range from -0.6 to 0.6. *)
Theorem noise_burst_decays (rnd : nat -> R) (len : nat) :
  (forall i, 0 <= rnd i < 1) ->
  length (noiseBurst rnd len) = len /\
  forall i x, nth_error (noiseBurst rnd len) i = Some x ->
    Rabs x <= 0.6 * (1 - INR i / INR len) /\ Rabs x <= 0.6.
Proof.
  intros Hr. unfold noiseBurst. split; [rewrite length_map, length_seq; reflexivity|].
  intros i x H.
  assert (Hi : (i < len)%nat).
  { assert (N : nth_error (map (fun i => (rnd i * 2 - 1) * (1 - INR i / INR len) * 0.6)
                              (seq 0 len)) i <> None) by (rewrite H; discriminate).
    apply nth_error_Some in N. rewrite length_map, length_seq in N. exact N. }
  rewrite nth_error_map, nth_error_seq in H.
  destruct (Nat.ltb_spec i len) as [_|N]; [|lia]. cbn in H. injection H as <-.
  assert (L : 0 < INR len) by (apply lt_0_INR; lia).
  assert (I0 : 0 <= INR i) by apply pos_INR.
  assert (I1 : INR i < INR len) by (apply lt_INR, Hi).
  assert (F : 0 <= INR i / INR len < 1).
  { assert (Q : INR i / INR len * INR len = INR i) by (field; lra).
    split; nra. }
  destruct (Hr i) as (R0 & R1).
  assert (A : Rabs (rnd i * 2 - 1) <= 1) by (apply Rabs_le; lra).
  replace ((rnd i * 2 - 1) * (1 - INR i / INR len) * 0.6)
    with ((rnd i * 2 - 1) * (0.6 * (1 - INR i / INR len))) by ring.
  rewrite Rabs_mult, (Rabs_pos_eq (0.6 * _)) by nra.
  split; nra.
Qed.

(** Three samples. *)
Lemma noise_burst_decays_witness :
  length (noiseBurst (fun _ => 0.25) 3) = 3%nat.
Proof.
  destruct (noise_burst_decays (fun _ => 0.25) 3) as (H & _).
  - intros _. lra.
  - exact H.
Defined.

End NoiseFacts.

(** * The score of the driving games *)

Module ScoreFacts.

(** In both driving games the score never goes down, through resets and
    the ends of rounds included, and no event adds more than one to it:
    after a run it lies between the score before and that score plus the
    number of events. *)
Theorem score_never_decreases :
  (forall (tr : list (Z * Kinematic.Event)) (g : Kinematic.Game),
     (Kinematic.score g <= Kinematic.score (Kinematic.run tr g)
      <= Kinematic.score g + Z.of_nat (length tr))%Z) /\
  (forall (tr : list (Z * RigidBody.Event)) (g : RigidBody.Game),
     (RigidBody.score g <= RigidBody.score (RigidBody.run tr g)
      <= RigidBody.score g + Z.of_nat (length tr))%Z).
Proof.
  split.
  - intros tr. induction tr as [|[now e] tr IH]; intros g; [cbn; lia|].
    change (Kinematic.run ((now, e) :: tr) g)
      with (Kinematic.run tr (Kinematic.step now e g)).
    specialize (IH (Kinematic.step now e g)). cbn [length].
    destruct (KinematicFacts.score_step now e g) as [E|(_ & _ & _ & E)]; lia.
  - intros tr. induction tr as [|[now e] tr IH]; intros g; [cbn; lia|].
    change (RigidBody.run ((now, e) :: tr) g)
      with (RigidBody.run tr (RigidBody.step now e g)).
    specialize (IH (RigidBody.step now e g)). cbn [length].
    destruct (RigidBodyFacts.rigid_score_step now e g) as [E|(_ & _ & E)]; lia.
Qed.

End ScoreFacts.
